(** * Recommendation ranker and wrapped statistics of the audio collection API

    A shallow embedding of [src/services/recommendations.service.ts]
    (class [RecommendationsService]) and of the wrapped controller
    ([getWrapped] and its helpers), followed by the properties of the
    specification stated over that embedding.

    Conventions of the embedding:
    - a JavaScript [number] is a rational [Q] (or an integer [Z] where the
      code only ever stores integers: play counts, timestamps in
      milliseconds). The products of [applyRecencyWeighting] and of the
      category caps, whose integer part decides a result, are rounded to
      binary64 as the engine does ([JS.roundDouble]); the scores and the
      percentages are exact rationals, the rounding of their last bit is left
      out. [NaN] and the infinities are outside the model;
    - a title is a sequence of UTF-16 code units ([JS.jsstring]); identifiers,
      artist names, cover paths and language codes are only compared, joined
      or prefixed, and are [string]s;
    - the document store is read through explicit collections ([Db]); a query
      is a [filter] over the collection in its stored order;
    - [Math.random], [$sample] and a comparator that ignores its arguments
      are passed in as oracles; a value read from an LRU cache is an optional
      input of the function that reads it (the write that ends a function
      stores the value it returns and does not change that value);
    - a user document read by mongoose is hydrated: its schema fields are
      accessors, read as the fields of [IUser]; an object spread of such a
      document copies none of them ([WeightedAlbum], [WeightedSong]);
    - [String.prototype.normalize] is a parameter ([normalizeNFD]) of the
      functions that call it;
    - a thrown [Error] is the left summand of [throws]. *)

From Stdlib Require Import QArith Qround Qpower Sorted Lqa.
From stdpp Require Import gmap strings list.

Local Open Scope Z_scope.

(* ===================================================================== *)
(** ** The JavaScript runtime functions the code calls *)
(* ===================================================================== *)

Module JS.

(** A string as its UTF-16 code units. *)
Definition jsstring := list N.

Definition codes (s : string) : jsstring :=
  map Ascii.N_of_ascii (String.list_ascii_of_string s).

Definition SPACE : N := 0x20%N.
Definition HYPHEN : N := 0x2D%N.

(** [WhiteSpace] and [LineTerminator] of ECMAScript, the code units that
    [String.prototype.trim] removes. *)
Definition isWhiteSpace (c : N) : bool :=
  ((0x09 <=? c) && (c <=? 0x0D) || (c =? 0x20) || (c =? 0xA0)
   || (c =? 0x1680) || ((0x2000 <=? c) && (c <=? 0x200A))
   || (c =? 0x2028) || (c =? 0x2029) || (c =? 0x202F) || (c =? 0x205F)
   || (c =? 0x3000) || (c =? 0xFEFF))%N.

Fixpoint trimStart (s : jsstring) : jsstring :=
  match s with
  | c :: r => if isWhiteSpace c then trimStart r else s
  | [] => []
  end.

Definition trimEnd (s : jsstring) : jsstring := rev (trimStart (rev s)).

Definition trim (s : jsstring) : jsstring := trimEnd (trimStart s).

Fixpoint startsWith (p s : jsstring) : bool :=
  match p, s with
  | [], _ => true
  | a :: p', b :: s' => (a =? b)%N && startsWith p' s'
  | _ :: _, [] => false
  end.

(** [haystack.includes(needle)]. *)
Fixpoint includes (needle haystack : jsstring) : bool :=
  startsWith needle haystack ||
  match haystack with
  | [] => false
  | _ :: h' => includes needle h'
  end.

(** The separator [" - "] of the regular expression [/^[^-]+ - /]. *)
Definition matchSeparator (s : jsstring) : option jsstring :=
  match s with
  | a :: b :: c :: r =>
      if ((a =? SPACE) && (b =? HYPHEN) && (c =? SPACE))%N
      then Some r else None
  | _ => None
  end.

(** [[^-]+ - ] once a first non-hyphen code unit has been consumed: the
    greedy run is extended first, and on failure the matcher backtracks to
    the separator at the current position. The result is the text after
    the match. *)
Fixpoint matchRun (s : jsstring) : option jsstring :=
  match s with
  | c :: r =>
      if (c =? HYPHEN)%N then matchSeparator s
      else match matchRun r with
           | Some rest => Some rest
           | None => matchSeparator s
           end
  | [] => None
  end.

(** [/^[^-]+ - /], anchored at the start of the string. *)
Definition matchPrefix (s : jsstring) : option jsstring :=
  match s with
  | c :: r => if (c =? HYPHEN)%N then None else matchRun r
  | [] => None
  end.

(** [s.replace(/^[^-]+ - /, "")]. *)
Definition replacePrefix (s : jsstring) : jsstring :=
  match matchPrefix s with
  | Some rest => rest
  | None => s
  end.

(** [/[\u0300-\u036f]/]. *)
Definition isCombiningMark (c : N) : bool :=
  ((0x300 <=? c) && (c <=? 0x36F))%N.

(** [s.replace(/[\u0300-\u036f]/g, "")]. *)
Definition removeCombiningMarks (s : jsstring) : jsstring :=
  List.filter (fun c => negb (isCombiningMark c)) s.

(** [arr.slice(0, n)] for an integer [n]: a negative [n] counts from the
    end of the array. *)
Definition slice0 {A} (n : Z) (arr : list A) : list A :=
  if n <? 0 then take (Z.to_nat (Z.max (Z.of_nat (length arr) + n) 0)) arr
  else take (Z.to_nat n) arr.

(** Insertion of [x] in front of the first element it does not come
    after. *)
Fixpoint insertBy {A} (compareFn : A -> A -> Q) (x : A) (l : list A)
  : list A :=
  match l with
  | [] => [x]
  | y :: l' =>
      if Qle_bool (compareFn x y) 0 then x :: l
      else y :: insertBy compareFn x l'
  end.

(** [arr.sort(compareFn)] for a consistent comparator: the sort is stable
    (ECMAScript 2019), elements that compare equal keep their order. *)
Fixpoint sort {A} (compareFn : A -> A -> Q) (arr : list A) : list A :=
  match arr with
  | [] => []
  | x :: l => insertBy compareFn x (sort compareFn l)
  end.

(** [Math.round]: to the nearest integer, halves upwards. *)
Definition Math_round (x : Q) : Z := Qfloor (x + (1 # 2)).

Definition Math_max (a b : Q) : Q := if Qle_bool a b then b else a.

Definition Math_min (a b : Q) : Q := if Qle_bool a b then a else b.

(** *** Binary64 arithmetic

    A finite double is a rational; an arithmetic operation returns the
    double nearest to the exact result, ties to the even significand
    (IEEE 754 roundTiesToEven). The exponent is bounded below (subnormal
    numbers have the spacing 2^-1074) and unbounded above: a result of
    magnitude 2^1024 or more, which the engine turns into an infinity, is
    outside the model, and so is the sign of zero. *)

Definition pow2 (e : Z) : Q := Qpower 2 e.

(** The exponent [e] with [2^e <= x < 2^(e+1)], for a positive [x]. *)
Definition binade (x : Q) : Z :=
  let e := Z.log2 (Qnum x) - Z.log2 (Z.pos (Qden x)) in
  if Qle_bool (pow2 e) x then e else e - 1.

(** The integer nearest to [x], the even one of two that are equally
    near. *)
Definition roundHalfEven (x : Q) : Z :=
  let f := Qfloor x in
  match (x - inject_Z f ?= 1 # 2)%Q with
  | Lt => f
  | Gt => f + 1
  | Eq => if Z.even f then f else f + 1
  end.

(** Rounding of a positive number to 53 significant bits. *)
Definition roundPositive (x : Q) : Q :=
  let ulp := pow2 (Z.max (binade x) (-1022) - 52) in
  Qred (inject_Z (roundHalfEven (x / ulp)) * ulp).

Definition roundDouble (x : Q) : Q :=
  match (x ?= 0)%Q with
  | Eq => 0%Q
  | Gt => roundPositive x
  | Lt => (- roundPositive (- x))%Q
  end.

(** [a * b] on doubles. *)
Definition fmul (a b : Q) : Q := roundDouble (a * b).

Definition Math_floor (x : Q) : Z := Qfloor x.

Definition Math_ceil (x : Q) : Z := Qceiling x.

End JS.

Import JS.

(* ===================================================================== *)
(** ** Thrown errors *)
(* ===================================================================== *)

Inductive Err := Error (message : string).

Definition throws (A : Type) : Type := (Err + A)%type.

Definition ok {A} (a : A) : throws A := inr a.

Definition throw {A} (message : string) : throws A := inl (Error message).

Definition bindT {A B} (m : throws A) (k : A -> throws B) : throws B :=
  match m with
  | inl e => inl e
  | inr a => k a
  end.

Notation "'let*' x ':=' m 'in' k" := (bindT m (fun x => k))
  (at level 10, x pattern, m at level 100, k at level 200).

Fixpoint mapT {A B} (f : A -> throws B) (l : list A) : throws (list B) :=
  match l with
  | [] => ok []
  | x :: r => let* y := f x in let* ys := mapT f r in ok (y :: ys)
  end.

(* ===================================================================== *)
(** ** Data model *)
(* ===================================================================== *)

Inductive MusicGenre :=
  RAC | NSBM | OI | RAP | BALLADS | CHANT_MILITAIRE | PSYCHEDELIC_ROCK.

#[global] Instance MusicGenre_eq_dec : EqDecision MusicGenre.
Proof. solve_decision. Defined.

Record IAlbumSong := {
  song_title : jsstring;
  song_file : string
}.

(** [IAlbum]; [songLength] is the field the formatting steps add, and
    [coverAvif], which no modelled function reads, is left out. *)
Record IAlbum := {
  _id : string;
  title : jsstring;
  artist : list string;
  songs : list IAlbumSong;
  cover : string;
  lang : string;
  genre : list MusicGenre;
  songLength : option nat
}.

Record ISongWithAlbumInfo := {
  si_title : jsstring;
  si_file : string;
  si_albumTitle : jsstring;
  si_albumArtist : list string;
  si_albumCover : string;
  si_albumLang : string;
  si_albumId : string
}.

(** [listenHistory] holds the listen events as milliseconds since the
    epoch. *)
Record ListenedSongStats := {
  songTitle : jsstring;
  songFile : string;
  ls_albumId : string;
  ls_playCount : Z;
  ls_listenHistory : list Z
}.

Record ListenedAlbumStats := {
  la_albumId : string;
  la_playCount : Z;
  la_listenHistory : list Z
}.

(** The fields of [IUser] that the two engines read. *)
Record IUser := {
  user_id : string;
  listenedSongs : list ListenedSongStats;
  listenedAlbums : list ListenedAlbumStats
}.

Record FavoriteAlbum := {
  fav_userId : string;
  fav_albumId : string
}.

(** The collections behind [UserModel], [AlbumModel] and
    [FavoriteAlbumModel]. *)
Record Db := {
  users : list IUser;
  albums : list IAlbum;
  favorites : list FavoriteAlbum
}.

Definition findById (db : Db) (userId : string) : option IUser :=
  List.find (fun u => bool_decide (user_id u = userId)) (users db).

Record RecommendationWeights := {
  similarArtists : Q;
  favoriteGenres : Q;
  w_listenedAlbums : Q;
  favoriteSongs : Q;
  recency : Q;
  popularity : Q
}.

(** [Partial<RecommendationWeights>]: a key is present or absent. *)
Record PartialWeights := {
  p_similarArtists : option Q;
  p_favoriteGenres : option Q;
  p_listenedAlbums : option Q;
  p_favoriteSongs : option Q;
  p_recency : option Q;
  p_popularity : option Q
}.

Record RecommendationResult := {
  basedOnArtists : list IAlbum;
  basedOnGenres : list IAlbum;
  favoriteAlbums : list IAlbum;
  similarToLikedSongs : list ISongWithAlbumInfo;
  basedOnListenedAlbums : option (list IAlbum)
}.

Record PopularityEntry := {
  pop_albumId : string;
  pop_playCount : Z
}.

Record TopSong := {
  ts_songTitle : jsstring;
  ts_album : string
}.

(** What one call of [generateRecommendations] reads from
    [recommendationsCache] and [userProfileCache], per cache key. *)
Record CacheReads := {
  cachedRecommendations : option RecommendationResult;
  cachedUser : option IUser;
  cachedTopSongs : option (list TopSong);
  cachedPopularity : option (list PopularityEntry);
  cachedArtistRecs : option (list IAlbum);
  cachedGenreRecs : option (list IAlbum);
  cachedSongRecs : option (list ISongWithAlbumInfo);
  cachedListenedRecs : option (list IAlbum);
  cachedFavoriteRecs : option (list IAlbum)
}.

(** The random choices of one call: the successive values of
    [Math.random()] in each scoring loop, the order produced by the
    random comparator of the song category (given [popularityWeight]), and
    the documents drawn by [$sample]. *)
Record Oracles := {
  randomArtists : nat -> Q;
  randomGenres : nat -> Q;
  randomListened : nat -> Q;
  shuffleSongs : Q -> list ISongWithAlbumInfo -> list ISongWithAlbumInfo;
  sample : nat -> list IAlbum -> list IAlbum
}.

(* ===================================================================== *)
(** ** [RecommendationsService] *)
(* ===================================================================== *)

(** [TIME_PERIODS], in milliseconds. *)
Definition TIME_RECENT : Z := 7 * 24 * 60 * 60 * 1000.
Definition TIME_MEDIUM : Z := 30 * 24 * 60 * 60 * 1000.
Definition TIME_OLD : Z := 90 * 24 * 60 * 60 * 1000.

(** [RECENCY_WEIGHTS]: the doubles that the literals [1.0], [0.6], [0.3]
    and [0.1] denote. *)
Definition WEIGHT_RECENT : Q := 1.
Definition WEIGHT_MEDIUM : Q := roundDouble (6 # 10).
Definition WEIGHT_OLD : Q := roundDouble (3 # 10).
Definition WEIGHT_OLDER : Q := roundDouble (1 # 10).

Definition defaultWeights : RecommendationWeights := {|
  similarArtists := 4;
  favoriteGenres := 5;
  w_listenedAlbums := 3;
  favoriteSongs := 2;
  recency := 15 # 10;
  popularity := 1
|}.

(** [{ ...this.defaultWeights, ...weights }]. *)
Definition mergeWeights (weights : option PartialWeights)
  : RecommendationWeights :=
  match weights with
  | None => defaultWeights
  | Some w => {|
      similarArtists := default (similarArtists defaultWeights) (p_similarArtists w);
      favoriteGenres := default (favoriteGenres defaultWeights) (p_favoriteGenres w);
      w_listenedAlbums := default (w_listenedAlbums defaultWeights) (p_listenedAlbums w);
      favoriteSongs := default (favoriteSongs defaultWeights) (p_favoriteSongs w);
      recency := default (recency defaultWeights) (p_recency w);
      popularity := default (popularity defaultWeights) (p_popularity w)
    |}
  end.

(** The step function of [applyRecencyWeighting]. *)
Definition recencyFactor (timeDiff : Z) : Q :=
  if timeDiff <? TIME_RECENT then WEIGHT_RECENT
  else if timeDiff <? TIME_MEDIUM then WEIGHT_MEDIUM
  else if timeDiff <? TIME_OLD then WEIGHT_OLD
  else WEIGHT_OLDER.

(** [Math.ceil(playCount * recencyFactor * recencyWeight)] for an entry whose
    history is [t :: ts]: the product is taken from the left, each
    multiplication rounded to a double. *)
Definition weightedPlayCount (now : Z) (recencyWeight : Q) (playCount : Z)
  (t : Z) (ts : list Z) : Z :=
  let mostRecentListen := fold_left Z.max ts t in
  let timeDiff := now - mostRecentListen in
  Math_ceil
    (fmul (fmul (inject_Z playCount) (recencyFactor timeDiff)) recencyWeight).

(** [{ ...album }] and [{ ...song }] of a hydrated subdocument: [albumId],
    [playCount], [listenHistory] (and the title and file of a song) are
    accessors of the subdocument's prototype, not own properties, so the
    copy has none of them and reads them as [undefined]. [playCount]
    becomes an own property of the copy when the history is not empty. *)
Record WeightedAlbum := {
  wd_albumId : option string;
  wd_playCount : option Z
}.

Record WeightedSong := {
  wg_albumId : option string;
  wg_playCount : option Z
}.

(** The [weightedUser] that [applyRecencyWeighting] returns: the JSON copy
    of the user with its two lists replaced. *)
Record WeightedUser := {
  wu_id : string;
  wu_listenedSongs : list WeightedSong;
  wu_listenedAlbums : list WeightedAlbum
}.

Definition weightAlbum (now : Z) (recencyWeight : Q)
  (album : ListenedAlbumStats) : WeightedAlbum :=
  let weightedAlbum := {| wd_albumId := None; wd_playCount := None |} in
  match la_listenHistory album with
  | [] => weightedAlbum
  | t :: ts => {|
      wd_albumId := wd_albumId weightedAlbum;
      wd_playCount :=
        Some (weightedPlayCount now recencyWeight (la_playCount album) t ts)
    |}
  end.

Definition weightSong (now : Z) (recencyWeight : Q)
  (song : ListenedSongStats) : WeightedSong :=
  let weightedSong := {| wg_albumId := None; wg_playCount := None |} in
  match ls_listenHistory song with
  | [] => weightedSong
  | t :: ts => {|
      wg_albumId := wg_albumId weightedSong;
      wg_playCount :=
        Some (weightedPlayCount now recencyWeight (ls_playCount song) t ts)
    |}
  end.

(** [applyRecencyWeighting]; [now] is [new Date().getTime()], and [user] is
    the hydrated document that [generateRecommendations] has read. *)
Definition applyRecencyWeighting (now : Z) (user : IUser) (recencyWeight : Q)
  : WeightedUser := {|
  wu_id := user_id user;
  wu_listenedSongs := map (weightSong now recencyWeight) (listenedSongs user);
  wu_listenedAlbums := map (weightAlbum now recencyWeight) (listenedAlbums user)
|}.

(** [getTopListenedSongs], with its own read of the user. *)
Definition getTopListenedSongs (cachedSongs : option (list TopSong)) (db : Db)
  (userId : string) (limit : Z) : list TopSong :=
  match cachedSongs with
  | Some songs => songs
  | None =>
      match findById db userId with
      | None => []
      | Some user =>
          map (fun song =>
                 {| ts_songTitle := songTitle song; ts_album := ls_albumId song |})
            (slice0 limit
               (JS.sort (fun a b => inject_Z (ls_playCount b - ls_playCount a))
                  (listenedSongs user)))
      end
  end.

(** [acc[key] = (acc[key] || 0) + playCount] on a record whose keys are
    listed in insertion order (as [Object.entries] does for keys that are
    not array indices). *)
Fixpoint addCount {K} `{EqDecision K} (key : K) (playCount : Z)
  (acc : list (K * Z)) : list (K * Z) :=
  match acc with
  | [] => [(key, 0 + playCount)]
  | (k, n) :: r =>
      if decide (k = key) then (k, n + playCount) :: r
      else (k, n) :: addCount key playCount r
  end.

(** [listenedAlbum?.playCount || 1]. *)
Definition playCountOr1 (listenedAlbum : option ListenedAlbumStats) : Z :=
  match listenedAlbum with
  | Some la => if la_playCount la =? 0 then 1 else la_playCount la
  | None => 1
  end.

Definition findListened (user : IUser) (album : IAlbum)
  : option ListenedAlbumStats :=
  List.find (fun la => bool_decide (la_albumId la = _id album))
    (listenedAlbums user).

Definition listenedCatalogAlbums (db : Db) (user : IUser) : list IAlbum :=
  let albumIds := map la_albumId (listenedAlbums user) in
  List.filter (fun a => bool_decide (_id a ∈ albumIds)) (albums db).

Definition topKeys {K} (n : Z) (counts : list (K * Z)) : list K :=
  slice0 n (map fst (JS.sort (fun a b => inject_Z (snd b - snd a)) counts)).

Definition calculateFavoriteGenres (db : Db) (user : IUser) : list MusicGenre :=
  let genreCounts :=
    fold_left (fun acc album =>
                 let playCount := playCountOr1 (findListened user album) in
                 fold_left (fun acc g => addCount g playCount acc) (genre album) acc)
      (listenedCatalogAlbums db user) [] in
  topKeys 3 genreCounts.

Definition calculateTopArtists (db : Db) (user : IUser) : list string :=
  let artistCounts :=
    fold_left (fun acc album =>
                 let playCount := playCountOr1 (findListened user album) in
                 fold_left (fun acc a => addCount a playCount acc) (artist album) acc)
      (listenedCatalogAlbums db user) [] in
  topKeys 5 artistCounts.

(** The aggregation of [getAlbumPopularityData]: [$unwind], [$group] with a
    sum, [$sort] descending. *)
Fixpoint addPopularity (albumId : string) (playCount : Z)
  (acc : list PopularityEntry) : list PopularityEntry :=
  match acc with
  | [] => [{| pop_albumId := albumId; pop_playCount := playCount |}]
  | e :: r =>
      if decide (pop_albumId e = albumId)
      then {| pop_albumId := albumId; pop_playCount := pop_playCount e + playCount |} :: r
      else e :: addPopularity albumId playCount r
  end.

Definition getAlbumPopularityData (cachedData : option (list PopularityEntry))
  (db : Db) : list PopularityEntry :=
  match cachedData with
  | Some data => data
  | None =>
      JS.sort (fun a b => inject_Z (pop_playCount b - pop_playCount a))
        (fold_left (fun acc la => addPopularity (la_albumId la) (la_playCount la) acc)
           (flat_map listenedAlbums (users db)) [])
  end.

Definition popularityMapOf (popularityData : list PopularityEntry)
  : gmap string Z :=
  fold_left (fun m item => <[pop_albumId item := pop_playCount item]> m)
    popularityData ∅.

Definition maxPopularityOf (popularityData : list PopularityEntry) : Z :=
  match popularityData with
  | e :: _ => pop_playCount e
  | [] => 1
  end.

(** The score of one candidate; [randomFactor] is its [Math.random()].
    A zero [maxPopularity] (all play counts zero) is outside the number
    model. *)
Definition scoreOf (popularityMap : gmap string Z) (maxPopularity : Z)
  (popularityWeight : Q) (randomFactor : Q) (album : IAlbum) : Q :=
  let popularityScore := default 0 (popularityMap !! _id album) in
  (randomFactor * (1 - popularityWeight)
   + (inject_Z popularityScore / inject_Z maxPopularity) * popularityWeight)%Q.

Definition scoreAlbums (popularityData : list PopularityEntry)
  (popularityWeight : Q) (random : nat -> Q) (matchingAlbums : list IAlbum)
  : list (IAlbum * Q) :=
  imap (fun i album =>
          (album, scoreOf (popularityMapOf popularityData)
                    (maxPopularityOf popularityData) popularityWeight
                    (random i) album))
    matchingAlbums.

(** [.sort((a, b) => b.score - a.score).slice(0, maxSize).map(item => item.album)]. *)
Definition selectAlbums (maxSize : Z) (scoredAlbums : list (IAlbum * Q))
  : list IAlbum :=
  map fst (slice0 maxSize (JS.sort (fun a b => (snd b - snd a)%Q) scoredAlbums)).

Definition hasCommon {K} `{EqDecision K} (xs ys : list K) : bool :=
  existsb (fun x => bool_decide (x ∈ ys)) xs.

(** An insertion-ordered [Set] filled by [add]. *)
Definition setAdd {K} `{EqDecision K} (s : list K) (x : K) : list K :=
  if decide (x ∈ s) then s else s ++ [x].

Section Service.

(** The environment: [process.env.CDN_URL], [encodeURI],
    [String.prototype.normalize] with the form ["NFD"],
    [String.prototype.toLowerCase], [String.prototype.localeCompare],
    mongoose's [isValidObjectId] (its argument may be [undefined]) and the
    token check of the controller. *)
Variable cdnUrl : option string.
Variable encodeURI : string -> string.
Variable normalizeNFD : jsstring -> jsstring.
Variable toLowerCase : jsstring -> jsstring.
Variable localeCompare : jsstring -> jsstring -> Q.
Variable isValidObjectId : option string -> bool.
Variable verifyToken : string -> throws string.

(** The title formatting shared by every category: [replace(/^[^-]+ - /, "")],
    [trim()], [normalize("NFD")], [replace(/[\u0300-\u036f]/g, "")]. *)
Definition formatTitle (t : jsstring) : jsstring :=
  removeCombiningMarks (normalizeNFD (trim (replacePrefix t))).

(** [AlbumsFormatUtils.formatCoverUrl]. *)
Definition formatCoverUrl (cover : string) : throws string :=
  if bool_decide (trim (codes cover) = []) then ok ""
  else if negb (String.prefix "http" cover) && negb (String.prefix "//" cover)
  then match cdnUrl with
       | None => throw "CDN_URL environment variable is not set."
       | Some url =>
           if bool_decide (url = "")
           then throw "CDN_URL environment variable is not set."
           else ok (encodeURI (url +:+ "/" +:+ cover))
       end
  else ok cover.

(** The [formattedAlbums] step of the three scored categories. *)
Definition formatAlbum (album : IAlbum) : throws IAlbum :=
  let formattedTitle := formatTitle (title album) in
  let* formattedCover := formatCoverUrl (cover album) in
  ok {| _id := _id album;
        title := formattedTitle;
        artist := artist album;
        songs := songs album;
        cover := formattedCover;
        lang := lang album;
        genre := genre album;
        songLength := Some (length (songs album)) |}.

Definition getArtistBasedRecommendations (cachedRecs : option (list IAlbum))
  (cachedPopularity : option (list PopularityEntry)) (db : Db)
  (random : nat -> Q) (artists : list string) (weight popularityWeight : Q)
  : throws (list IAlbum) :=
  if bool_decide (artists = []) then ok []
  else
    let maxSize := Z.min 15 (Math_floor (fmul 15 weight)) in
    match cachedRecs with
    | Some recs => ok recs
    | None =>
        let popularityData := getAlbumPopularityData cachedPopularity db in
        let matchingAlbums :=
          List.filter (fun a => hasCommon (artist a) artists) (albums db) in
        let scoredAlbums :=
          scoreAlbums popularityData popularityWeight random matchingAlbums in
        mapT formatAlbum (selectAlbums maxSize scoredAlbums)
    end.

Definition getGenreBasedRecommendations (cachedRecs : option (list IAlbum))
  (cachedPopularity : option (list PopularityEntry)) (db : Db)
  (random : nat -> Q) (genres : list MusicGenre) (weight popularityWeight : Q)
  : throws (list IAlbum) :=
  if bool_decide (genres = []) then ok []
  else
    let maxSize := Z.min 6 (Math_floor (fmul 6 weight)) in
    match cachedRecs with
    | Some recs => ok recs
    | None =>
        let popularityData := getAlbumPopularityData cachedPopularity db in
        let matchingAlbums :=
          List.filter (fun a => hasCommon (genre a) genres) (albums db) in
        let scoredAlbums :=
          scoreAlbums popularityData popularityWeight random matchingAlbums in
        mapT formatAlbum (selectAlbums maxSize scoredAlbums)
    end.

Definition songMatchesOf (songTitles : list jsstring) (album : IAlbum)
  : list ISongWithAlbumInfo :=
  map (fun song =>
         {| si_title := song_title song;
            si_file := song_file song;
            si_albumTitle := title album;
            si_albumArtist := artist album;
            si_albumCover := cover album;
            si_albumLang := lang album;
            si_albumId := _id album |})
    (List.filter (fun song => bool_decide (song_title song ∈ songTitles))
       (songs album)).

Definition formatSong (song : ISongWithAlbumInfo) : throws ISongWithAlbumInfo :=
  let formattedAlbumTitle := formatTitle (si_albumTitle song) in
  let* formattedCover := formatCoverUrl (si_albumCover song) in
  ok {| si_title := si_title song;
        si_file := si_file song;
        si_albumTitle := formattedAlbumTitle;
        si_albumArtist := si_albumArtist song;
        si_albumCover := formattedCover;
        si_albumLang := si_albumLang song;
        si_albumId := si_albumId song |}.

(** [shuffle] is the order left by
    [.sort(() => Math.random() - 0.5 * (1 - popularityWeight))]. *)
Definition getSongBasedRecommendations
  (cachedRecs : option (list ISongWithAlbumInfo)) (db : Db)
  (shuffle : Q -> list ISongWithAlbumInfo -> list ISongWithAlbumInfo)
  (songs_ : list TopSong) (weight popularityWeight : Q)
  : throws (list ISongWithAlbumInfo) :=
  if bool_decide (songs_ = []) then ok []
  else
    let songTitles := map ts_songTitle songs_ in
    match cachedRecs with
    | Some recs => ok recs
    | None =>
        let matchingAlbums :=
          List.filter
            (fun a => existsb (fun s => bool_decide (song_title s ∈ songTitles))
                        (songs a))
            (albums db) in
        let songMatches := flat_map (songMatchesOf songTitles) matchingAlbums in
        let selectedSongs :=
          slice0 (Math_floor (fmul 6 weight))
            (shuffle popularityWeight songMatches) in
        mapT formatSong selectedSongs
    end.

(** [b.playCount - a.playCount] on the copies: a difference with an
    [undefined] operand is [NaN], which [sort] takes for 0. (For such a
    comparator the order that [sort] leaves is the engine's choice; the
    copies that [applyRecencyWeighting] makes are all alike in what is read
    after the sort, their [albumId].) *)
Definition comparePlayCounts (a b : WeightedAlbum) : Q :=
  match wd_playCount b, wd_playCount a with
  | Some pb, Some pa => inject_Z (pb - pa)
  | _, _ => 0
  end.

(** [getListenedAlbumsRecommendations]; [None] is the bare [return]. An
    [undefined] among the [albumIds] of a query matches the documents
    without [_id], and every album has one. *)
Definition getListenedAlbumsRecommendations (cachedRecs : option (list IAlbum))
  (cachedPopularity : option (list PopularityEntry)) (db : Db)
  (random : nat -> Q) (user : WeightedUser) (weight popularityWeight : Q)
  : throws (option (list IAlbum)) :=
  if bool_decide (wu_listenedAlbums user = []) then ok None
  else
    let maxSize := Z.min 8 (Math_floor (fmul 8 weight)) in
    match cachedRecs with
    | Some recs => ok (Some recs)
    | None =>
        let albumIds :=
          List.filter (fun id => negb (isValidObjectId id))
            (map wd_albumId
               (slice0 8 (JS.sort comparePlayCounts (wu_listenedAlbums user)))) in
        let topAlbums :=
          List.filter (fun a => bool_decide (Some (_id a) ∈ albumIds)) (albums db) in
        let artistsSet :=
          fold_left (fun s album => fold_left setAdd (artist album) s) topAlbums [] in
        let genresSet :=
          fold_left (fun s album => fold_left setAdd (genre album) s) topAlbums [] in
        let popularityData := getAlbumPopularityData cachedPopularity db in
        let matchingAlbums :=
          List.filter
            (fun a => (hasCommon (artist a) artistsSet || hasCommon (genre a) genresSet)
                      && negb (bool_decide (Some (_id a) ∈ albumIds)))
            (albums db) in
        let scoredAlbums :=
          scoreAlbums popularityData popularityWeight random matchingAlbums in
        let* formattedAlbums := mapT formatAlbum (selectAlbums maxSize scoredAlbums) in
        ok (Some formattedAlbums)
    end.

Definition filterAlreadyListened (recommendations : list IAlbum) (user : IUser)
  : list IAlbum :=
  if bool_decide (recommendations = []) then []
  else
    let listenedAlbumIds : gset string :=
      list_to_set (map la_albumId (listenedAlbums user)) in
    let filteredAlbums :=
      List.filter (fun album => negb (bool_decide (_id album ∈ listenedAlbumIds)))
        recommendations in
    if bool_decide (filteredAlbums = []) && (0 <? Z.of_nat (length recommendations))
    then slice0 3 recommendations
    else filteredAlbums.

(** [item._id?.toString() || item.albumId?.toString()] on an [IAlbum],
    which has no [albumId]: an empty [_id] leaves no key. *)
Definition albumKey (item : IAlbum) : option string :=
  if bool_decide (_id item = "") then None else Some (_id item).

(** [dedupeAlbums]; the set [seenAlbums] that the closure shares between
    its calls is passed in and returned. *)
Fixpoint dedupeAlbums (seenAlbums : gset string) (arr : list IAlbum)
  : list IAlbum * gset string :=
  match arr with
  | [] => ([], seenAlbums)
  | item :: rest =>
      match albumKey item with
      | None => dedupeAlbums seenAlbums rest
      | Some id =>
          if bool_decide (id ∈ seenAlbums) then dedupeAlbums seenAlbums rest
          else
            let '(kept, seen) := dedupeAlbums ({[id]} ∪ seenAlbums) rest in
            (item :: kept, seen)
      end
  end.

Definition songKey (song : ISongWithAlbumInfo) : jsstring :=
  trim (toLowerCase (si_title song)).

Fixpoint dedupeSongs (seenSongs : gset jsstring) (arr : list ISongWithAlbumInfo)
  : list ISongWithAlbumInfo * gset jsstring :=
  match arr with
  | [] => ([], seenSongs)
  | song :: rest =>
      let key := songKey song in
      if bool_decide (key ∈ seenSongs) then dedupeSongs seenSongs rest
      else
        let '(kept, seen) := dedupeSongs ({[key]} ∪ seenSongs) rest in
        (song :: kept, seen)
  end.

(** [removeDuplicates]: the fields of the returned object are evaluated in
    the order they are written. *)
Definition removeDuplicates (recommendations : RecommendationResult)
  : RecommendationResult :=
  let '(artists, seen1) := dedupeAlbums ∅ (basedOnArtists recommendations) in
  let '(genres, seen2) := dedupeAlbums seen1 (basedOnGenres recommendations) in
  let '(favs, seen3) := dedupeAlbums seen2 (favoriteAlbums recommendations) in
  let '(songs_, _) := dedupeSongs ∅ (similarToLikedSongs recommendations) in
  {| basedOnArtists := artists;
     basedOnGenres := genres;
     favoriteAlbums := favs;
     similarToLikedSongs := songs_;
     basedOnListenedAlbums :=
       match basedOnListenedAlbums recommendations with
       | Some listened => Some (fst (dedupeAlbums seen3 listened))
       | None => None
       end |}.

(** The [$project] stage and the formatting of [getFavoriteAlbums]: the
    projected document has no [songs], and [songLength] is their number. *)
Definition formatFavorite (album : IAlbum) : throws IAlbum :=
  let formattedTitle := formatTitle (title album) in
  let* formattedCover := formatCoverUrl (cover album) in
  ok {| _id := _id album;
        title := formattedTitle;
        artist := artist album;
        songs := [];
        cover := formattedCover;
        lang := lang album;
        genre := genre album;
        songLength := Some (length (songs album)) |}.

Definition getFavoriteAlbums (cachedRecs : option (list IAlbum)) (db : Db)
  (sample_ : nat -> list IAlbum -> list IAlbum) (userId : string)
  : throws (list IAlbum) :=
  match cachedRecs with
  | Some recs => ok recs
  | None =>
      let albumIds :=
        map fav_albumId
          (List.filter (fun fav => bool_decide (fav_userId fav = userId))
             (favorites db)) in
      if bool_decide (albumIds = []) then ok []
      else
        let favoriteAlbumsDetails :=
          List.filter (fun a => bool_decide (_id a ∈ albumIds)) (albums db) in
        let favoriteArtists :=
          fold_left (fun s album => fold_left setAdd (artist album) s)
            favoriteAlbumsDetails [] in
        if bool_decide (favoriteArtists = []) then ok []
        else
          let recommendedAlbums :=
            sample_ 15%nat
              (List.filter
                 (fun a => hasCommon (artist a) favoriteArtists
                           && negb (bool_decide (_id a ∈ albumIds)))
                 (albums db)) in
          let* formattedAlbums := mapT formatFavorite recommendedAlbums in
          ok (JS.sort (fun a b => localeCompare (title a) (title b)) formattedAlbums)
  end.

(** [generateRecommendations]. The members of each [Promise.all] are
    evaluated in the order they are listed. *)
Definition generateRecommendations (cache : CacheReads) (oracle : Oracles)
  (db : Db) (now : Z) (userId : string) (weights : option PartialWeights)
  (forceRefresh : bool) : throws RecommendationResult :=
  match (if forceRefresh then None else cachedRecommendations cache) with
  | Some cached => ok cached
  | None =>
      let finalWeights := mergeWeights weights in
      let user :=
        match cachedUser cache with
        | Some u => Some u
        | None => findById db userId
        end in
      match user with
      | None => throw "User not found"
      | Some user =>
          if bool_decide (length (listenedAlbums user) = 0%nat)
             && bool_decide (length (listenedSongs user) = 0%nat)
          then throw "No listening history available for recommendations"
          else
            let topSongs := getTopListenedSongs (cachedTopSongs cache) db userId 20 in
            let favGenres := calculateFavoriteGenres db user in
            let favArtists := calculateTopArtists db user in
            let* favAlbums :=
              getFavoriteAlbums (cachedFavoriteRecs cache) db (sample oracle) userId in
            let recencyWeightedUser :=
              applyRecencyWeighting now user (recency finalWeights) in
            let* artistRecommendations :=
              getArtistBasedRecommendations (cachedArtistRecs cache)
                (cachedPopularity cache) db (randomArtists oracle) favArtists
                (similarArtists finalWeights) (popularity finalWeights) in
            let* genreRecommendations :=
              getGenreBasedRecommendations (cachedGenreRecs cache)
                (cachedPopularity cache) db (randomGenres oracle) favGenres
                (favoriteGenres finalWeights) (popularity finalWeights) in
            let favoriteAlbumsFiltered := filterAlreadyListened favAlbums user in
            let* songRecommendations :=
              getSongBasedRecommendations (cachedSongRecs cache) db
                (shuffleSongs oracle) topSongs
                (favoriteSongs finalWeights) (popularity finalWeights) in
            let* listenedAlbumsRecommendations :=
              getListenedAlbumsRecommendations (cachedListenedRecs cache)
                (cachedPopularity cache) db (randomListened oracle)
                recencyWeightedUser
                (w_listenedAlbums finalWeights) (popularity finalWeights) in
            ok (removeDuplicates
                  {| basedOnArtists := artistRecommendations;
                     basedOnGenres := genreRecommendations;
                     favoriteAlbums := favoriteAlbumsFiltered;
                     similarToLikedSongs := songRecommendations;
                     basedOnListenedAlbums := listenedAlbumsRecommendations |})
      end
  end.

(** The response of [RecommendationsController]. *)
Inductive ResponseBody :=
| BodyError (error : string)
| BodyRecommendations (recommendations : RecommendationResult).

Record Response := {
  status : Z;
  body : ResponseBody
}.

Definition handleError (status_ : Z) (message : string) : Response :=
  {| status := status_; body := BodyError message |}.

(** [getPersonalizedRecommendations]; [token] is the bearer token of the
    request, if any. *)
Definition getPersonalizedRecommendations (cache : CacheReads)
  (oracle : Oracles) (db : Db) (now : Z) (token : option string) : Response :=
  match token with
  | None => handleError 401 "Authentication required"
  | Some token =>
      match (let* userId := verifyToken token in
             generateRecommendations cache oracle db now userId None false) with
      | inr recommendations =>
          {| status := 200; body := BodyRecommendations recommendations |}
      | inl (Error message) =>
          if includes (codes "No listening history") (codes message)
          then handleError 404 message
          else handleError 500 "Failed to generate recommendations"
      end
  end.

End Service.

(* ===================================================================== *)
(** ** The wrapped controller *)
(* ===================================================================== *)

Module Wrapped.

Record PercentileResult := {
  pr_albumId : string;
  pr_artist : list string;
  percentile : Q;
  topPercent : Q;
  pr_totalListens : Z
}.

Record AggregatedArtistStat := {
  artistName : string;
  as_totalListens : Z;
  bestPercentile : Q;
  albumIds : list string
}.

Record WrappedSong := {
  ws_title : jsstring;
  ws_artist : string;
  ws_playCount : Z
}.

Record WrappedAlbum := {
  wa_title : jsstring;
  wa_artist : list string;
  wa_coverUrl : string;
  wa_playCount : Z
}.

Record ListeningTimes := {
  morning : Z;
  afternoon : Z;
  evening : Z;
  night : Z
}.

(** An entry of [topPerformances]. Its [message] is the fixed sentence
    "Vous faites partie du top X% des plus grands auditeurs de A !";
    [tp_roundedTopPercent] is the number X written into it (A is
    [tp_artistName]). *)
Record TopPerformance := {
  tp_artistName : string;
  tp_roundedTopPercent : Q;
  tp_totalListens : Z
}.

Record WrappedStats := {
  topSongs : list WrappedSong;
  topAlbums : list WrappedAlbum;
  languageBreakdown : list (string * Z);
  totalListens : Z;
  listeningTimes : ListeningTimes;
  totalMinutes : Z;
  globalPercentile : Q;
  topPerformances : list TopPerformance
}.

Definition DEFAULT_SONG_DURATION_MINUTES : Z := 3.
Definition TOP_PERFORMANCE_PERCENTILE_THRESHOLD : Q := 10.
Definition MIN_TOP_PERCENT : Q := 1 # 10.

(** [Math.round(x * 10) / 10]. *)
Definition round1 (x : Q) : Q := (inject_Z (Math_round (x * 10)) / 10)%Q.

(** [date >= startDate && date < endDate]. *)
Definition inYear (startDate endDate : Z) (date : Z) : bool :=
  (startDate <=? date) && (date <? endDate).

Definition calculateGlobalPercentile (aggregatedStats : list AggregatedArtistStat)
  : Q :=
  match map bestPercentile aggregatedStats with
  | [] => 50
  | p :: ps =>
      let best := fold_left Math_min ps p in
      if Qeq_bool best 0 then MIN_TOP_PERCENT
      else round1 (Math_max MIN_TOP_PERCENT (100 - best))
  end.

(** [array.join(" & ")]. *)
Fixpoint joinAmp (l : list string) : string :=
  match l with
  | [] => ""
  | [a] => a
  | a :: r => a +:+ " & " +:+ joinAmp r
  end.

Definition orElse (s fallback : string) : string :=
  if bool_decide (s = "") then fallback else s.

(** [albumIdStr ? albumMap.get(albumIdStr) : undefined]. *)
Definition getAlbum (albumMap : gmap string IAlbum) (albumIdStr : string)
  : option IAlbum :=
  if bool_decide (albumIdStr = "") then None else albumMap !! albumIdStr.

Definition calculateTopSongs (listened : list ListenedSongStats)
  (albumMap : gmap string IAlbum) : list WrappedSong :=
  map (fun song =>
         let album := getAlbum albumMap (ls_albumId song) in
         {| ws_title :=
              match songTitle song with
              | [] => codes "Titre Inconnu"
              | t => t
              end;
            ws_artist :=
              orElse (from_option (fun a => joinAmp (artist a)) "" album)
                "Artiste Inconnu";
            ws_playCount := ls_playCount song |})
    (slice0 5
       (JS.sort (fun a b => inject_Z (ls_playCount b - ls_playCount a)) listened)).

(** [calculateListeningTimes]; every stored date is a valid date, and
    [getHours] is its hour of the day. *)
Definition calculateListeningTimes (getHours : Z -> Z)
  (listened : list ListenedSongStats) : ListeningTimes :=
  fold_left
    (fun times song =>
       fold_left
         (fun times date =>
            let hour := getHours date in
            if (6 <=? hour) && (hour <? 12) then
              {| morning := morning times + 1; afternoon := afternoon times;
                 evening := evening times; night := night times |}
            else if (12 <=? hour) && (hour <? 18) then
              {| morning := morning times; afternoon := afternoon times + 1;
                 evening := evening times; night := night times |}
            else if (18 <=? hour) && (hour <? 24) then
              {| morning := morning times; afternoon := afternoon times;
                 evening := evening times + 1; night := night times |}
            else if (0 <=? hour) && (hour <? 6) then
              {| morning := morning times; afternoon := afternoon times;
                 evening := evening times; night := night times + 1 |}
            else times)
         (ls_listenHistory song) times)
    listened
    {| morning := 0; afternoon := 0; evening := 0; night := 0 |}.

(** One iteration of the loop that fills [albumPlayCounts]. *)
Definition pushPlayCount (m : gmap string (list Z)) (album : ListenedAlbumStats)
  : gmap string (list Z) :=
  let albumIdStr := la_albumId album in
  let m := match m !! albumIdStr with
           | Some _ => m
           | None => <[albumIdStr := []]> m
           end in
  <[albumIdStr := default [] (m !! albumIdStr) ++ [la_playCount album]]> m.

(** The [albumPlayCounts] map: for every album, the play counts of all of
    its listeners. *)
Definition albumPlayCountsOf (allUsers : list IUser) : gmap string (list Z) :=
  fold_left (fun m user => fold_left pushPlayCount (listenedAlbums user) m)
    allUsers ∅.

Definition artistsOf (albumMap : gmap string IAlbum) (albumId : string)
  : list string :=
  from_option artist [] (albumMap !! albumId).

Definition percentileOf (albumMap : gmap string IAlbum)
  (albumPlayCounts : gmap string (list Z)) (userStat : string * Z)
  : PercentileResult :=
  let albumId := fst userStat in
  let userPlayCount := snd userStat in
  let allPlaysForAlbum := default [] (albumPlayCounts !! albumId) in
  if (Z.of_nat (length allPlaysForAlbum) <=? 1) then
    {| pr_albumId := albumId;
       pr_artist := artistsOf albumMap albumId;
       percentile := 0;
       topPercent := MIN_TOP_PERCENT;
       pr_totalListens := userPlayCount |}
  else
    let betterThanCount :=
      Z.of_nat (length (List.filter (fun count => count <? userPlayCount)
                          allPlaysForAlbum)) in
    let totalListeners := Z.of_nat (length allPlaysForAlbum) in
    let percentile_ :=
      if 0 <? totalListeners
      then (inject_Z betterThanCount / inject_Z totalListeners * 100)%Q
      else 0%Q in
    let topPercent_ := Math_max MIN_TOP_PERCENT (100 - percentile_) in
    {| pr_albumId := albumId;
       pr_artist := artistsOf albumMap albumId;
       percentile := percentile_;
       topPercent := round1 topPercent_;
       pr_totalListens := userPlayCount |}.

(** [calculateListeningPercentiles]; [allUsers] is the result of
    [UserModel.find({})]. *)
Definition calculateListeningPercentiles (allUsers : list IUser)
  (currentUser : IUser) (albumMap : gmap string IAlbum)
  : list PercentileResult :=
  let userStats :=
    map (fun album => (la_albumId album, la_playCount album))
      (listenedAlbums currentUser) in
  map (percentileOf albumMap (albumPlayCountsOf allUsers)) userStats.

(** A value of [artistStatsMap]. *)
Record ArtistAcc := {
  acc_totalListens : Z;
  acc_bestPercentile : Q;
  acc_albumIds : list string
}.

Definition accInit : ArtistAcc :=
  {| acc_totalListens := 0; acc_bestPercentile := 101; acc_albumIds := [] |}.

Definition accStep (albumStat : PercentileResult) (a : ArtistAcc) : ArtistAcc :=
  {| acc_totalListens := acc_totalListens a + pr_totalListens albumStat;
     acc_bestPercentile := Math_min (acc_bestPercentile a) (percentile albumStat);
     acc_albumIds := setAdd (acc_albumIds a) (pr_albumId albumStat) |}.

(** One iteration of the inner loop of [aggregateArtistStats]; the [Map]
    keeps its keys in insertion order. *)
Fixpoint updateArtist (albumStat : PercentileResult) (name : string)
  (m : list (string * ArtistAcc)) : list (string * ArtistAcc) :=
  match m with
  | [] => [(name, accStep albumStat accInit)]
  | (k, a) :: r =>
      if decide (k = name) then (k, accStep albumStat a) :: r
      else (k, a) :: updateArtist albumStat name r
  end.

Definition artistStatsMapOf (albumPercentiles : list PercentileResult)
  : list (string * ArtistAcc) :=
  fold_left
    (fun m albumStat =>
       fold_left (fun m name => updateArtist albumStat name m)
         (pr_artist albumStat) m)
    albumPercentiles [].

Definition aggregateArtistStats (albumPercentiles : list PercentileResult)
  : list AggregatedArtistStat :=
  map (fun '(name, stats) =>
         {| artistName := name;
            as_totalListens := acc_totalListens stats;
            bestPercentile :=
              if Qle_bool (acc_bestPercentile stats) 100
              then acc_bestPercentile stats else 100;
            albumIds := acc_albumIds stats |})
    (artistStatsMapOf albumPercentiles).

Definition calculateLanguageBreakdown (listened : list ListenedAlbumStats)
  (albumMap : gmap string IAlbum) : list (string * Z) :=
  fold_left
    (fun langCounts listenedAlbum =>
       match getAlbum albumMap (la_albumId listenedAlbum) with
       | Some albumData =>
           if bool_decide (lang albumData = "") then langCounts
           else addCount (lang albumData) (la_playCount listenedAlbum) langCounts
       | None => langCounts
       end)
    listened [].

(** The [topPerformances] of [getWrapped]. *)
Definition topPerformancesOf (aggregatedArtistStats : list AggregatedArtistStat)
  : list TopPerformance :=
  map (fun stat =>
         let roundedTopPercent :=
           if Qeq_bool (bestPercentile stat) 0 then MIN_TOP_PERCENT
           else round1 (Math_max MIN_TOP_PERCENT (100 - bestPercentile stat)) in
         {| tp_artistName := artistName stat;
            tp_roundedTopPercent := roundedTopPercent;
            tp_totalListens := as_totalListens stat |})
    (JS.sort (fun a b => (bestPercentile a - bestPercentile b)%Q)
       (List.filter
          (fun stat =>
             Qle_bool (bestPercentile stat) TOP_PERFORMANCE_PERCENTILE_THRESHOLD)
          aggregatedArtistStats)).

(** [albumMap]: the catalog documents of the albums the user has
    listened to, keyed by id. *)
Definition albumMapOf (db : Db) (user : IUser) : gmap string IAlbum :=
  let listenedIds := map la_albumId (listenedAlbums user) in
  fold_left (fun m album => <[_id album := album]> m)
    (List.filter (fun a => bool_decide (_id a ∈ listenedIds)) (albums db)) ∅.

(** [yearlyListenedSongs] and [yearlyListenedAlbums]: the entries with
    some listen event in the year. *)
Definition yearlySongs (startDate endDate : Z) (user : IUser)
  : list ListenedSongStats :=
  List.filter (fun song => existsb (inYear startDate endDate) (ls_listenHistory song))
    (listenedSongs user).

Definition yearlyAlbums (startDate endDate : Z) (user : IUser)
  : list ListenedAlbumStats :=
  List.filter (fun album => existsb (inYear startDate endDate) (la_listenHistory album))
    (listenedAlbums user).

Section Handler.

(** [process.env.CDN_URL], [encodeURI], [Date.prototype.getHours] in the
    zone of the server, and the token check. *)
Variable cdnUrl : option string.
Variable encodeURI : string -> string.
Variable getHours : Z -> Z.
Variable verifyToken : string -> throws string.

Definition calculateTopAlbums (listened : list ListenedAlbumStats)
  (albumMap : gmap string IAlbum) : list WrappedAlbum :=
  map (fun listenedAlbum =>
         let albumData := getAlbum albumMap (la_albumId listenedAlbum) in
         let cdn := default "" cdnUrl in
         let coverPath := from_option cover "" albumData in
         let formattedCover :=
           if bool_decide (coverPath = "") then "/assets/default-cover.jpg"
           else if String.prefix "http" coverPath then coverPath
           else if bool_decide (cdn = "") then "/assets/default-cover.jpg"
           else encodeURI
                  (cdn +:+ "/" +:+
                   (if String.prefix "/" coverPath
                    then String.substring 1 (String.length coverPath - 1) coverPath
                    else coverPath)) in
         {| wa_title :=
              match from_option title [] albumData with
              | [] => codes "Album Inconnu"
              | t => t
              end;
            wa_artist := from_option artist [] albumData;
            wa_coverUrl := formattedCover;
            wa_playCount := la_playCount listenedAlbum |})
    (slice0 6
       (JS.sort (fun a b => inject_Z (la_playCount b - la_playCount a)) listened)).

(** The body of [getWrapped] once the user is found; [startDate] and
    [endDate] are [new Date(currentYear, 0, 1)] and
    [new Date(currentYear + 1, 0, 1)]. *)
Definition wrappedStats (db : Db) (startDate endDate : Z) (user : IUser)
  : WrappedStats :=
  let albumMap := albumMapOf db user in
  let yearlyListenedSongs := yearlySongs startDate endDate user in
  let yearlyListenedAlbums := yearlyAlbums startDate endDate user in
  let userAlbumPercentiles :=
    calculateListeningPercentiles (users db) user albumMap in
  let aggregatedArtistStats := aggregateArtistStats userAlbumPercentiles in
  let totalYearlyListens :=
    fold_left (fun total song => total + ls_playCount song) yearlyListenedSongs 0 in
  let totalYearlyMinutes :=
    fold_left (fun total song =>
                 total + ls_playCount song * DEFAULT_SONG_DURATION_MINUTES)
      yearlyListenedSongs 0 in
  {| topSongs := calculateTopSongs yearlyListenedSongs albumMap;
     topAlbums := calculateTopAlbums yearlyListenedAlbums albumMap;
     languageBreakdown := calculateLanguageBreakdown yearlyListenedAlbums albumMap;
     totalListens := totalYearlyListens;
     listeningTimes := calculateListeningTimes getHours yearlyListenedSongs;
     totalMinutes := totalYearlyMinutes;
     globalPercentile := calculateGlobalPercentile aggregatedArtistStats;
     topPerformances := topPerformancesOf aggregatedArtistStats |}.

Inductive WrappedBody :=
| ApiError (status_ : Z) (message code : string)
| WrappedOk (wrapped : WrappedStats).

Definition UNAUTHORIZED : WrappedBody := ApiError 401 "Non autorisé" "UNAUTHORIZED".
Definition USER_NOT_FOUND : WrappedBody :=
  ApiError 404 "Utilisateur non trouvé" "USER_NOT_FOUND".
Definition INTERNAL_ERROR : WrappedBody :=
  ApiError 500 "Erreur interne du serveur" "INTERNAL_ERROR".

(** [getWrapped]. *)
Definition getWrapped (db : Db) (startDate endDate : Z) (token : option string)
  : WrappedBody :=
  match token with
  | None => UNAUTHORIZED
  | Some token =>
      match verifyToken token with
      | inl _ => INTERNAL_ERROR
      | inr userId =>
          match findById db userId with
          | None => USER_NOT_FOUND
          | Some user => WrappedOk (wrappedStats db startDate endDate user)
          end
      end
  end.

End Handler.

End Wrapped.

(* ===================================================================== *)
(** ** Properties of the specification, and the data used to test them *)
(* ===================================================================== *)

(** All album ids of a result, in the order of the dedup pass: artists,
    genres, favorites, listened albums. *)
Definition albumIdsOf (r : RecommendationResult) : list string :=
  map _id (basedOnArtists r) ++ map _id (basedOnGenres r)
  ++ map _id (favoriteAlbums r) ++ map _id (default [] (basedOnListenedAlbums r)).

(** A result that [generateRecommendations] returns: either computed by the
    call, or read from [recommendationsCache], where only results returned
    by earlier calls are stored under the key of a recommendation set. *)
Inductive Returned (cdnUrl : option string) (encodeURI : string -> string)
  (normalizeNFD : jsstring -> jsstring)
  (toLowerCase : jsstring -> jsstring) (localeCompare : jsstring -> jsstring -> Q)
  (isValidObjectId : option string -> bool) : RecommendationResult -> Prop :=
| returned_by_call cache oracle db now userId weights forceRefresh r :
    (forall c, cachedRecommendations cache = Some c ->
               Returned cdnUrl encodeURI normalizeNFD toLowerCase localeCompare
                 isValidObjectId c) ->
    generateRecommendations cdnUrl encodeURI normalizeNFD toLowerCase localeCompare
      isValidObjectId cache oracle db now userId weights forceRefresh = inr r ->
    Returned cdnUrl encodeURI normalizeNFD toLowerCase localeCompare
      isValidObjectId r.

(** The user document that a call of [generateRecommendations] works on. *)
Definition userRead (cache : CacheReads) (db : Db) (userId : string)
  : option IUser :=
  match cachedUser cache with
  | Some u => Some u
  | None => findById db userId
  end.

Definition noCacheReads : CacheReads := {|
  cachedRecommendations := None;
  cachedUser := None;
  cachedTopSongs := None;
  cachedPopularity := None;
  cachedArtistRecs := None;
  cachedGenreRecs := None;
  cachedSongRecs := None;
  cachedListenedRecs := None;
  cachedFavoriteRecs := None
|}.

(** Stand-ins for the runtime functions on plain ASCII data: [encodeURI]
    leaves unreserved characters alone, [toLowerCase] maps A..Z to a..z,
    [localeCompare] orders by code unit, and neither the catalog ids of
    this application nor [undefined] are ObjectIds. *)
Definition asciiEncodeURI (s : string) : string := s.

Definition asciiToLowerCase (s : jsstring) : jsstring :=
  map (fun c => if ((0x41 <=? c) && (c <=? 0x5A))%N then (c + 0x20)%N else c) s.

Fixpoint codeUnitCompare (a b : jsstring) : Q :=
  match a, b with
  | [], [] => 0
  | [], _ :: _ => -1
  | _ :: _, [] => 1
  | x :: a', y :: b' =>
      if (x <? y)%N then -1 else if (y <? x)%N then 1 else codeUnitCompare a' b'
  end.

Definition noObjectIds (id : option string) : bool := false.

Definition acceptToken (token : string) : throws string := ok token.

(** *** [normalize("NFD")] on the text of the examples

    Unicode normalization form D over four blocks: Basic Latin, Latin-1
    Supplement, Combining Diacritical Marks and Hebrew. It is the instance
    of [normalizeNFD] that the examples run; the theorems are stated for
    every function. *)

(** Canonical decompositions of the Latin-1 supplement (U+00C0..U+00FF):
    precomposed letter, base letter, combining mark. *)
Definition latin1Decompositions : list (N * (N * N)) :=
  [ (0xC0, (0x41, 0x300)); (0xC1, (0x41, 0x301)); (0xC2, (0x41, 0x302));
    (0xC3, (0x41, 0x303)); (0xC4, (0x41, 0x308)); (0xC5, (0x41, 0x30A));
    (0xC7, (0x43, 0x327));
    (0xC8, (0x45, 0x300)); (0xC9, (0x45, 0x301)); (0xCA, (0x45, 0x302));
    (0xCB, (0x45, 0x308));
    (0xCC, (0x49, 0x300)); (0xCD, (0x49, 0x301)); (0xCE, (0x49, 0x302));
    (0xCF, (0x49, 0x308));
    (0xD1, (0x4E, 0x303));
    (0xD2, (0x4F, 0x300)); (0xD3, (0x4F, 0x301)); (0xD4, (0x4F, 0x302));
    (0xD5, (0x4F, 0x303)); (0xD6, (0x4F, 0x308));
    (0xD9, (0x55, 0x300)); (0xDA, (0x55, 0x301)); (0xDB, (0x55, 0x302));
    (0xDC, (0x55, 0x308)); (0xDD, (0x59, 0x301));
    (0xE0, (0x61, 0x300)); (0xE1, (0x61, 0x301)); (0xE2, (0x61, 0x302));
    (0xE3, (0x61, 0x303)); (0xE4, (0x61, 0x308)); (0xE5, (0x61, 0x30A));
    (0xE7, (0x63, 0x327));
    (0xE8, (0x65, 0x300)); (0xE9, (0x65, 0x301)); (0xEA, (0x65, 0x302));
    (0xEB, (0x65, 0x308));
    (0xEC, (0x69, 0x300)); (0xED, (0x69, 0x301)); (0xEE, (0x69, 0x302));
    (0xEF, (0x69, 0x308));
    (0xF1, (0x6E, 0x303));
    (0xF2, (0x6F, 0x300)); (0xF3, (0x6F, 0x301)); (0xF4, (0x6F, 0x302));
    (0xF5, (0x6F, 0x303)); (0xF6, (0x6F, 0x308));
    (0xF9, (0x75, 0x300)); (0xFA, (0x75, 0x301)); (0xFB, (0x75, 0x302));
    (0xFC, (0x75, 0x308)); (0xFD, (0x79, 0x301)); (0xFF, (0x79, 0x308)) ]%N.

Fixpoint lookupDecomposition (c : N) (table : list (N * (N * N)))
  : option (N * N) :=
  match table with
  | (k, d) :: t => if (k =? c)%N then Some d else lookupDecomposition c t
  | [] => None
  end.

(** Canonical decomposition of one code unit: the Latin-1 table above and
    the four combining marks of U+0300..U+036F that decompose. *)
Definition decompose (c : N) : list N :=
  match lookupDecomposition c latin1Decompositions with
  | Some (base, mark) => [base; mark]
  | None =>
      if (c =? 0x340)%N then [0x300%N]
      else if (c =? 0x341)%N then [0x301%N]
      else if (c =? 0x343)%N then [0x313%N]
      else if (c =? 0x344)%N then [0x308%N; 0x301%N]
      else [c]
  end.

(** Canonical combining classes of U+0300..U+036F and of the Hebrew
    accents and points U+0591..U+05C7, as ranges (first, last, class). A
    code unit in none of the ranges is a starter, of class 0: so is
    U+034F, the combining grapheme joiner. *)
Definition combiningClasses : list (N * N * N) :=
  [ (0x300, 0x314, 230); (0x315, 0x315, 232); (0x316, 0x319, 220);
    (0x31A, 0x31A, 232); (0x31B, 0x31B, 216); (0x31C, 0x320, 220);
    (0x321, 0x322, 202); (0x323, 0x326, 220); (0x327, 0x328, 202);
    (0x329, 0x333, 220); (0x334, 0x338, 1); (0x339, 0x33C, 220);
    (0x33D, 0x344, 230); (0x345, 0x345, 240); (0x346, 0x346, 230);
    (0x347, 0x349, 220); (0x34A, 0x34C, 230); (0x34D, 0x34E, 220);
    (0x350, 0x352, 230); (0x353, 0x356, 220); (0x357, 0x357, 230);
    (0x358, 0x358, 232); (0x359, 0x35A, 220); (0x35B, 0x35B, 230);
    (0x35C, 0x35C, 233); (0x35D, 0x35E, 234); (0x35F, 0x35F, 233);
    (0x360, 0x361, 234); (0x362, 0x362, 233); (0x363, 0x36F, 230);
    (0x591, 0x591, 220); (0x592, 0x595, 230); (0x596, 0x596, 220);
    (0x597, 0x599, 230); (0x59A, 0x59A, 222); (0x59B, 0x59B, 220);
    (0x59C, 0x5A1, 230); (0x5A2, 0x5A7, 220); (0x5A8, 0x5A9, 230);
    (0x5AA, 0x5AA, 220); (0x5AB, 0x5AC, 230); (0x5AD, 0x5AD, 222);
    (0x5AE, 0x5AE, 228); (0x5AF, 0x5AF, 230); (0x5B0, 0x5B0, 10);
    (0x5B1, 0x5B1, 11); (0x5B2, 0x5B2, 12); (0x5B3, 0x5B3, 13);
    (0x5B4, 0x5B4, 14); (0x5B5, 0x5B5, 15); (0x5B6, 0x5B6, 16);
    (0x5B7, 0x5B7, 17); (0x5B8, 0x5B8, 18); (0x5B9, 0x5BA, 19);
    (0x5BB, 0x5BB, 20); (0x5BC, 0x5BC, 21); (0x5BD, 0x5BD, 22);
    (0x5BF, 0x5BF, 23); (0x5C1, 0x5C1, 24); (0x5C2, 0x5C2, 25);
    (0x5C4, 0x5C4, 230); (0x5C5, 0x5C5, 220); (0x5C7, 0x5C7, 18) ]%N.

Fixpoint lookupClass (c : N) (ranges : list (N * N * N)) : N :=
  match ranges with
  | (first, last, class) :: r =>
      if ((first <=? c) && (c <=? last))%N then class else lookupClass c r
  | [] => 0%N
  end.

Definition combiningClass (c : N) : N := lookupClass c combiningClasses.

(** The place of a mark in a run of marks ordered by class: behind the
    marks of a lower or of the same class. *)
Fixpoint insertMark (c : N) (run : list N) : list N :=
  match run with
  | [] => [c]
  | d :: r =>
      if (combiningClass c <? combiningClass d)%N then c :: run
      else d :: insertMark c r
  end.

(** Canonical ordering: [run] is the ordered run of marks that precedes
    [s]; a starter ends it. *)
Fixpoint reorderMarks (run s : jsstring) : jsstring :=
  match s with
  | [] => run
  | c :: r =>
      if (combiningClass c =? 0)%N then run ++ c :: reorderMarks [] r
      else reorderMarks (insertMark c run) r
  end.

Definition sampleNFD (s : jsstring) : jsstring :=
  reorderMarks [] (flat_map decompose s).

Definition testCdn : option string := Some "https://cdn.test".

Definition constantOracle : Oracles := {|
  randomArtists := fun _ => 1 # 2;
  randomGenres := fun _ => 1 # 2;
  randomListened := fun _ => 1 # 2;
  shuffleSongs := fun _ l => l;
  sample := fun n l => take n l
|}.

Definition mkAlbum (id title_ artist_ : string) (g : MusicGenre)
  (songTitles : list string) : IAlbum := {|
  _id := id;
  title := codes title_;
  artist := [artist_];
  songs := map (fun t => {| song_title := codes t; song_file := t +:+ ".mp3" |})
             songTitles;
  cover := "covers/" +:+ id +:+ ".jpg";
  lang := "fr";
  genre := [g];
  songLength := None
|}.

Definition albumA : IAlbum := mkAlbum "album-a" "Label - Premier" "X" RAC ["Marche"; "Retour"].
Definition albumB : IAlbum := mkAlbum "album-b" "Second" "X" RAC ["Marche"].
Definition albumC : IAlbum := mkAlbum "album-c" "Troisieme" "Z" OI ["Veille"].

(** 1 January 2026 and 1 January 2027, 00:00 UTC, and instants around
    them. *)
Definition JAN_2026 : Z := 1767225600000.
Definition JAN_2027 : Z := 1798761600000.
Definition HOUR : Z := 3600000.
Definition DAY : Z := 24 * HOUR.
Definition NOW : Z := JAN_2026 + 200 * DAY.

(** A user with no history, a user who has only listened to songs, and a
    user with songs and albums. *)
Definition userNoHistory : IUser :=
  {| user_id := "u0"; listenedSongs := []; listenedAlbums := [] |}.

Definition userSongsOnly : IUser := {|
  user_id := "u1";
  listenedSongs :=
    [ {| songTitle := codes "Marche"; songFile := "Marche.mp3";
         ls_albumId := "album-a"; ls_playCount := 4;
         ls_listenHistory := [NOW - 2 * DAY] |} ];
  listenedAlbums := []
|}.

Definition userBoth : IUser := {|
  user_id := "u2";
  listenedSongs :=
    [ {| songTitle := codes "Marche"; songFile := "Marche.mp3";
         ls_albumId := "album-a"; ls_playCount := 4;
         ls_listenHistory := [NOW - 2 * DAY] |} ];
  listenedAlbums :=
    [ {| la_albumId := "album-a"; la_playCount := 10;
         la_listenHistory := [NOW - 2 * DAY] |} ]
|}.

Definition testDb : Db := {|
  users := [userNoHistory; userSongsOnly; userBoth];
  albums := [albumA; albumB; albumC];
  favorites := [ {| fav_userId := "u2"; fav_albumId := "album-a" |} ]
|}.

Definition generateTest (userId : string) : throws RecommendationResult :=
  generateRecommendations testCdn asciiEncodeURI sampleNFD asciiToLowerCase
    codeUnitCompare noObjectIds noCacheReads constantOracle testDb NOW userId None
    false.

(** The result of [generateTest "u2"]. *)
Definition resultBoth : RecommendationResult :=
  match generateTest "u2" with
  | inr r => r
  | inl _ =>
      {| basedOnArtists := []; basedOnGenres := []; favoriteAlbums := [];
         similarToLikedSongs := []; basedOnListenedAlbums := None |}
  end.


(** A recommendation set in which the only favorite album is also the only
    artist-based album. *)
Definition sharedFavorite : RecommendationResult := {|
  basedOnArtists := [albumA];
  basedOnGenres := [];
  favoriteAlbums := [albumA];
  similarToLikedSongs := [];
  basedOnListenedAlbums := None
|}.






(** The ids that the listened-album-based category queries: those of the
    eight entries with the highest play counts that are no ObjectIds. *)
Definition topListenedIds (isValidObjectId : option string -> bool)
  (user : WeightedUser) : list (option string) :=
  List.filter (fun id => negb (isValidObjectId id))
    (map wd_albumId (slice0 8 (JS.sort comparePlayCounts (wu_listenedAlbums user)))).

Definition listenedCandidates (isValidObjectId : option string -> bool)
  (cachedPopularity : option (list PopularityEntry)) (db : Db) (random : nat -> Q)
  (user : WeightedUser) (popularityWeight : Q) : list (IAlbum * Q) :=
  let albumIds := topListenedIds isValidObjectId user in
  let topAlbums :=
    List.filter (fun a => bool_decide (Some (_id a) ∈ albumIds)) (albums db) in
  let artistsSet :=
    fold_left (fun s album => fold_left setAdd (artist album) s) topAlbums [] in
  let genresSet :=
    fold_left (fun s album => fold_left setAdd (genre album) s) topAlbums [] in
  scoreAlbums (getAlbumPopularityData cachedPopularity db) popularityWeight random
    (List.filter
       (fun a => (hasCommon (artist a) artistsSet || hasCommon (genre a) genresSet)
                 && negb (bool_decide (Some (_id a) ∈ albumIds)))
       (albums db)).


(** What a category reads from the cache. A category stores the list it
    has computed under a key that ends with its [weight] and its
    [popularityWeight]; a list read under the key of a call is one that a
    call with the same two weights computed when it missed the cache. *)
Section Stored.

Variable cdnUrl : option string.
Variable encodeURI : string -> string.
Variable normalizeNFD : jsstring -> jsstring.
Variable isValidObjectId : option string -> bool.





End Stored.








Definition mostRecentListenOf (t : Z) (ts : list Z) : Z := foldr Z.max t ts.







(** "Label - Été" with its two precomposed letters É (U+00C9) and
    é (U+00E9); "x" followed by a space and a combining acute accent
    (U+0301); and alef (U+05D0) with the accent etnahta (U+0591, class 220),
    a combining grapheme joiner (U+034F) and the point sheva (U+05B0,
    class 10). *)
Definition titleEte : jsstring := codes "Label - " ++ [0xC9; 0x74; 0xE9]%N.

Definition titleAccentAfterSpace : jsstring := [0x78; 0x20; 0x301]%N.

Definition titleJoiner : jsstring := [0x5D0; 0x591; 0x34F; 0x5B0]%N.

Import Wrapped.

(** The hour of the day in UTC. *)
Definition utcHours (date : Z) : Z := (date / HOUR) mod 24.

(** A user who is the only listener of album C by artist "Z", with five
    plays in 2026. *)
Definition userZ : IUser := {|
  user_id := "uz";
  listenedSongs :=
    [ {| songTitle := codes "Veille"; songFile := "Veille.mp3";
         ls_albumId := "album-c"; ls_playCount := 5;
         ls_listenHistory := [JAN_2026 + 10 * DAY + 20 * HOUR] |} ];
  listenedAlbums :=
    [ {| la_albumId := "album-c"; la_playCount := 5;
         la_listenHistory := [JAN_2026 + 10 * DAY + 20 * HOUR] |} ]
|}.

Definition zDb : Db := {|
  users := [userZ; userBoth];
  albums := [albumA; albumB; albumC];
  favorites := []
|}.

Definition wrappedTest (db : Db) (user : IUser) : WrappedStats :=
  wrappedStats testCdn asciiEncodeURI utcHours db JAN_2026 JAN_2027 user.

(** The user whose histories keep only the listen events of the year. *)
Definition restrictToYear (startDate endDate : Z) (user : IUser) : IUser := {|
  user_id := user_id user;
  listenedSongs :=
    map (fun song =>
           {| songTitle := songTitle song; songFile := songFile song;
              ls_albumId := ls_albumId song; ls_playCount := ls_playCount song;
              ls_listenHistory :=
                List.filter (inYear startDate endDate) (ls_listenHistory song) |})
      (listenedSongs user);
  listenedAlbums :=
    map (fun album =>
           {| la_albumId := la_albumId album; la_playCount := la_playCount album;
              la_listenHistory :=
                List.filter (inYear startDate endDate) (la_listenHistory album) |})
      (listenedAlbums user)
|}.

(** The entries of the year in the words of the specification: an entry
    counts when one of its listen events lies in [startDate, endDate). *)
Definition listenedIn (startDate endDate : Z) (history : list Z) : Prop :=
  Exists (fun date => startDate <= date < endDate) history.

#[global] Instance listenedIn_dec startDate endDate history :
  Decision (listenedIn startDate endDate history).
Proof. unfold listenedIn. apply _. Defined.

(** The user without the song entries, and without the album entries,
    that have no listen event in the year. *)
Definition withoutStaleSongs (startDate endDate : Z) (user : IUser) : IUser := {|
  user_id := user_id user;
  listenedSongs :=
    filter (fun song => listenedIn startDate endDate (ls_listenHistory song))
      (listenedSongs user);
  listenedAlbums := listenedAlbums user
|}.

Definition withoutStaleAlbums (startDate endDate : Z) (user : IUser) : IUser := {|
  user_id := user_id user;
  listenedSongs := listenedSongs user;
  listenedAlbums :=
    filter (fun album => listenedIn startDate endDate (la_listenHistory album))
      (listenedAlbums user)
|}.

(** A user with one song listened to on a morning of 2025 and on an
    afternoon of 2026. *)
Definition userTwoYears : IUser := {|
  user_id := "u4";
  listenedSongs :=
    [ {| songTitle := codes "Marche"; songFile := "Marche.mp3";
         ls_albumId := "album-a"; ls_playCount := 2;
         ls_listenHistory :=
           [JAN_2026 - 100 * DAY + 7 * HOUR; JAN_2026 + 10 * DAY + 13 * HOUR] |} ];
  listenedAlbums :=
    [ {| la_albumId := "album-a"; la_playCount := 2;
         la_listenHistory :=
           [JAN_2026 - 100 * DAY + 7 * HOUR; JAN_2026 + 10 * DAY + 13 * HOUR] |} ]
|}.

Definition twoYearsDb : Db := {|
  users := [userTwoYears];
  albums := [albumA; albumB; albumC];
  favorites := []
|}.

(** A user with a song of album C listened to in 2026, whose entry for
    album C itself has its only listen event in 2025. *)
Definition userStaleAlbum : IUser := {|
  user_id := "u7";
  listenedSongs :=
    [ {| songTitle := codes "Veille"; songFile := "Veille.mp3";
         ls_albumId := "album-c"; ls_playCount := 2;
         ls_listenHistory := [JAN_2026 + 10 * DAY + 13 * HOUR] |} ];
  listenedAlbums :=
    [ {| la_albumId := "album-c"; la_playCount := 3;
         la_listenHistory := [JAN_2026 - 100 * DAY + 7 * HOUR] |} ]
|}.

Definition staleAlbumDb : Db := {|
  users := [userStaleAlbum];
  albums := [albumA; albumB; albumC];
  favorites := []
|}.

(** States of [artistStatsMap] during the aggregation: every best
    percentile is non-negative, and the entry of artist [z] has best
    percentile 0. *)
Definition accNonNegative (m : list (string * ArtistAcc)) : Prop :=
  Forall (fun e => (0 <= acc_bestPercentile (snd e))%Q) m.

Definition accZeroAt (z : string) (m : list (string * ArtistAcc)) : Prop :=
  z ∈ map fst m
  /\ Forall (fun e => fst e = z -> (acc_bestPercentile (snd e) == 0)%Q) m.

(** A user whose only album was listened to in 2025. *)
Definition userLastYear : IUser := {|
  user_id := "u5";
  listenedSongs := [];
  listenedAlbums :=
    [ {| la_albumId := "album-c"; la_playCount := 3;
         la_listenHistory := [JAN_2026 - 100 * DAY + 7 * HOUR] |} ]
|}.

Definition lastYearDb : Db := {|
  users := [userLastYear];
  albums := [albumA; albumB; albumC];
  favorites := []
|}.

(* ===================================================================== *)
(** ** [sanitize], [AlbumsFormatUtils.generateCoverAvif] and
       [UserService.listenSong] *)
(* ===================================================================== *)

(** The values [sanitize] distinguishes: primitives (also [null] and
    [undefined]), arrays, and objects as their [Object.entries], in
    order. *)
Inductive JsPrimitive :=
| PNull
| PUndefined
| PBoolean (b : bool)
| PNumber (n : Q)
| PString (s : string).

Local Unset Elimination Schemes.

Inductive JsValue :=
| JPrim (p : JsPrimitive)
| JArray (items : list JsValue)
| JObject (entries : list (string * JsValue)).

Local Set Elimination Schemes.

(** [acc[key] = v]: an existing key keeps its place, a new key is added
    last. *)
Fixpoint objSet (acc : list (string * JsValue)) (key : string) (v : JsValue)
  : list (string * JsValue) :=
  match acc with
  | [] => [(key, v)]
  | (k, old) :: r =>
      if decide (k = key) then (k, v) :: r else (k, old) :: objSet r key v
  end.

(** [sanitize]. The assignment [acc["__proto__"] = v] goes to the setter
    that [acc] inherits from [Object.prototype] and gives [acc] no key of
    its own, so the entries of the result do not list it. *)
Fixpoint sanitize (value : JsValue) : JsValue :=
  match value with
  | JPrim p => JPrim p
  | JArray items => JArray (map sanitize items)
  | JObject entries =>
      JObject
        (fold_left
           (fun acc kv =>
              if String.prefix "$" (fst kv) then acc
              else if String.eqb (fst kv) "__proto__" then acc
              else objSet acc (fst kv) (sanitize (snd kv)))
           entries [])
  end.

(** Some key of the value, at any depth, starts with [$]. *)
Fixpoint hasOperatorKey (value : JsValue) : bool :=
  match value with
  | JPrim _ => false
  | JArray items => existsb hasOperatorKey items
  | JObject entries =>
      existsb (fun kv => String.prefix "$" (fst kv) || hasOperatorKey (snd kv))
        entries
  end.

(** Some key of the value, at any depth, is [__proto__]. *)
Fixpoint hasProtoKey (value : JsValue) : bool :=
  match value with
  | JPrim _ => false
  | JArray items => existsb hasProtoKey items
  | JObject entries =>
      existsb (fun kv => String.eqb (fst kv) "__proto__" || hasProtoKey (snd kv))
        entries
  end.

(** Every object of the value, at any depth, lists each key once. *)
Fixpoint uniqueKeys (value : JsValue) : Prop :=
  match value with
  | JPrim _ => True
  | JArray items => fold_right (fun v P => uniqueKeys v /\ P) True items
  | JObject entries =>
      NoDup (map fst entries)
      /\ fold_right (fun kv P => uniqueKeys (snd kv) /\ P) True entries
  end.

(** Induction on a value, with the property known for the items of an
    array and for the values of an object. *)
Section JsValueInduction.

Variable P : JsValue -> Prop.
Hypothesis Pprim : forall p, P (JPrim p).
Hypothesis Parray : forall items, Forall P items -> P (JArray items).
Hypothesis Pobject :
  forall entries, Forall (fun kv => P (snd kv)) entries -> P (JObject entries).

Fixpoint JsValue_induction (v : JsValue) : P v :=
  match v with
  | JPrim p => Pprim p
  | JArray items =>
      Parray items
        ((fix all (l : list JsValue) : Forall P l :=
            match l with
            | [] => List.Forall_nil P
            | x :: r => @List.Forall_cons _ P x r (JsValue_induction x) (all r)
            end) items)
  | JObject entries =>
      Pobject entries
        ((fix all (l : list (string * JsValue))
            : Forall (fun kv => P (snd kv)) l :=
            match l with
            | [] => List.Forall_nil _
            | (k, x) :: r =>
                @List.Forall_cons _ (fun kv => P (snd kv)) (k, x) r
                  (JsValue_induction x) (all r)
            end) entries)
  end.

End JsValueInduction.

(** A value that [sanitize] has nothing to do on. *)
Definition cleanValue (value : JsValue) : Prop :=
  hasOperatorKey value = false /\ hasProtoKey value = false /\ uniqueKeys value.

(** [s.endsWith(suffix)] and [s.replace(pattern, replacement)] with a
    string pattern, which replaces the first occurrence only. *)
Definition endsWith (suffix s : string) : bool :=
  (String.length suffix <=? String.length s)%nat
  && String.eqb
       (String.substring (String.length s - String.length suffix)
          (String.length suffix) s)
       suffix.

Fixpoint replaceFirst (pattern replacement s : string) : string :=
  if String.prefix pattern s
  then replacement
       +:+ String.substring (String.length pattern)
             (String.length s - String.length pattern) s
  else match s with
       | EmptyString => EmptyString
       | String c rest => String c (replaceFirst pattern replacement rest)
       end.

(** [AlbumsFormatUtils.generateCoverAvif]. *)
Definition generateCoverAvif (cover : string) : string :=
  if endsWith ".jpg" cover then replaceFirst ".jpg" ".avif" cover else cover.

(** The character [.] (U+002E). *)
Definition FULL_STOP : Ascii.ascii :=
  Ascii.Ascii false true true true false true false false.

(** The string has no full stop. *)
Definition dotFree (s : string) : Prop :=
  forallb (fun c => negb (Ascii.eqb c FULL_STOP)) (String.list_ascii_of_string s)
  = true.

(** What [UserService] throws: one of the [ApiErrors] objects (possibly
    with another message), or what [verifyToken] throws. *)
Inductive Thrown :=
| ThrownApi (status_ : Z) (message code : string)
| ThrownError (e : Err).

Definition API_UNAUTHORIZED : Thrown := ThrownApi 401 "Non autorisé" "UNAUTHORIZED".
Definition API_USER_NOT_FOUND : Thrown :=
  ThrownApi 404 "Utilisateur non trouvé" "USER_NOT_FOUND".

(** [validateTokenOrThrow]. *)
Definition validateTokenOrThrow (verifyToken : string -> throws string)
  (token : option string) : Thrown + string :=
  match token with
  | None => inl (ThrownApi 401 "Invalid or missing token" "UNAUTHORIZED")
  | Some token =>
      if bool_decide (token = "")
      then inl (ThrownApi 401 "Invalid or missing token" "UNAUTHORIZED")
      else match verifyToken token with
           | inl e => inl (ThrownError e)
           | inr userId =>
               if bool_decide (userId = "") then inl API_UNAUTHORIZED
               else inr userId
           end
  end.

(** The update of [listenedSongs] in [listenSong]: the entry is found by
    its title alone. *)
Fixpoint listenSongStats (now : Z) (songTitle_ : jsstring) (songFile_ albumId : string)
  (stats : list ListenedSongStats) : list ListenedSongStats :=
  match stats with
  | [] =>
      [ {| songTitle := songTitle_; songFile := songFile_; ls_albumId := albumId;
           ls_playCount := 1; ls_listenHistory := [now] |} ]
  | s :: r =>
      if bool_decide (songTitle s = songTitle_)
      then {| songTitle := songTitle s; songFile := songFile s;
              ls_albumId := ls_albumId s; ls_playCount := ls_playCount s + 1;
              ls_listenHistory := ls_listenHistory s ++ [now] |} :: r
      else s :: listenSongStats now songTitle_ songFile_ albumId r
  end.

Fixpoint listenAlbumStats (now : Z) (albumId : string)
  (stats : list ListenedAlbumStats) : list ListenedAlbumStats :=
  match stats with
  | [] => [ {| la_albumId := albumId; la_playCount := 1; la_listenHistory := [now] |} ]
  | s :: r =>
      if bool_decide (la_albumId s = albumId)
      then {| la_albumId := la_albumId s; la_playCount := la_playCount s + 1;
              la_listenHistory := la_listenHistory s ++ [now] |} :: r
      else s :: listenAlbumStats now albumId r
  end.

(** The user document after the two updates; [nowSong] and [nowAlbum] are
    the two [new Date()]. *)
Definition listened (nowSong nowAlbum : Z) (songTitle_ : jsstring)
  (songFile_ albumId : string) (user : IUser) : IUser := {|
  user_id := user_id user;
  listenedSongs :=
    listenSongStats nowSong songTitle_ songFile_ albumId (listenedSongs user);
  listenedAlbums := listenAlbumStats nowAlbum albumId (listenedAlbums user)
|}.

(** [user.save()]: the document that [findById] found is replaced. *)
Fixpoint saveUser (user : IUser) (docs : list IUser) : list IUser :=
  match docs with
  | [] => []
  | u :: r =>
      if bool_decide (user_id u = user_id user) then user :: r
      else u :: saveUser user r
  end.

(** [UserService.listenSong]: the store after the call and the status of
    the response. *)
Definition listenSong (verifyToken : string -> throws string) (db : Db)
  (nowSong nowAlbum : Z) (token : option string) (songTitle_ : jsstring)
  (songFile_ albumId : string) : Thrown + (Db * Z) :=
  match validateTokenOrThrow verifyToken token with
  | inl e => inl e
  | inr userId =>
      match findById db userId with
      | None => inl API_USER_NOT_FOUND
      | Some user =>
          let user' := listened nowSong nowAlbum songTitle_ songFile_ albumId user in
          inr ({| users := saveUser user' (users db);
                  albums := albums db;
                  favorites := favorites db |}, 201)
      end
  end.

(** The count stored under [k] in a record of counts, 0 if absent. *)
Definition countAt {K} `{EqDecision K} (acc : list (K * Z)) (k : K) : Z :=
  match List.find (fun e => bool_decide (fst e = k)) acc with
  | Some e => snd e
  | None => 0
  end.

(** The play count attributed to the tag [k] (a genre or an artist): every
    listened catalog album counts its play count once for each time it
    carries the tag. *)
Definition attributedCount {K} `{EqDecision K} (tagsOf : IAlbum -> list K)
  (db : Db) (user : IUser) (k : K) : Z :=
  fold_right
    (fun album total =>
       Z.of_nat (length (List.filter (fun t => bool_decide (t = k)) (tagsOf album)))
       * playCountOr1 (findListened user album) + total)
    0 (listenedCatalogAlbums db user).

(** The ranking behind [calculateFavoriteGenres] and [calculateTopArtists]:
    one pair per tag of a listened catalog album, with its attributed
    count, highest count first. *)
Definition RanksTags {K} `{EqDecision K} (tagsOf : IAlbum -> list K)
  (db : Db) (user : IUser) (ranked : list (K * Z)) : Prop :=
  StronglySorted (fun a b => snd b <= snd a) ranked
  /\ NoDup (map fst ranked)
  /\ forall k n,
       (k, n) ∈ ranked <->
       (exists album, album ∈ listenedCatalogAlbums db user /\ k ∈ tagsOf album)
       /\ n = attributedCount tagsOf db user k.

(** The sum of the play counts of an album over the listened-album entries
    of all users. *)
Definition totalPlayCount (db : Db) (albumId : string) : Z :=
  fold_right
    (fun la total =>
       (if bool_decide (la_albumId la = albumId) then la_playCount la else 0) + total)
    0 (flat_map listenedAlbums (users db)).

(** Two scored candidate lists with the same albums and equal scores. *)
Definition sameScores (l1 l2 : list (IAlbum * Q)) : Prop :=
  Forall2 (fun a b => fst a = fst b /\ (snd a == snd b)%Q) l1 l2.

(** The one error of the cover formatting: [CDN_URL] is unset or empty. *)
Definition CdnMissing (cdnUrl : option string) (e : Err) : Prop :=
  e = Error "CDN_URL environment variable is not set."
  /\ (cdnUrl = None \/ cdnUrl = Some "").

(* ===================================================================== *)
(** ** Reading the loops of the wrapped controller *)
(* ===================================================================== *)

(** The (artist, album statistic) pairs in the order in which the two
    loops of [aggregateArtistStats] visit them. *)
Definition artistVisits (albumPercentiles : list PercentileResult)
  : list (string * PercentileResult) :=
  flat_map (fun stat => map (fun name => (name, stat)) (pr_artist stat))
    albumPercentiles.

(** The album statistics visited for one artist, in order. *)
Definition visitsOf (name : string) (albumPercentiles : list PercentileResult)
  : list PercentileResult :=
  map snd
    (List.filter (fun v => bool_decide (fst v = name))
       (artistVisits albumPercentiles)).

(** [artistStatsMap.get(name)]. *)
Fixpoint lookupAcc (name : string) (m : list (string * ArtistAcc))
  : option ArtistAcc :=
  match m with
  | [] => None
  | (k, a) :: r => if decide (k = name) then Some a else lookupAcc name r
  end.

Definition sumZ (l : list Z) : Z := fold_right Z.add 0 l.

(** The hours that [calculateListeningTimes] puts into a bucket. *)
Definition validHour (hour : Z) : bool := (0 <=? hour) && (hour <? 24).

Definition bucketTotal (times : ListeningTimes) : Z :=
  morning times + afternoon times + evening times + night times.

(** The language under which [calculateLanguageBreakdown] counts a
    listened album: that of its catalog document, if it has one. *)
Definition countedLang (albumMap : gmap string IAlbum)
  (listenedAlbum : ListenedAlbumStats) : option string :=
  match getAlbum albumMap (la_albumId listenedAlbum) with
  | Some albumData =>
      if bool_decide (lang albumData = "") then None else Some (lang albumData)
  | None => None
  end.

(** The play counts of the listened albums counted under one language. *)
Definition playsInLang (albumMap : gmap string IAlbum)
  (listened : list ListenedAlbumStats) (l : string) : Z :=
  sumZ (map la_playCount
          (List.filter
             (fun la => bool_decide (countedLang albumMap la = Some l))
             listened)).

Definition countHours (p : Z -> bool) (hours : list Z) : Z :=
  Z.of_nat (length (List.filter p hours)).

(** No listen event of the user falls into the year. *)
Definition silentYear (startDate endDate : Z) (user : IUser) : Prop :=
  Forall (fun song => Forall (fun d => inYear startDate endDate d = false)
                        (ls_listenHistory song))
    (listenedSongs user)
  /\ Forall (fun album => Forall (fun d => inYear startDate endDate d = false)
                            (la_listenHistory album))
       (listenedAlbums user).

(** The separator [" - "] of the title prefix. *)
Definition SEPARATOR : jsstring := [SPACE; HYPHEN; SPACE].

(** Every entry of the user has as many plays as recorded listens. *)
Definition countsMatchHistory (user : IUser) : Prop :=
  Forall (fun s => ls_playCount s = Z.of_nat (length (ls_listenHistory s)))
    (listenedSongs user)
  /\ Forall (fun a => la_playCount a = Z.of_nat (length (la_listenHistory a)))
       (listenedAlbums user).

(** The user has one entry per song title and one per album. *)
Definition oneEntryPerKey (user : IUser) : Prop :=
  NoDup (map songTitle (listenedSongs user))
  /\ NoDup (map la_albumId (listenedAlbums user)).

(** [user.listenedSongs.find((stats) => stats.songTitle === songTitle)]. *)
Definition findSongStats (songTitle_ : jsstring) (user : IUser)
  : option ListenedSongStats :=
  List.find (fun s => bool_decide (songTitle s = songTitle_)) (listenedSongs user).

(** The plays that the song entry of this title brings along when it has
    no listen in the year yet. *)
Definition carriedPlays (startDate endDate : Z) (songTitle_ : jsstring)
  (user : IUser) : Z :=
  match findSongStats songTitle_ user with
  | Some s =>
      if existsb (inYear startDate endDate) (ls_listenHistory s) then 0
      else ls_playCount s
  | None => 0
  end.

(** [returned] is the formatted copy of the catalog document [doc]. *)
Definition FormattedFrom (normalizeNFD : jsstring -> jsstring)
  (doc returned : IAlbum) : Prop :=
  _id returned = _id doc /\ artist returned = artist doc
  /\ genre returned = genre doc
  /\ title returned = formatTitle normalizeNFD (title doc).

(** The ids of the albums the user has marked as favorite. *)
Definition favoriteIdsOf (db : Db) (userId : string) : list string :=
  map fav_albumId
    (List.filter (fun fav => bool_decide (fav_userId fav = userId)) (favorites db)).

(** The recency weight 2^-1070. *)
Definition MIN_RECENCY_WEIGHT : Q := pow2 (-1070).

(** How the top lists show an entry. A top song carries the play count of
    its entry, the entry's title and the artists of its album joined by
    [" & "]; a top album carries the play count of its entry and the title,
    the artists and the cover of its album. [albumMap] holds the catalog
    documents of the user's listened albums; a missing or empty value is
    replaced by a fixed text, by no artist, or by the default cover. *)
Definition ShownSong (albumMap : gmap string IAlbum) (song : ListenedSongStats)
  (shown : WrappedSong) : Prop :=
  ws_playCount shown = ls_playCount song
  /\ ws_title shown
     = (if decide (songTitle song = []) then codes "Titre Inconnu"
        else songTitle song)
  /\ ws_artist shown
     = match getAlbum albumMap (ls_albumId song) with
       | Some album =>
           if decide (joinAmp (artist album) = "") then "Artiste Inconnu"
           else joinAmp (artist album)
       | None => "Artiste Inconnu"
       end.

Definition DEFAULT_COVER : string := "/assets/default-cover.jpg".

Definition coverUrlOf (cdnUrl : option string) (encodeURI : string -> string)
  (coverPath : string) : string :=
  if decide (coverPath = "") then DEFAULT_COVER
  else if String.prefix "http" coverPath then coverPath
  else match cdnUrl with
       | None => DEFAULT_COVER
       | Some cdn =>
           if decide (cdn = "") then DEFAULT_COVER
           else if String.prefix "/" coverPath
           then encodeURI
                  (cdn +:+ "/" +:+
                   String.substring 1 (String.length coverPath - 1) coverPath)
           else encodeURI (cdn +:+ "/" +:+ coverPath)
       end.

Definition ShownAlbum (cdnUrl : option string) (encodeURI : string -> string)
  (albumMap : gmap string IAlbum) (listenedAlbum : ListenedAlbumStats)
  (shown : WrappedAlbum) : Prop :=
  wa_playCount shown = la_playCount listenedAlbum
  /\ match getAlbum albumMap (la_albumId listenedAlbum) with
     | Some album =>
         wa_title shown
         = (if decide (title album = []) then codes "Album Inconnu"
            else title album)
         /\ wa_artist shown = artist album
         /\ wa_coverUrl shown = coverUrlOf cdnUrl encodeURI (cover album)
     | None =>
         wa_title shown = codes "Album Inconnu"
         /\ wa_artist shown = []
         /\ wa_coverUrl shown = DEFAULT_COVER
     end.

(* ===================================================================== *)
(** ** Binary64 rounding *)
(* ===================================================================== *)

Lemma pow2_pos e : (0 < pow2 e)%Q.
Proof. apply Qpower_0_lt. reflexivity. Qed.

Lemma pow2_plus a b : (pow2 (a + b) == pow2 a * pow2 b)%Q.
Proof. apply Qpower_plus. discriminate. Qed.

Lemma pow2_succ a : (pow2 (a + 1) == 2 * pow2 a)%Q.
Proof. rewrite pow2_plus. change (pow2 1) with 2%Q. ring. Qed.

Lemma pow2_le a b : a <= b -> (pow2 a <= pow2 b)%Q.
Proof. intros H. apply Qpower_le_compat_l; [done|]. discriminate. Qed.

Lemma pow2_lt_inv a b : (pow2 a < pow2 b)%Q -> a < b.
Proof. intros H. apply (Qpower_lt_compat_l_inv 2); [done|reflexivity]. Qed.

Lemma pow2_inject n : 0 <= n -> (inject_Z (2 ^ n) == pow2 n)%Q.
Proof. intros H. by apply Zpower_Qpower. Qed.

Lemma binade_spec x :
  (0 < x)%Q -> (pow2 (binade x) <= x)%Q /\ (x < pow2 (binade x + 1))%Q.
Proof.
  intros Hx. destruct x as [n d]. unfold binade. cbn [Qnum Qden].
  assert (Hn : 0 < n).
  { unfold Qlt in Hx. simpl in Hx. lia. }
  set (a := Z.log2 n). set (b := Z.log2 (Z.pos d)).
  destruct (Z.log2_spec n Hn) as [Ha1 Ha2]. fold a in Ha1, Ha2.
  destruct (Z.log2_spec (Z.pos d) ltac:(lia)) as [Hb1 Hb2]. fold b in Hb1, Hb2.
  assert (Ha0 : 0 <= a) by apply Z.log2_nonneg.
  assert (Hb0 : 0 <= b) by apply Z.log2_nonneg.
  rewrite Zle_Qle, pow2_inject in Ha1, Hb1 by done.
  rewrite Zlt_Qlt in Ha2, Hb2.
  rewrite pow2_inject in Ha2, Hb2 by lia.
  replace (Z.succ a) with (a + 1) in Ha2 by lia.
  replace (Z.succ b) with (b + 1) in Hb2 by lia.
  rewrite pow2_succ in Ha2, Hb2.
  assert (Hq : (pow2 (a - b) * pow2 b == pow2 a)%Q).
  { rewrite <- pow2_plus. by replace (a - b + b) with a by lia. }
  assert (Hxd : ((n # d) * inject_Z (Z.pos d) == inject_Z n)%Q).
  { rewrite (Qmake_Qdiv n d). field. discriminate. }
  pose proof (pow2_pos (a - b)) as Pq. pose proof (pow2_pos b) as Pb.
  pose proof (pow2_pos a) as Pa.
  set (X := (n # d)%Q) in *. set (D := inject_Z (Z.pos d)) in *.
  set (N := inject_Z n) in *. set (A := pow2 a) in *. set (B := pow2 b) in *.
  set (C := pow2 (a - b)) in *.
  assert (Hup : (X < 2 * C)%Q).
  { destruct (Qlt_le_dec X (2 * C)) as [H|H]; [done|]. exfalso.
    assert (H1 : (2 * C * B <= X * D)%Q).
    { apply Qle_trans with (X * B)%Q.
      - apply Qmult_le_compat_r; [done|lra].
      - rewrite !(Qmult_comm X). apply Qmult_le_compat_r; lra. }
    lra. }
  assert (Hlo : (C < 2 * X)%Q).
  { destruct (Qlt_le_dec C (2 * X)) as [H|H]; [done|]. exfalso.
    assert (H1 : (X * D < X * (2 * B))%Q).
    { apply Qmult_lt_l; [done|lra]. }
    assert (H2 : (2 * X * B <= C * B)%Q).
    { apply Qmult_le_compat_r; lra. }
    lra. }
  destruct (Qle_bool C X) eqn:E.
  - apply Qle_bool_iff in E. split; [done|]. rewrite pow2_succ. exact Hup.
  - assert (Hlt : (X < C)%Q).
    { destruct (Qlt_le_dec X C) as [H|H]; [done|].
      apply Qle_bool_iff in H. congruence. }
    replace (a - b - 1 + 1) with (a - b) by lia. split; [|done].
    assert (Hh : (2 * pow2 (a - b - 1) == C)%Q).
    { rewrite <- pow2_succ. unfold C. by replace (a - b - 1 + 1) with (a - b) by lia. }
    lra.
Qed.

Lemma roundHalfEven_bounds x : Qfloor x <= roundHalfEven x <= Qfloor x + 1.
Proof.
  unfold roundHalfEven. destruct (_ ?= _)%Q; [|lia|lia].
  destruct (Z.even (Qfloor x)); lia.
Qed.

Lemma roundHalfEven_mono x y : (x <= y)%Q -> roundHalfEven x <= roundHalfEven y.
Proof.
  intros H. pose proof (Qfloor_resp_le _ _ H) as Hf.
  pose proof (roundHalfEven_bounds x). pose proof (roundHalfEven_bounds y).
  destruct (Z_lt_le_dec (Qfloor x) (Qfloor y)) as [Hlt|Hge]; [lia|].
  assert (E : Qfloor x = Qfloor y) by lia.
  unfold roundHalfEven. rewrite <- E.
  destruct (Qcompare_spec (x - inject_Z (Qfloor x)) (1 # 2)) as [Hx|Hx|Hx];
    destruct (Qcompare_spec (y - inject_Z (Qfloor x)) (1 # 2)) as [Hy|Hy|Hy];
    try lia; try lra; destruct (Z.even (Qfloor x)); lia.
Qed.

Lemma roundHalfEven_Z z : roundHalfEven (inject_Z z) = z.
Proof.
  unfold roundHalfEven. rewrite Qfloor_Z.
  destruct (Qcompare_spec (inject_Z z - inject_Z z) (1 # 2)) as [H|H|H];
    [lra|done|lra].
Qed.

Lemma roundHalfEven_le x m : (x <= inject_Z m)%Q -> roundHalfEven x <= m.
Proof. intros H. rewrite <- (roundHalfEven_Z m). by apply roundHalfEven_mono. Qed.

Lemma roundHalfEven_ge x m : (inject_Z m <= x)%Q -> m <= roundHalfEven x.
Proof. intros H. rewrite <- (roundHalfEven_Z m). by apply roundHalfEven_mono. Qed.

Lemma binade_mono x y : (0 < x)%Q -> (x <= y)%Q -> binade x <= binade y.
Proof.
  intros Hx Hxy.
  destruct (binade_spec x Hx) as [Hx1 _].
  destruct (binade_spec y ltac:(lra)) as [_ Hy2].
  assert (H : binade x < binade y + 1); [|lia].
  apply pow2_lt_inv. lra.
Qed.

Lemma pow2_split a b : (pow2 a == pow2 (a - b) * pow2 b)%Q.
Proof. rewrite <- pow2_plus. by replace (a - b + b) with a by lia. Qed.

Lemma roundPositive_eq x :
  (roundPositive x
   == inject_Z (roundHalfEven (x / pow2 (Z.max (binade x) (-1022) - 52)))
      * pow2 (Z.max (binade x) (-1022) - 52))%Q.
Proof. unfold roundPositive. apply Qred_correct. Qed.

Lemma roundPositive_nonneg x : (0 <= x)%Q -> (0 <= roundPositive x)%Q.
Proof.
  intros Hx. rewrite roundPositive_eq.
  set (u := pow2 _). pose proof (pow2_pos (Z.max (binade x) (-1022) - 52)) as Hu.
  fold u in Hu. apply Qmult_le_0_compat; [|lra].
  change 0%Q with (inject_Z 0). rewrite <- Zle_Qle.
  apply roundHalfEven_ge. change (inject_Z 0) with 0%Q.
  apply Qle_shift_div_l; [done|]. lra.
Qed.

(** A positive number of binade [e] is rounded into [2^E, 2^(E+1)] with
    [E = max e (-1022)], or into [0, 2^(-1021)] when it is subnormal. *)
Lemma roundPositive_upper x :
  (0 < x)%Q ->
  (roundPositive x <= pow2 (Z.max (binade x) (-1022) + 1))%Q.
Proof.
  intros Hx. rewrite roundPositive_eq.
  set (E := Z.max (binade x) (-1022)).
  pose proof (pow2_pos (E - 52)) as Hu.
  destruct (binade_spec x Hx) as [_ H2].
  assert (Hx2 : (x < pow2 (E + 1))%Q).
  { apply Qlt_le_trans with (pow2 (binade x + 1)); [done|]. apply pow2_le. lia. }
  assert (Hs : (pow2 (E + 1) == inject_Z (2 ^ 53) * pow2 (E - 52))%Q).
  { rewrite pow2_inject by lia. rewrite <- pow2_plus.
    by replace (53 + (E - 52)) with (E + 1) by lia. }
  rewrite Hs. apply Qmult_le_compat_r; [|lra].
  rewrite <- Zle_Qle. apply roundHalfEven_le.
  apply Qle_shift_div_r; [done|]. rewrite <- Hs. lra.
Qed.

Lemma roundPositive_lower x :
  (0 < x)%Q -> -1022 <= binade x ->
  (pow2 (binade x) <= roundPositive x)%Q.
Proof.
  intros Hx He. rewrite roundPositive_eq.
  rewrite Z.max_l by lia.
  pose proof (pow2_pos (binade x - 52)) as Hu.
  destruct (binade_spec x Hx) as [H1 _].
  assert (Hs : (pow2 (binade x) == inject_Z (2 ^ 52) * pow2 (binade x - 52))%Q).
  { rewrite pow2_inject by lia. rewrite <- pow2_plus.
    by replace (52 + (binade x - 52)) with (binade x) by lia. }
  rewrite Hs at 1. apply Qmult_le_compat_r; [|lra].
  rewrite <- Zle_Qle. apply roundHalfEven_ge.
  apply Qle_shift_div_l; [done|]. rewrite <- Hs. done.
Qed.

Lemma roundPositive_mono x y :
  (0 < x)%Q -> (x <= y)%Q -> (roundPositive x <= roundPositive y)%Q.
Proof.
  intros Hx Hxy. assert (Hy : (0 < y)%Q) by lra.
  pose proof (binade_mono x y Hx Hxy) as He.
  destruct (Z_lt_le_dec (Z.max (binade x) (-1022)) (Z.max (binade y) (-1022)))
    as [Hlt|Hge].
  - apply Qle_trans with (pow2 (Z.max (binade x) (-1022) + 1)).
    { by apply roundPositive_upper. }
    apply Qle_trans with (pow2 (binade y)).
    { apply pow2_le. lia. }
    apply roundPositive_lower; [done|lia].
  - assert (E : Z.max (binade x) (-1022) = Z.max (binade y) (-1022)) by lia.
    rewrite (roundPositive_eq x), (roundPositive_eq y). rewrite E.
    pose proof (pow2_pos (Z.max (binade y) (-1022) - 52)) as Hu.
    apply Qmult_le_compat_r; [|lra].
    rewrite <- Zle_Qle. apply roundHalfEven_mono.
    apply Qle_shift_div_l; [done|].
    setoid_replace (x / pow2 (Z.max (binade y) (-1022) - 52)
                    * pow2 (Z.max (binade y) (-1022) - 52))%Q
      with x using relation Qeq; [done|].
    field. intros H0. rewrite H0 in Hu. by apply Qlt_irrefl in Hu.
Qed.

Lemma roundDouble_0 : roundDouble 0 = 0%Q.
Proof. reflexivity. Qed.

Lemma roundDouble_nonneg x : (0 <= x)%Q -> (0 <= roundDouble x)%Q.
Proof.
  intros Hx. unfold roundDouble.
  destruct (Qcompare_spec x 0) as [H|H|H]; [lra|lra|].
  by apply roundPositive_nonneg.
Qed.

Lemma roundDouble_nonpos x : (x <= 0)%Q -> (roundDouble x <= 0)%Q.
Proof.
  intros Hx. unfold roundDouble.
  destruct (Qcompare_spec x 0) as [H|H|H]; [lra| |lra].
  pose proof (roundPositive_nonneg (- x) ltac:(lra)). lra.
Qed.

Lemma roundDouble_mono x y : (x <= y)%Q -> (roundDouble x <= roundDouble y)%Q.
Proof.
  intros Hxy.
  destruct (Qlt_le_dec 0 x) as [Hx|Hx].
  - unfold roundDouble.
    destruct (Qcompare_spec x 0) as [H|H|H]; [lra|lra|].
    destruct (Qcompare_spec y 0) as [H'|H'|H']; [lra|lra|].
    by apply roundPositive_mono.
  - destruct (Qlt_le_dec y 0) as [Hy|Hy].
    + unfold roundDouble.
      destruct (Qcompare_spec x 0) as [H|H|H]; [lra| |lra].
      destruct (Qcompare_spec y 0) as [H'|H'|H']; [lra| |lra].
      pose proof (roundPositive_mono (- y) (- x) ltac:(lra) ltac:(lra)). lra.
    + pose proof (roundDouble_nonpos x Hx). pose proof (roundDouble_nonneg y Hy).
      lra.
Qed.

Lemma roundDouble_comp x y : (x == y)%Q -> (roundDouble x == roundDouble y)%Q.
Proof.
  intros H. apply Qle_antisym; apply roundDouble_mono; lra.
Qed.

(** Integers below [2^53] are doubles. *)
Lemma roundDouble_Z n :
  Z.abs n < 2 ^ 53 -> (roundDouble (inject_Z n) == inject_Z n)%Q.
Proof.
  assert (Hpos : forall m, 0 < m < 2 ^ 53 ->
                   (roundPositive (inject_Z m) == inject_Z m)%Q).
  { intros m [Hm1 Hm2].
    assert (Hx : (0 < inject_Z m)%Q).
    { change 0%Q with (inject_Z 0). by rewrite <- Zlt_Qlt. }
    destruct (binade_spec _ Hx) as [H1 H2].
    set (e := binade (inject_Z m)) in *.
    assert (He1 : e < 53).
    { apply pow2_lt_inv. apply Qle_lt_trans with (inject_Z m); [done|].
      rewrite <- pow2_inject by lia. by rewrite <- Zlt_Qlt. }
    assert (He0 : 0 <= e).
    { assert (0 < e + 1); [|lia]. apply pow2_lt_inv.
      apply Qle_lt_trans with (inject_Z m); [|done].
      change (pow2 0) with (inject_Z 1). rewrite <- Zle_Qle. lia. }
    rewrite roundPositive_eq. fold e. rewrite Z.max_l by lia.
    pose proof (pow2_pos (e - 52)) as Hu.
    assert (Hs : (inject_Z m / pow2 (e - 52) == inject_Z (m * 2 ^ (52 - e)))%Q).
    { rewrite inject_Z_mult, pow2_inject by lia.
      apply Qeq_sym.
      assert (Hp : (pow2 (52 - e) * pow2 (e - 52) == 1)%Q).
      { rewrite <- pow2_plus. by replace (52 - e + (e - 52)) with 0 by lia. }
      apply (Qmult_inj_r _ _ (pow2 (e - 52))).
      { intros H0. rewrite H0 in Hu. by apply Qlt_irrefl in Hu. }
      rewrite <- Qmult_assoc, Hp. field.
      intros H0. rewrite H0 in Hu. by apply Qlt_irrefl in Hu. }
    assert (Hr : roundHalfEven (inject_Z m / pow2 (e - 52)) = m * 2 ^ (52 - e)).
    { apply Z.le_antisymm.
      - apply roundHalfEven_le. rewrite Hs. apply Qle_refl.
      - apply roundHalfEven_ge. rewrite Hs. apply Qle_refl. }
    rewrite Hr, <- Hs. field.
    intros H0. rewrite H0 in Hu. by apply Qlt_irrefl in Hu. }
  intros Hn. unfold roundDouble.
  destruct (Qcompare_spec (inject_Z n) 0) as [H|H|H].
  - by rewrite H.
  - change 0%Q with (inject_Z 0) in H. rewrite <- Zlt_Qlt in H.
    rewrite <- inject_Z_opp. rewrite (Hpos (- n)) by lia.
    rewrite inject_Z_opp. ring.
  - change 0%Q with (inject_Z 0) in H. rewrite <- Zlt_Qlt in H.
    apply Hpos. lia.
Qed.

Lemma fmul_mono_l a b c : (0 <= c)%Q -> (a <= b)%Q -> (fmul a c <= fmul b c)%Q.
Proof.
  intros Hc Hab. apply roundDouble_mono. by apply Qmult_le_compat_r.
Qed.

Lemma fmul_mono_r a b c : (0 <= c)%Q -> (a <= b)%Q -> (fmul c a <= fmul c b)%Q.
Proof.
  intros Hc Hab. apply roundDouble_mono. rewrite !(Qmult_comm c).
  by apply Qmult_le_compat_r.
Qed.

(* ===================================================================== *)
(** ** Deduplication *)
(* ===================================================================== *)

Section DedupFacts.

Variable toLowerCase : jsstring -> jsstring.

Lemma albumKey_Some item id : albumKey item = Some id -> id = _id item.
Proof. unfold albumKey. case_bool_decide; congruence. Qed.

Lemma dedupeAlbums_spec arr : forall seen kept seen',
  dedupeAlbums seen arr = (kept, seen') ->
  NoDup (map _id kept)
  /\ (forall a, a ∈ kept -> (_id a ∉ seen) /\ (a ∈ arr))
  /\ seen' = seen ∪ list_to_set (map _id kept).
Proof.
  induction arr as [|item rest IH]; intros seen kept seen' Hd; simpl in Hd.
  - inversion Hd; subst. split; [constructor|]. split; [|set_solver].
    intros a Ha. inversion Ha.
  - destruct (albumKey item) as [id|] eqn:Hk.
    + apply albumKey_Some in Hk. subst id.
      case_bool_decide as Hin.
      * destruct (IH _ _ _ Hd) as (Hnd & Hk & Hs).
        split; [done|]. split; [|done].
        intros a Ha. destruct (Hk a Ha). split; [done|]. by right.
      * destruct (dedupeAlbums ({[_id item]} ∪ seen) rest) as [kept0 seen0] eqn:Hrec.
        inversion Hd; subst. destruct (IH _ _ _ Hrec) as (Hnd & Hk & Hs).
        split; [|split].
        -- simpl. constructor; [|done].
           intros Hi. apply list_elem_of_fmap in Hi as (a & Heq & Ha).
           destruct (Hk a Ha) as [Hn _]. apply Hn. rewrite Heq. set_solver.
        -- intros a Ha. apply elem_of_cons in Ha as [->|Ha].
           ++ split; [done|by left].
           ++ destruct (Hk a Ha) as [Hn Hr]. split; [set_solver|by right].
        -- rewrite Hs. simpl. set_solver.
    + destruct (IH _ _ _ Hd) as (Hnd & Hk' & Hs).
      split; [done|]. split; [|done].
      intros a Ha. destruct (Hk' a Ha). split; [done|]. by right.
Qed.

Lemma dedupeSongs_spec arr : forall seen kept seen',
  dedupeSongs toLowerCase seen arr = (kept, seen') ->
  NoDup (map (songKey toLowerCase) kept)
  /\ (forall s, s ∈ kept -> songKey toLowerCase s ∉ seen).
Proof.
  induction arr as [|song rest IH]; intros seen kept seen' Hd; simpl in Hd.
  - inversion Hd; subst. split; [constructor|]. intros s Hs. inversion Hs.
  - case_bool_decide as Hin.
    + exact (IH _ _ _ Hd).
    + destruct (dedupeSongs toLowerCase ({[songKey toLowerCase song]} ∪ seen) rest)
        as [kept0 seen0] eqn:Hrec.
      inversion Hd; subst. destruct (IH _ _ _ Hrec) as (Hnd & Hk).
      split.
      * simpl. constructor; [|done].
        intros Hi. apply list_elem_of_fmap in Hi as (s & Heq & Hs).
        apply (Hk s Hs). rewrite <- Heq. set_solver.
      * intros s Hs. apply elem_of_cons in Hs as [->|Hs]; [done|].
        specialize (Hk s Hs). set_solver.
Qed.

(** After [removeDuplicates] no album id occurs twice over the four album
    lists, and no song key occurs twice in the song list. *)
Lemma removeDuplicates_NoDup recs :
  NoDup (albumIdsOf (removeDuplicates toLowerCase recs))
  /\ NoDup (map (songKey toLowerCase)
              (similarToLikedSongs (removeDuplicates toLowerCase recs))).
Proof.
  unfold removeDuplicates, albumIdsOf.
  destruct (dedupeAlbums ∅ (basedOnArtists recs)) as [la s1] eqn:H1.
  destruct (dedupeAlbums s1 (basedOnGenres recs)) as [lg s2] eqn:H2.
  destruct (dedupeAlbums s2 (favoriteAlbums recs)) as [lf s3] eqn:H3.
  destruct (dedupeSongs toLowerCase ∅ (similarToLikedSongs recs)) as [ls s4] eqn:H4.
  simpl.
  destruct (dedupeAlbums_spec _ _ _ _ H1) as (N1 & K1 & E1).
  destruct (dedupeAlbums_spec _ _ _ _ H2) as (N2 & K2 & E2).
  destruct (dedupeAlbums_spec _ _ _ _ H3) as (N3 & K3 & E3).
  destruct (dedupeSongs_spec _ _ _ _ H4) as (N4 & _).
  split; [|done].
  assert (D12 : forall a, a ∈ lg -> _id a ∉ map _id la).
  { intros a Ha Hi. destruct (K2 a Ha) as [Hn _]. apply Hn. rewrite E1.
    apply elem_of_union_r, elem_of_list_to_set. done. }
  assert (D3 : forall a, a ∈ lf -> (_id a ∉ map _id la) /\ (_id a ∉ map _id lg)).
  { intros a Ha. destruct (K3 a Ha) as [Hn _]. rewrite E2, E1 in Hn.
    split; intros Hi; apply Hn; set_solver. }
  set (ll := match basedOnListenedAlbums recs with
             | Some listened => Some (dedupeAlbums s3 listened).1
             | None => None
             end).
  assert (HL : NoDup (map _id (default [] ll))
               /\ forall a, a ∈ default [] ll ->
                    (_id a ∉ map _id la) /\ (_id a ∉ map _id lg) /\ (_id a ∉ map _id lf)).
  { subst ll. destruct (basedOnListenedAlbums recs) as [listened|]; simpl.
    - destruct (dedupeAlbums s3 listened) as [l4 s5] eqn:H5. simpl.
      destruct (dedupeAlbums_spec _ _ _ _ H5) as (N5 & K5 & _).
      split; [done|]. intros a Ha. destruct (K5 a Ha) as [Hn _].
      rewrite E3, E2, E1 in Hn. repeat split; intros Hi; apply Hn; set_solver.
    - split; [constructor|]. intros a Ha. inversion Ha. }
  destruct HL as [N5 K5].
  apply NoDup_app. split; [done|]. split.
  - intros x Hx Hy.
    apply elem_of_app in Hy as [Hy|Hy].
    + apply list_elem_of_fmap in Hy as (a & -> & Ha). by apply (D12 a Ha).
    + apply elem_of_app in Hy as [Hy|Hy];
        apply list_elem_of_fmap in Hy as (a & -> & Ha).
      * destruct (D3 a Ha) as [? ?]; tauto.
      * destruct (K5 a Ha) as (? & ? & ?); tauto.
  - apply NoDup_app. split; [done|]. split.
    + intros x Hx Hy.
      apply elem_of_app in Hy as [Hy|Hy];
        apply list_elem_of_fmap in Hy as (a & -> & Ha).
      * destruct (D3 a Ha) as [? ?]; tauto.
      * destruct (K5 a Ha) as (? & ? & ?); tauto.
    + apply NoDup_app. split; [done|]. split; [|done].
      intros x Hx Hy. apply list_elem_of_fmap in Hy as (a & -> & Ha).
      destruct (K5 a Ha) as (? & ? & ?); tauto.
Qed.

End DedupFacts.

(* ===================================================================== *)
(** ** [generateRecommendations] *)
(* ===================================================================== *)

Lemma bindT_inr {A B} (m : throws A) (k : A -> throws B) b :
  bindT m k = inr b -> exists a, m = inr a /\ k a = inr b.
Proof. destruct m as [e|a]; simpl; [discriminate|eauto]. Qed.


Lemma mapT_total {A B} (f : A -> throws B) l :
  (forall x, exists y, f x = inr y) -> exists l', mapT f l = inr l'.
Proof.
  intros Hf. induction l as [|x r [ys IH]]; simpl; [by eexists|].
  destruct (Hf x) as [y Hy]. rewrite Hy, IH. simpl. by eexists.
Qed.

Section ServiceFacts.

Variable cdnUrl : option string.
Variable encodeURI : string -> string.
Variable normalizeNFD : jsstring -> jsstring.
Variable toLowerCase : jsstring -> jsstring.
Variable localeCompare : jsstring -> jsstring -> Q.
Variable isValidObjectId : option string -> bool.
Variable verifyToken : string -> throws string.

Let generate :=
  generateRecommendations cdnUrl encodeURI normalizeNFD toLowerCase localeCompare
    isValidObjectId.

(** What a call that returns has done: it has answered from the cache, or
    it has found a user with some history and deduplicated the five
    lists it computed. *)
Lemma generateRecommendations_inv cache oracle db now userId weights forceRefresh r :
  generate cache oracle db now userId weights forceRefresh = inr r ->
  (forceRefresh = false /\ cachedRecommendations cache = Some r)
  \/ ((if forceRefresh then None else cachedRecommendations cache) = None
      /\ exists user a g f s l,
          userRead cache db userId = Some user
          /\ getListenedAlbumsRecommendations cdnUrl encodeURI normalizeNFD
               isValidObjectId (cachedListenedRecs cache) (cachedPopularity cache) db
               (randomListened oracle)
               (applyRecencyWeighting now user (recency (mergeWeights weights)))
               (w_listenedAlbums (mergeWeights weights))
               (popularity (mergeWeights weights)) = inr l
          /\ r = removeDuplicates toLowerCase
                   {| basedOnArtists := a; basedOnGenres := g;
                      favoriteAlbums := f; similarToLikedSongs := s;
                      basedOnListenedAlbums := l |}).
Proof.
  unfold generate, generateRecommendations. fold (userRead cache db userId).
  destruct (if forceRefresh then None else cachedRecommendations cache)
    as [c|] eqn:Hc.
  - intros H. inversion H; subst. left.
    destruct forceRefresh; [discriminate|]. done.
  - intros H. right. split; [done|].
    destruct (userRead cache db userId) as [user|]; [|discriminate].
    destruct (_ && _); [discriminate|].
    apply bindT_inr in H as (f & _ & H).
    apply bindT_inr in H as (a & _ & H).
    apply bindT_inr in H as (g & _ & H).
    apply bindT_inr in H as (s & _ & H).
    apply bindT_inr in H as (l & Hl & H).
    inversion H. exists user, a, g, (filterAlreadyListened f user), s, l.
    done.
Qed.

Lemma formatCoverUrl_total url c :
  cdnUrl = Some url -> url <> "" ->
  exists s, formatCoverUrl cdnUrl encodeURI c = inr s.
Proof.
  intros -> Hu. unfold formatCoverUrl.
  case_bool_decide; [by eexists|].
  destruct (_ && _); [|by eexists].
  rewrite bool_decide_eq_false_2 by done. by eexists.
Qed.

Lemma formatAlbum_total url a :
  cdnUrl = Some url -> url <> "" ->
  exists b, formatAlbum cdnUrl encodeURI normalizeNFD a = inr b.
Proof.
  intros Hc Hu. unfold formatAlbum.
  destruct (formatCoverUrl_total url (cover a) Hc Hu) as [s ->]. by eexists.
Qed.

Lemma formatFavorite_total url a :
  cdnUrl = Some url -> url <> "" ->
  exists b, formatFavorite cdnUrl encodeURI normalizeNFD a = inr b.
Proof.
  intros Hc Hu. unfold formatFavorite.
  destruct (formatCoverUrl_total url (cover a) Hc Hu) as [s ->]. by eexists.
Qed.

Lemma formatSong_total url a :
  cdnUrl = Some url -> url <> "" ->
  exists b, formatSong cdnUrl encodeURI normalizeNFD a = inr b.
Proof.
  intros Hc Hu. unfold formatSong.
  destruct (formatCoverUrl_total url (si_albumCover a) Hc Hu) as [s ->].
  by eexists.
Qed.

(** With [CDN_URL] set, a call that finds a user with some history
    returns a result. *)
Lemma generateRecommendations_total url cache oracle db now userId weights
  forceRefresh user :
  cdnUrl = Some url -> url <> "" ->
  userRead cache db userId = Some user ->
  ~ (listenedAlbums user = [] /\ listenedSongs user = []) ->
  exists r, generate cache oracle db now userId weights forceRefresh = inr r.
Proof.
  intros Hc Hu Hr Hh.
  unfold generate, generateRecommendations. fold (userRead cache db userId).
  destruct (if forceRefresh then None else cachedRecommendations cache);
    [by eexists|].
  rewrite Hr.
  assert (Hb : bool_decide (length (listenedAlbums user) = 0%nat)
               && bool_decide (length (listenedSongs user) = 0%nat) = false).
  { apply andb_false_iff.
    destruct (listenedAlbums user), (listenedSongs user);
      try (left; reflexivity); try (right; reflexivity).
    exfalso. by apply Hh. }
  rewrite Hb. clear Hb.
  assert (Hf : exists f, getFavoriteAlbums cdnUrl encodeURI normalizeNFD localeCompare
                 (cachedFavoriteRecs cache) db (sample oracle) userId = inr f).
  { unfold getFavoriteAlbums. destruct (cachedFavoriteRecs cache); [by eexists|].
    destruct (bool_decide (map fav_albumId _ = [])); [by eexists|].
    destruct (bool_decide (fold_left _ _ _ = [])); [by eexists|].
    match goal with |- context [mapT ?f ?l] =>
      destruct (mapT_total f l) as [l' ->] end;
      [intros x; by apply (formatFavorite_total url)|].
    by eexists. }
  destruct Hf as [f ->]. simpl.
  match goal with |- context [getArtistBasedRecommendations ?a ?b ?c ?d ?e ?f ?g ?h ?i ?j] =>
    assert (Ha : exists r, getArtistBasedRecommendations a b c d e f g h i j = inr r) end.
  { unfold getArtistBasedRecommendations. destruct (bool_decide (_ = [])); [by eexists|].
    destruct (cachedArtistRecs cache); [by eexists|].
    apply mapT_total. intros x. by apply (formatAlbum_total url). }
  destruct Ha as [a ->]. simpl.
  match goal with |- context [getGenreBasedRecommendations ?a ?b ?c ?d ?e ?f ?g ?h ?i ?j] =>
    assert (Hg : exists r, getGenreBasedRecommendations a b c d e f g h i j = inr r) end.
  { unfold getGenreBasedRecommendations. destruct (bool_decide (_ = [])); [by eexists|].
    destruct (cachedGenreRecs cache); [by eexists|].
    apply mapT_total. intros x. by apply (formatAlbum_total url). }
  destruct Hg as [g ->]. simpl.
  match goal with |- context [getSongBasedRecommendations ?a ?b ?c ?d ?e ?f ?g ?h ?i] =>
    assert (Hs : exists r, getSongBasedRecommendations a b c d e f g h i = inr r) end.
  { unfold getSongBasedRecommendations. destruct (bool_decide (_ = [])); [by eexists|].
    destruct (cachedSongRecs cache); [by eexists|].
    apply mapT_total. intros x. by apply (formatSong_total url). }
  destruct Hs as [s ->]. simpl.
  match goal with |- context [getListenedAlbumsRecommendations ?a ?b ?c ?d ?e ?f ?g ?h ?i ?j ?k] =>
    assert (Hl : exists r, getListenedAlbumsRecommendations a b c d e f g h i j k = inr r) end.
  { unfold getListenedAlbumsRecommendations. destruct (bool_decide (_ = [])); [by eexists|].
    destruct (cachedListenedRecs cache); [by eexists|].
    match goal with |- context [mapT ?f ?l] =>
      destruct (mapT_total f l) as [l' ->] end;
      [intros x; by apply (formatAlbum_total url)|].
    by eexists. }
  destruct Hl as [l ->]. simpl. by eexists.
Qed.

End ServiceFacts.

Section RecommendationTheorems.

Variable cdnUrl : option string.
Variable encodeURI : string -> string.
Variable normalizeNFD : jsstring -> jsstring.
Variable toLowerCase : jsstring -> jsstring.
Variable localeCompare : jsstring -> jsstring -> Q.
Variable isValidObjectId : option string -> bool.
Variable verifyToken : string -> throws string.

Let generate :=
  generateRecommendations cdnUrl encodeURI normalizeNFD toLowerCase localeCompare
    isValidObjectId.

(** C1. Every result returned by [generateRecommendations], computed by
    the call or served from the recommendation cache, has no album id
    twice over basedOnArtists, basedOnGenres, favoriteAlbums and
    basedOnListenedAlbums taken together (so none in more than one of
    them), and no lowercased and trimmed song title twice in
    similarToLikedSongs. *)
Theorem returned_results_are_deduplicated r :
  Returned cdnUrl encodeURI normalizeNFD toLowerCase localeCompare isValidObjectId r ->
  NoDup (albumIdsOf r)
  /\ NoDup (map (fun song => trim (toLowerCase (si_title song)))
              (similarToLikedSongs r)).
Proof.
  induction 1 as [cache oracle db now userId weights forceRefresh r Hcache IH Hgen].
  apply generateRecommendations_inv in Hgen as [[_ Hc]|[_ Hfresh]].
  - exact (IH r Hc).
  - destruct Hfresh as (user & a & g & f & s & l & _ & _ & ->).
    apply removeDuplicates_NoDup.
Qed.

(** C3. When no recommendation set is served from the cache and the user
    document has no listened song and no listened album,
    [generateRecommendations] throws "No listening history available for
    recommendations", which the controller answers with status 404. *)
Theorem empty_history_is_rejected cache oracle db now userId weights
  (forceRefresh : bool) user :
  (if forceRefresh then None else cachedRecommendations cache) = None ->
  userRead cache db userId = Some user ->
  listenedSongs user = [] ->
  listenedAlbums user = [] ->
  generate cache oracle db now userId weights forceRefresh
  = throw "No listening history available for recommendations"
  /\ forall token,
       verifyToken token = inr userId ->
       cachedRecommendations cache = None ->
       getPersonalizedRecommendations cdnUrl encodeURI normalizeNFD toLowerCase
         localeCompare isValidObjectId verifyToken cache oracle db now (Some token)
       = {| status := 404;
            body := BodyError "No listening history available for recommendations" |}.
Proof.
  intros Hfresh Hu Hs Ha.
  assert (Hthrow : forall w (fr : bool),
             (if fr then None else cachedRecommendations cache) = None ->
             generate cache oracle db now userId w fr
             = throw "No listening history available for recommendations").
  { intros w fr Hf. unfold generate, generateRecommendations.
    fold (userRead cache db userId). rewrite Hf, Hu, Hs, Ha. reflexivity. }
  split; [by apply Hthrow|].
  intros token Htok Hc. unfold getPersonalizedRecommendations.
  rewrite Htok. simpl bindT.
  fold generate. rewrite (Hthrow None false Hc). reflexivity.
Qed.

(** C10. When no recommendation set is served from the cache and the
    user document has listened songs but an empty listened-albums list,
    every result that [generateRecommendations] returns has
    basedOnListenedAlbums undefined; and with [CDN_URL] set the call does
    return such a result. *)
Theorem songs_only_user_gets_no_listened_albums_field cache oracle db now
  userId weights (forceRefresh : bool) user :
  (if forceRefresh then None else cachedRecommendations cache) = None ->
  userRead cache db userId = Some user ->
  listenedSongs user <> [] ->
  listenedAlbums user = [] ->
  (forall r, generate cache oracle db now userId weights forceRefresh = inr r ->
             basedOnListenedAlbums r = None)
  /\ (forall url, cdnUrl = Some url -> url <> "" ->
        exists r, generate cache oracle db now userId weights forceRefresh = inr r
                  /\ basedOnListenedAlbums r = None).
Proof.
  intros Hfresh Hu Hs Ha.
  assert (Hnone : forall r,
             generate cache oracle db now userId weights forceRefresh = inr r ->
             basedOnListenedAlbums r = None).
  { intros r Hgen.
    apply generateRecommendations_inv in Hgen as [[Hf Hc]|[_ Hcomp]].
    - subst forceRefresh. congruence.
    - destruct Hcomp as (user' & a & g & f & s & l & Hu' & Hl & ->).
      assert (user' = user) by congruence. subst user'.
      unfold getListenedAlbumsRecommendations in Hl. simpl in Hl.
      rewrite Ha in Hl. simpl in Hl. inversion Hl; subst l.
      unfold removeDuplicates.
      repeat match goal with |- context [let '(_, _) := ?p in _] => destruct p end.
      reflexivity. }
  split; [exact Hnone|].
  intros url Hc Hne.
  destruct (generateRecommendations_total cdnUrl encodeURI normalizeNFD
              toLowerCase localeCompare isValidObjectId url cache oracle db now userId weights
              forceRefresh user Hc Hne Hu) as [r Hr].
  - intros [_ Hs']. by apply Hs.
  - exists r. split; [exact Hr|]. by apply Hnone.
Qed.

End RecommendationTheorems.

Lemma returned_results_are_deduplicated_witness :
  NoDup (albumIdsOf resultBoth)
  /\ NoDup (map (fun song => trim (asciiToLowerCase (si_title song)))
              (similarToLikedSongs resultBoth)).
Proof.
  apply (returned_results_are_deduplicated testCdn asciiEncodeURI sampleNFD
           asciiToLowerCase codeUnitCompare noObjectIds resultBoth).
  apply (returned_by_call _ _ _ _ _ _ noCacheReads constantOracle testDb NOW "u2"
           None false).
  - intros c Hc. discriminate Hc.
  - vm_compute. reflexivity.
Defined.

Lemma empty_history_is_rejected_witness :
  generateRecommendations testCdn asciiEncodeURI sampleNFD asciiToLowerCase
    codeUnitCompare noObjectIds noCacheReads constantOracle testDb NOW "u0" None false
  = throw "No listening history available for recommendations"
  /\ forall token,
       acceptToken token = inr "u0" ->
       cachedRecommendations noCacheReads = None ->
       getPersonalizedRecommendations testCdn asciiEncodeURI sampleNFD asciiToLowerCase
         codeUnitCompare noObjectIds acceptToken noCacheReads constantOracle
         testDb NOW (Some token)
       = {| status := 404;
            body := BodyError "No listening history available for recommendations" |}.
Proof.
  apply (empty_history_is_rejected testCdn asciiEncodeURI sampleNFD asciiToLowerCase
           codeUnitCompare noObjectIds acceptToken noCacheReads constantOracle
           testDb NOW "u0" None false userNoHistory);
    reflexivity.
Defined.

Lemma songs_only_user_gets_no_listened_albums_field_witness :
  (forall r, generateTest "u1" = inr r -> basedOnListenedAlbums r = None)
  /\ (forall url, testCdn = Some url -> url <> "" ->
        exists r, generateTest "u1" = inr r /\ basedOnListenedAlbums r = None).
Proof.
  apply (songs_only_user_gets_no_listened_albums_field testCdn asciiEncodeURI sampleNFD
           asciiToLowerCase codeUnitCompare noObjectIds noCacheReads constantOracle
           testDb NOW "u1" None false userSongsOnly).
  - reflexivity.
  - reflexivity.
  - discriminate.
  - reflexivity.
Defined.

(* ===================================================================== *)
(** ** The favorite-albums fallback *)
(* ===================================================================== *)

Lemma filter_all_false {A} (f : A -> bool) l :
  (forall x, x ∈ l -> f x = false) -> List.filter f l = [].
Proof.
  induction l as [|x l IH]; intros H; simpl; [done|].
  rewrite (H x) by (by left). apply IH. intros y Hy. apply H. by right.
Qed.

Lemma slice0_nonneg {A} n (l : list A) : 0 <= n -> slice0 n l = take (Z.to_nat n) l.
Proof. intros H. unfold slice0. destruct (n <? 0) eqn:E; [lia|done]. Qed.

Lemma removeDuplicates_favorites toLowerCase r a :
  a ∈ favoriteAlbums (removeDuplicates toLowerCase r) ->
  a ∈ favoriteAlbums r
  /\ (_id a ∉ map _id (basedOnArtists (removeDuplicates toLowerCase r)))
  /\ (_id a ∉ map _id (basedOnGenres (removeDuplicates toLowerCase r))).
Proof.
  unfold removeDuplicates.
  destruct (dedupeAlbums ∅ (basedOnArtists r)) as [la s1] eqn:H1.
  destruct (dedupeAlbums s1 (basedOnGenres r)) as [lg s2] eqn:H2.
  destruct (dedupeAlbums s2 (favoriteAlbums r)) as [lf s3] eqn:H3.
  destruct (dedupeSongs toLowerCase ∅ (similarToLikedSongs r)) as [ls s4].
  simpl. intros Ha.
  destruct (dedupeAlbums_spec _ _ _ _ H1) as (_ & _ & E1).
  destruct (dedupeAlbums_spec _ _ _ _ H2) as (_ & _ & E2).
  destruct (dedupeAlbums_spec _ _ _ _ H3) as (_ & K3 & _).
  destruct (K3 a Ha) as [Hn Hin]. rewrite E2, E1 in Hn.
  split; [done|]. split; intros Hi; apply Hn; set_solver.
Qed.

(** C8, as the code has it. The fallback to the first three entries belongs
    to [filterAlreadyListened]: when every favorite-album candidate has
    already been listened to, the non-empty candidate list is cut to its
    first three entries instead of being emptied. The dedup pass has no
    fallback: favorite albums whose ids were all kept in basedOnArtists or
    basedOnGenres leave favoriteAlbums empty. *)
Theorem favorite_fallback_is_in_listened_filter toLowerCase recommendations user r :
  recommendations <> [] ->
  (forall a, a ∈ recommendations -> _id a ∈ map la_albumId (listenedAlbums user)) ->
  (forall a, a ∈ favoriteAlbums r ->
     _id a ∈ map _id (basedOnArtists (removeDuplicates toLowerCase r))
             ++ map _id (basedOnGenres (removeDuplicates toLowerCase r))) ->
  filterAlreadyListened recommendations user = take 3 recommendations
  /\ filterAlreadyListened recommendations user <> []
  /\ favoriteAlbums (removeDuplicates toLowerCase r) = [].
Proof.
  intros Hne Hall Hseen.
  assert (Hf : filterAlreadyListened recommendations user = take 3 recommendations).
  { unfold filterAlreadyListened.
    rewrite bool_decide_eq_false_2 by done.
    rewrite filter_all_false.
    - destruct recommendations; [done|]. reflexivity.
    - intros x Hx. apply negb_false_iff, bool_decide_eq_true_2.
      apply elem_of_list_to_set. by apply Hall. }
  split; [exact Hf|]. split.
  - rewrite Hf. destruct recommendations; [done|]. discriminate.
  - destruct (favoriteAlbums (removeDuplicates toLowerCase r)) as [|a l] eqn:E; [done|].
    exfalso.
    destruct (removeDuplicates_favorites toLowerCase r a) as (Hin & Ha & Hg).
    { rewrite E. by left. }
    specialize (Hseen a Hin). apply elem_of_app in Hseen as [?|?]; tauto.
Qed.

Lemma favorite_fallback_is_in_listened_filter_witness :
  filterAlreadyListened [albumA] userBoth = take 3 [albumA]
  /\ filterAlreadyListened [albumA] userBoth <> []
  /\ favoriteAlbums (removeDuplicates asciiToLowerCase sharedFavorite) = [].
Proof.
  apply (favorite_fallback_is_in_listened_filter asciiToLowerCase [albumA] userBoth
           sharedFavorite).
  - discriminate.
  - intros a Ha. apply list_elem_of_singleton in Ha. subst a.
    vm_compute. by left.
  - intros a Ha. apply list_elem_of_singleton in Ha. subst a.
    vm_compute. by left.
Defined.

(** C8 as stated fails: deduplication empties a non-empty favoriteAlbums
    list and the result is the empty list, not the first pre-dedup entries;
    the same happens in a whole call of [generateRecommendations]. *)
Lemma dedup_has_no_favorite_fallback :
  favoriteAlbums sharedFavorite <> []
  /\ favoriteAlbums (removeDuplicates asciiToLowerCase sharedFavorite) = []
  /\ favoriteAlbums (removeDuplicates asciiToLowerCase sharedFavorite)
     <> slice0 3 (favoriteAlbums sharedFavorite)
  /\ exists favs r,
       getFavoriteAlbums testCdn asciiEncodeURI sampleNFD codeUnitCompare None testDb
         (sample constantOracle) "u2" = inr favs
       /\ filterAlreadyListened favs userBoth <> []
       /\ generateTest "u2" = inr r
       /\ favoriteAlbums r = [].
Proof.
  split; [discriminate|]. split; [vm_compute; reflexivity|].
  split; [vm_compute; discriminate|].
  eexists _, _. split; [vm_compute; reflexivity|].
  split; [vm_compute; discriminate|].
  split; vm_compute; reflexivity.
Qed.

(* ===================================================================== *)
(** ** Sorting and the category caps *)
(* ===================================================================== *)

Section SortFacts.

Context {A : Type} (compareFn : A -> A -> Q).

Lemma insertBy_Permutation x l : Permutation (insertBy compareFn x l) (x :: l).
Proof.
  induction l as [|y l IH]; simpl; [done|].
  destruct (Qle_bool (compareFn x y) 0); [done|].
  rewrite IH. apply perm_swap.
Qed.

Lemma sort_Permutation l : Permutation (JS.sort compareFn l) l.
Proof.
  induction l as [|x l IH]; simpl; [done|].
  rewrite insertBy_Permutation. by constructor.
Qed.

(** A relation that the comparator decides: [x] may stand before [y] when
    [compareFn x y <= 0], and [y] before [x] otherwise. *)
Context (R : A -> A -> Prop).
Hypothesis R_trans : forall x y z, R x y -> R y z -> R x z.
Hypothesis R_le : forall x y, Qle_bool (compareFn x y) 0 = true -> R x y.
Hypothesis R_gt : forall x y, Qle_bool (compareFn x y) 0 = false -> R y x.

Lemma insertBy_sorted x l :
  StronglySorted R l -> StronglySorted R (insertBy compareFn x l).
Proof.
  induction 1 as [|y l Hs IH Hall]; simpl.
  - constructor; constructor.
  - destruct (Qle_bool (compareFn x y) 0) eqn:E.
    + constructor; [by constructor|].
      constructor; [by apply R_le|].
      eapply Forall_impl; [exact Hall|]. intros z Hz.
      eapply R_trans; [by apply R_le|done].
    + constructor; [done|].
      rewrite insertBy_Permutation. constructor; [by apply R_gt|done].
Qed.

Lemma sort_sorted l : StronglySorted R (JS.sort compareFn l).
Proof.
  induction l as [|x l IH]; simpl; [constructor|]. by apply insertBy_sorted.
Qed.

End SortFacts.

Lemma slice0_length_le {A} n (l : list A) :
  0 <= n -> Z.of_nat (length (slice0 n l)) <= n.
Proof. intros H. rewrite slice0_nonneg by done. rewrite length_take. lia. Qed.

Lemma slice0_elem {A} n (l : list A) x : x ∈ slice0 n l -> x ∈ l.
Proof.
  unfold slice0. destruct (n <? 0); intros H;
    apply list_elem_of_lookup in H as [i Hi];
    apply lookup_take_Some in Hi as [Hi _];
    apply list_elem_of_lookup; by exists i.
Qed.




(** The copies that [applyRecencyWeighting] makes carry no album id, so
    the listened-album-based category queries no album and finds no
    candidate. *)
Lemma weighted_albums_have_no_id now user recencyWeight :
  Forall (fun copy => wd_albumId copy = None)
    (wu_listenedAlbums (applyRecencyWeighting now user recencyWeight)).
Proof.
  unfold applyRecencyWeighting. cbn [wu_listenedAlbums].
  apply Forall_fmap, Forall_true. intros album. unfold compose, weightAlbum.
  by destruct (la_listenHistory album).
Qed.

Lemma topListenedIds_undefined isValidObjectId user :
  Forall (fun copy => wd_albumId copy = None) (wu_listenedAlbums user) ->
  Forall (fun id => id = None) (topListenedIds isValidObjectId user).
Proof.
  intros H. unfold topListenedIds.
  apply List.Forall_forall. intros id Hid.
  apply filter_In in Hid as [Hid _]. apply in_map_iff in Hid as (copy & <- & Hc).
  apply list_elem_of_In, slice0_elem in Hc. rewrite sort_Permutation in Hc.
  rewrite Forall_forall in H. by apply H.
Qed.

Lemma hasCommon_nil {K} `{EqDecision K} (xs : list K) : hasCommon xs [] = false.
Proof.
  unfold hasCommon. induction xs as [|x xs IH]; [done|]. cbn [existsb].
  rewrite IH. by rewrite bool_decide_eq_false_2 by apply not_elem_of_nil.
Qed.

Lemma listenedCandidates_empty isValidObjectId cachedPopularity db random user pw :
  Forall (fun copy => wd_albumId copy = None) (wu_listenedAlbums user) ->
  listenedCandidates isValidObjectId cachedPopularity db random user pw = [].
Proof.
  intros H. apply (topListenedIds_undefined isValidObjectId) in H.
  unfold listenedCandidates.
  assert (Hno : forall a : IAlbum,
             Some (_id a) ∉ topListenedIds isValidObjectId user).
  { intros a Hin. rewrite Forall_forall in H. by specialize (H _ Hin). }
  rewrite (filter_all_false (fun a => bool_decide (Some (_id a) ∈ _))).
  - cbn [fold_left]. rewrite filter_all_false; [done|].
    intros a _. by rewrite !hasCommon_nil.
  - intros a _. by apply bool_decide_eq_false_2.
Qed.

Section CapTheorems.

Variable cdnUrl : option string.
Variable encodeURI : string -> string.
Variable normalizeNFD : jsstring -> jsstring.
Variable isValidObjectId : option string -> bool.






End CapTheorems.



(* ===================================================================== *)
(** ** Recency weighting *)
(* ===================================================================== *)

Lemma foldr_max_init ts : forall t x,
  foldr Z.max (Z.max t x) ts = Z.max x (foldr Z.max t ts).
Proof.
  induction ts as [|y ts IH]; intros t x; simpl; [lia|]. rewrite IH. lia.
Qed.

Lemma fold_left_max_foldr ts : forall t,
  fold_left Z.max ts t = foldr Z.max t ts.
Proof.
  induction ts as [|x ts IH]; intros t; simpl; [done|].
  rewrite IH. apply foldr_max_init.
Qed.





(* ===================================================================== *)
(** ** Title formatting *)
(* ===================================================================== *)

Section KeptUnits.

Variable P : N -> Prop.

Lemma trimStart_Forall s : Forall P s -> Forall P (trimStart s).
Proof.
  induction 1 as [|c s Hc Hs IH]; simpl; [constructor|].
  destruct (isWhiteSpace c); [done|by constructor].
Qed.

Lemma trim_Forall s : Forall P s -> Forall P (trim s).
Proof.
  intros H. unfold trim, trimEnd.
  apply Forall_rev, trimStart_Forall, Forall_rev. by apply trimStart_Forall.
Qed.

Lemma matchSeparator_Forall s r :
  matchSeparator s = Some r -> Forall P s -> Forall P r.
Proof.
  destruct s as [|a [|b [|c s]]]; simpl; try discriminate.
  destruct (_ && _); [|discriminate].
  intros H Hs. inversion H; subst.
  by do 3 (apply Forall_cons_1 in Hs as [_ Hs]).
Qed.

Lemma matchRun_Forall s : forall r,
  matchRun s = Some r -> Forall P s -> Forall P r.
Proof.
  induction s as [|c s IH]; intros r; [discriminate|]. cbn [matchRun].
  destruct (c =? HYPHEN)%N.
  - apply matchSeparator_Forall.
  - destruct (matchRun s) as [rest|] eqn:E.
    + intros H Hs. inversion H; subst. apply IH; [done|].
      by apply Forall_cons_1 in Hs as [_ Hs].
    + apply matchSeparator_Forall.
Qed.

Lemma replacePrefix_Forall s : Forall P s -> Forall P (replacePrefix s).
Proof.
  intros Hs. unfold replacePrefix, matchPrefix.
  destruct s as [|c s]; [done|].
  destruct (c =? HYPHEN)%N; [done|].
  destruct (matchRun s) as [rest|] eqn:E; [|done].
  eapply matchRun_Forall; [exact E|]. by apply Forall_cons_1 in Hs as [_ Hs].
Qed.

End KeptUnits.

Lemma removeCombiningMarks_free s :
  Forall (fun c => isCombiningMark c = false) (removeCombiningMarks s).
Proof.
  unfold removeCombiningMarks. apply List.Forall_forall. intros c Hc.
  apply filter_In in Hc as [_ Hc]. by apply negb_true_iff.
Qed.

Lemma removeCombiningMarks_fixed v :
  Forall (fun c => isCombiningMark c = false) v -> removeCombiningMarks v = v.
Proof.
  unfold removeCombiningMarks. induction 1 as [|c v Hc Hv IH]; [done|].
  simpl. by rewrite Hc, IH.
Qed.

(** C9, as the code has it. Write [once] for the formatted title and
    [stripped] for [once] without a further leading prefix and trimmed
    again; [stripped] has no combining mark of U+0300..U+036F. Whenever
    [stripped] is in normalization form D, a second application of the
    title formatting yields [stripped]: it only strips a further prefix and
    trims again, and the formatting is idempotent on exactly those titles
    whose formatted form has no such prefix and no outer whitespace left.
    This holds for every normalization function. *)
Theorem formatTitle_twice (normalizeNFD : jsstring -> jsstring) t :
  let once := formatTitle normalizeNFD t in
  let stripped := trim (replacePrefix once) in
  normalizeNFD stripped = stripped ->
  Forall (fun c => isCombiningMark c = false) stripped
  /\ formatTitle normalizeNFD once = stripped
  /\ (formatTitle normalizeNFD once = once <-> stripped = once).
Proof.
  intros once stripped Hnfd.
  assert (Hfree : Forall (fun c => isCombiningMark c = false) stripped).
  { apply trim_Forall, replacePrefix_Forall. apply removeCombiningMarks_free. }
  assert (H : formatTitle normalizeNFD once = stripped).
  { unfold formatTitle at 1. fold stripped. rewrite Hnfd.
    by apply removeCombiningMarks_fixed. }
  split; [exact Hfree|]. split; [exact H|by rewrite H].
Qed.

Lemma formatTitle_twice_witness :
  Forall (fun c => isCombiningMark c = false) (codes "Ete")
  /\ formatTitle sampleNFD (formatTitle sampleNFD titleEte) = codes "Ete"
  /\ (formatTitle sampleNFD (formatTitle sampleNFD titleEte)
      = formatTitle sampleNFD titleEte
      <-> codes "Ete" = formatTitle sampleNFD titleEte).
Proof.
  exact (formatTitle_twice sampleNFD titleEte eq_refl).
Defined.

(** C9 as stated fails. The formatting strips one prefix at a time, so
    "A - B - C" becomes "B - C", and "B - C" becomes "C". Removing a
    combining mark can uncover whitespace that the next application trims:
    "x", space, U+0301 becomes "x" and a space, then "x". And removing the
    combining grapheme joiner U+034F, which is in the removed range, can
    leave marks in an order that normalization changes: alef, U+0591,
    U+034F, U+05B0 becomes alef, U+0591, U+05B0, which has no prefix and no
    outer whitespace, and then alef, U+05B0, U+0591. *)
Lemma formatTitle_not_idempotent :
  (formatTitle sampleNFD (codes "A - B - C") = codes "B - C"
   /\ formatTitle sampleNFD (formatTitle sampleNFD (codes "A - B - C")) = codes "C"
   /\ formatTitle sampleNFD (formatTitle sampleNFD (codes "A - B - C"))
      <> formatTitle sampleNFD (codes "A - B - C"))
  /\ (formatTitle sampleNFD titleAccentAfterSpace = [0x78; 0x20]%N
      /\ formatTitle sampleNFD (formatTitle sampleNFD titleAccentAfterSpace)
         = [0x78]%N)
  /\ (formatTitle sampleNFD titleJoiner = [0x5D0; 0x591; 0x5B0]%N
      /\ trim (replacePrefix (formatTitle sampleNFD titleJoiner))
         = formatTitle sampleNFD titleJoiner
      /\ formatTitle sampleNFD (formatTitle sampleNFD titleJoiner)
         = [0x5D0; 0x5B0; 0x591]%N).
Proof.
  split; [split; [reflexivity|split; [reflexivity|discriminate]]|].
  split; [split; reflexivity|]. split; [reflexivity|split; reflexivity].
Qed.

(* ===================================================================== *)
(** ** Percentiles of the wrapped statistics *)
(* ===================================================================== *)

(** The play counts collected for an album are those of its entries over
    all users, in order. *)
Lemma albumPlayCounts_step id (l : list ListenedAlbumStats) : forall m,
  default [] (fold_left pushPlayCount l m !! id)
  = default [] (m !! id)
    ++ map la_playCount
         (List.filter (fun la => bool_decide (la_albumId la = id)) l).
Proof.
  induction l as [|la l IH]; intros m; simpl; [by rewrite app_nil_r|].
  rewrite IH. clear IH. unfold pushPlayCount.
  destruct (decide (la_albumId la = id)) as [E|E].
  - rewrite bool_decide_eq_true_2 by done. rewrite E, lookup_insert_eq. simpl.
    rewrite <- app_assoc. f_equal.
    destruct (m !! id) eqn:Hm; [by rewrite Hm|]. by rewrite lookup_insert_eq.
  - rewrite bool_decide_eq_false_2 by done. rewrite lookup_insert_ne by done.
    destruct (m !! la_albumId la); [done|]. by rewrite lookup_insert_ne.
Qed.

Lemma albumPlayCountsOf_lookup allUsers id :
  default [] (albumPlayCountsOf allUsers !! id)
  = map la_playCount
      (List.filter (fun la => bool_decide (la_albumId la = id))
         (flat_map listenedAlbums allUsers)).
Proof.
  unfold albumPlayCountsOf.
  enough (H : forall m,
             default [] (fold_left
                           (fun m user => fold_left pushPlayCount (listenedAlbums user) m)
                           allUsers m !! id)
             = default [] (m !! id)
               ++ map la_playCount
                    (List.filter (fun la => bool_decide (la_albumId la = id))
                       (flat_map listenedAlbums allUsers))).
  { rewrite H. by rewrite lookup_empty. }
  induction allUsers as [|u us IH]; intros m; simpl; [by rewrite app_nil_r|].
  rewrite IH, albumPlayCounts_step, List.filter_app, map_app.
  by rewrite app_assoc.
Qed.

Lemma percentile_zero_when_alone allUsers currentUser albumMap i la :
  listenedAlbums currentUser !! i = Some la ->
  (length (default [] (albumPlayCountsOf allUsers !! la_albumId la)) <= 1)%nat ->
  exists res,
    calculateListeningPercentiles allUsers currentUser albumMap !! i = Some res
    /\ pr_albumId res = la_albumId la
    /\ percentile res = 0%Q
    /\ pr_artist res = artistsOf albumMap (la_albumId la).
Proof.
  intros Hla Hlen. unfold calculateListeningPercentiles.
  rewrite !list_lookup_fmap, Hla. simpl. eexists. split; [reflexivity|].
  unfold percentileOf. simpl.
  destruct (Z.leb_spec (Z.of_nat (length (default [] (albumPlayCountsOf allUsers
                                                       !! la_albumId la)))) 1);
    [done|lia].
Qed.

(** C5. For an album entry of the user whose population play-count
    distribution has at most one entry, the percentile result computed for
    that entry has percentile 0. *)
Theorem sole_listener_percentile_is_zero allUsers currentUser albumMap i la :
  listenedAlbums currentUser !! i = Some la ->
  (length (default [] (albumPlayCountsOf allUsers !! la_albumId la)) <= 1)%nat ->
  exists res,
    calculateListeningPercentiles allUsers currentUser albumMap !! i = Some res
    /\ pr_albumId res = la_albumId la
    /\ pr_totalListens res = la_playCount la
    /\ percentile res = 0%Q.
Proof.
  intros Hla Hlen. unfold calculateListeningPercentiles.
  rewrite !list_lookup_fmap, Hla. simpl. eexists. split; [reflexivity|].
  unfold percentileOf. simpl.
  destruct (Z.leb_spec (Z.of_nat (length (default [] (albumPlayCountsOf allUsers
                                                       !! la_albumId la)))) 1);
    [done|lia].
Qed.

Lemma sole_listener_percentile_is_zero_witness :
  exists res,
    calculateListeningPercentiles (users zDb) userZ (albumMapOf zDb userZ) !! 0%nat
    = Some res
    /\ pr_albumId res = "album-c"
    /\ pr_totalListens res = 5
    /\ percentile res = 0%Q.
Proof.
  apply (sole_listener_percentile_is_zero (users zDb) userZ (albumMapOf zDb userZ)
           0%nat _ eq_refl).
  vm_compute. lia.
Defined.

Lemma Math_min_nonneg a b : (0 <= a)%Q -> (0 <= b)%Q -> (0 <= Math_min a b)%Q.
Proof. intros Ha Hb. unfold Math_min. by destruct (Qle_bool a b). Qed.

Lemma Math_min_zero_l a b : (a == 0)%Q -> (0 <= b)%Q -> (Math_min a b == 0)%Q.
Proof.
  intros Ha Hb. unfold Math_min. destruct (Qle_bool a b) eqn:E; [done|].
  assert (Qle_bool a b = true); [|congruence]. apply Qle_bool_iff. lra.
Qed.

Lemma Math_min_zero_r a b : (0 <= a)%Q -> (b == 0)%Q -> (Math_min a b == 0)%Q.
Proof.
  intros Ha Hb. unfold Math_min. destruct (Qle_bool a b) eqn:E; [|done].
  apply Qle_bool_iff in E. lra.
Qed.

Lemma percentileOf_nonneg albumMap counts userStat :
  (0 <= percentile (percentileOf albumMap counts userStat))%Q.
Proof.
  unfold percentileOf.
  destruct (Z.of_nat (length (default [] (counts !! userStat.1))) <=? 1); simpl; [lra|].
  destruct (Z.ltb_spec 0 (Z.of_nat (length (default [] (counts !! userStat.1)))));
    [|lra].
  apply Qmult_le_0_compat; [|lra].
  apply Qmult_le_0_compat.
  - change 0%Q with (inject_Z 0). rewrite <- Zle_Qle. lia.
  - apply Qinv_le_0_compat. change 0%Q with (inject_Z 0). rewrite <- Zle_Qle. lia.
Qed.

Section Aggregation.

Variable z : string.

Lemma updateArtist_keys stat name m :
  map fst (updateArtist stat name m) = setAdd (map fst m) name.
Proof.
  unfold setAdd. induction m as [|[k a] r IH]; simpl.
  - reflexivity.
  - destruct (decide (k = name)) as [->|Hne]; simpl.
    + rewrite decide_True; [done|]. by left.
    + rewrite IH. destruct (decide (name ∈ map fst r)) as [Hin|Hin].
      * rewrite decide_True; [done|]. by right.
      * rewrite decide_False; [done|]. intros H.
        apply elem_of_cons in H as [H|H]; [congruence|done].
Qed.

Lemma updateArtist_NoDup stat name m :
  NoDup (map fst m) -> NoDup (map fst (updateArtist stat name m)).
Proof.
  intros H. rewrite updateArtist_keys. unfold setAdd.
  destruct (decide (name ∈ map fst m)); [done|].
  apply NoDup_app. split; [done|]. split; [|apply NoDup_singleton].
  intros x Hx Hx'. apply list_elem_of_singleton in Hx'. by subst.
Qed.

Lemma updateArtist_nonneg stat name m :
  (0 <= percentile stat)%Q ->
  accNonNegative m -> accNonNegative (updateArtist stat name m).
Proof.
  intros Hp. unfold accNonNegative.
  induction 1 as [|[k a] r Ha Hr IH]; simpl.
  - constructor; [|constructor]. simpl. apply Math_min_nonneg; [|done].
    unfold accInit. simpl. lra.
  - destruct (decide (k = name)); constructor; try done.
    simpl. by apply Math_min_nonneg.
Qed.

Lemma updateArtist_keeps_zero stat name m :
  (0 <= percentile stat)%Q ->
  accZeroAt z m -> accZeroAt z (updateArtist stat name m).
Proof.
  intros Hp [Hin Hall]. split.
  { rewrite updateArtist_keys. unfold setAdd.
    destruct (decide (name ∈ map fst m)); [done|].
    apply elem_of_app. by left. }
  assert (Hz : name = z -> z ∈ map fst m) by done.
  clear Hin. revert Hall Hz.
  induction m as [|[k a] r IH]; intros Hall Hz; simpl.
  - constructor; [|constructor]. simpl. intros E.
    specialize (Hz E). inversion Hz.
  - apply Forall_cons_1 in Hall as [Hk Hr]. simpl in Hk.
    destruct (decide (k = name)) as [->|Hne]; constructor; try done.
    + simpl. intros E. apply Math_min_zero_l; [by apply Hk|done].
    + apply IH; [done|]. intros E. specialize (Hz E). simpl in Hz.
      apply elem_of_cons in Hz as [Hz|Hz]; [congruence|done].
Qed.

Lemma updateArtist_makes_zero stat m :
  (percentile stat == 0)%Q ->
  accNonNegative m -> NoDup (map fst m) ->
  accZeroAt z (updateArtist stat z m).
Proof.
  intros Hp Hnn Hnd. split.
  { rewrite updateArtist_keys. unfold setAdd.
    destruct (decide (z ∈ map fst m)); [done|].
    apply elem_of_app. right. by left. }
  revert Hnn Hnd.
  induction m as [|[k a] r IH]; intros Hnn Hnd; simpl.
  - constructor; [|constructor]. simpl. intros _.
    apply Math_min_zero_r; [unfold accInit; simpl; lra|done].
  - apply Forall_cons_1 in Hnn as [Hk Hr]. simpl in Hk, Hnd.
    apply NoDup_cons in Hnd as [Hnk Hnd].
    destruct (decide (k = z)) as [->|Hne]; constructor.
    + simpl. intros _. by apply Math_min_zero_r.
    + apply Forall_forall. intros [k' a'] Hin E. simpl in E. subst k'.
      exfalso. apply Hnk. apply list_elem_of_fmap. by exists (z, a').
    + simpl. intros E. congruence.
    + by apply IH.
Qed.

(** The inner loop of [aggregateArtistStats], over the artists of one
    album. *)
Lemma inner_loop_invariants stat names : forall m,
  (0 <= percentile stat)%Q ->
  accNonNegative m -> NoDup (map fst m) ->
  let m' := fold_left (fun m name => updateArtist stat name m) names m in
  accNonNegative m' /\ NoDup (map fst m')
  /\ (accZeroAt z m -> accZeroAt z m')
  /\ ((percentile stat == 0)%Q -> z ∈ names -> accZeroAt z m').
Proof.
  induction names as [|n names IH]; intros m Hp Hnn Hnd; simpl.
  - split; [done|]. split; [done|]. split; [done|]. intros _ Hin. inversion Hin.
  - destruct (IH (updateArtist stat n m) Hp
                (updateArtist_nonneg stat n m Hp Hnn)
                (updateArtist_NoDup stat n m Hnd)) as (I1 & I2 & I3 & I4).
    split; [done|]. split; [done|]. split.
    + intros Hz. apply I3. by apply updateArtist_keeps_zero.
    + intros H0 Hin. apply elem_of_cons in Hin as [<-|Hin].
      * apply I3. by apply updateArtist_makes_zero.
      * by apply I4.
Qed.

(** The outer loop, over the percentile results. *)
Lemma outer_loop_invariants stats : forall m,
  Forall (fun stat => (0 <= percentile stat)%Q) stats ->
  accNonNegative m -> NoDup (map fst m) ->
  let m' := fold_left
              (fun m albumStat =>
                 fold_left (fun m name => updateArtist albumStat name m)
                   (pr_artist albumStat) m)
              stats m in
  accNonNegative m' /\ NoDup (map fst m')
  /\ (accZeroAt z m -> accZeroAt z m')
  /\ (Exists (fun stat => (percentile stat == 0)%Q /\ z ∈ pr_artist stat) stats ->
      accZeroAt z m').
Proof.
  induction stats as [|stat stats IH]; intros m Hall Hnn Hnd; simpl.
  - split; [done|]. split; [done|]. split; [done|]. intros H. inversion H.
  - apply Forall_cons_1 in Hall as [Hp Hall].
    destruct (inner_loop_invariants stat (pr_artist stat) m Hp Hnn Hnd)
      as (J1 & J2 & J3 & J4).
    destruct (IH _ Hall J1 J2) as (I1 & I2 & I3 & I4).
    split; [done|]. split; [done|]. split.
    + intros Hz. apply I3. by apply J3.
    + intros Hex. apply Exists_cons in Hex as [[H0 Hin]|Hex].
      * apply I3. by apply J4.
      * by apply I4.
Qed.

Lemma artistStatsMapOf_zero stats :
  Forall (fun stat => (0 <= percentile stat)%Q) stats ->
  Exists (fun stat => (percentile stat == 0)%Q /\ z ∈ pr_artist stat) stats ->
  accZeroAt z (artistStatsMapOf stats).
Proof.
  intros Hall Hex.
  destruct (outer_loop_invariants stats [] Hall) as (_ & _ & _ & H).
  - constructor.
  - constructor.
  - by apply H.
Qed.

End Aggregation.

Lemma aggregate_zero z stats :
  Forall (fun stat => (0 <= percentile stat)%Q) stats ->
  Exists (fun stat => (percentile stat == 0)%Q /\ z ∈ pr_artist stat) stats ->
  (exists s, s ∈ aggregateArtistStats stats /\ artistName s = z)
  /\ (forall s, s ∈ aggregateArtistStats stats -> artistName s = z ->
                (bestPercentile s == 0)%Q).
Proof.
  intros Hall Hex.
  destruct (artistStatsMapOf_zero z stats Hall Hex) as [Hin Hzero].
  unfold aggregateArtistStats. split.
  - apply list_elem_of_fmap in Hin as ([k a] & Hk & Hin). simpl in Hk. subst k.
    eexists. split; [apply list_elem_of_fmap; exists (z, a); split; [reflexivity|done]|].
    reflexivity.
  - intros s Hs Hname. apply list_elem_of_fmap in Hs as ([k a] & -> & Hka).
    simpl in Hname. subst k. simpl.
    rewrite Forall_forall in Hzero. specialize (Hzero _ Hka eq_refl). simpl in Hzero.
    destruct (Qle_bool (acc_bestPercentile a) 100) eqn:E; [done|].
    assert (Qle_bool (acc_bestPercentile a) 100 = true); [|congruence].
    apply Qle_bool_iff. lra.
Qed.

Lemma topPerformancesOf_elem e agg :
  e ∈ topPerformancesOf agg <->
  exists s, s ∈ agg
    /\ Qle_bool (bestPercentile s) TOP_PERFORMANCE_PERCENTILE_THRESHOLD = true
    /\ e = {| tp_artistName := artistName s;
              tp_roundedTopPercent :=
                if Qeq_bool (bestPercentile s) 0 then MIN_TOP_PERCENT
                else round1 (Math_max MIN_TOP_PERCENT (100 - bestPercentile s));
              tp_totalListens := as_totalListens s |}.
Proof.
  unfold topPerformancesOf. rewrite list_elem_of_fmap. split.
  - intros (s & -> & Hs). exists s.
    rewrite sort_Permutation in Hs. apply list_elem_of_In, filter_In in Hs as [Hs Hf].
    split; [by apply list_elem_of_In|]. split; [exact Hf|reflexivity].
  - intros (s & Hs & Hf & ->). exists s. split; [reflexivity|].
    rewrite sort_Permutation. apply list_elem_of_In, filter_In.
    split; [by apply list_elem_of_In|exact Hf].
Qed.

(** C4, as the code has it. For a user who is the only listener of an
    album by artist Z, topPerformances has an entry for Z, and the top
    percent shown in its message is the floor value 0.1
    ([MIN_TOP_PERCENT]), which the code assigns whenever the best
    percentile is 0. *)
Theorem sole_listener_is_shown_top_0_1 cdnUrl encodeURI getHours db startDate
  endDate user la albumDoc z :
  la ∈ listenedAlbums user ->
  (length (default [] (albumPlayCountsOf (users db) !! la_albumId la)) <= 1)%nat ->
  albumMapOf db user !! la_albumId la = Some albumDoc ->
  z ∈ artist albumDoc ->
  (exists e,
      e ∈ topPerformances
            (wrappedStats cdnUrl encodeURI getHours db startDate endDate user)
      /\ tp_artistName e = z)
  /\ (forall e,
        e ∈ topPerformances
              (wrappedStats cdnUrl encodeURI getHours db startDate endDate user) ->
        tp_artistName e = z ->
        tp_roundedTopPercent e = (1 # 10)%Q).
Proof.
  intros Hla Hlen Hdoc Hz. unfold wrappedStats. cbn [topPerformances].
  set (stats := calculateListeningPercentiles (users db) user (albumMapOf db user)).
  assert (Hall : Forall (fun stat => (0 <= percentile stat)%Q) stats).
  { apply Forall_forall. intros stat Hs. subst stats.
    unfold calculateListeningPercentiles in Hs.
    apply list_elem_of_fmap in Hs as (us & -> & _). apply percentileOf_nonneg. }
  assert (Hex : Exists (fun stat => (percentile stat == 0)%Q /\ z ∈ pr_artist stat) stats).
  { apply list_elem_of_lookup in Hla as [i Hi].
    destruct (percentile_zero_when_alone (users db) user (albumMapOf db user)
                i la Hi Hlen) as (res & Hres & Hid & Hp & Hart).
    apply Exists_exists. exists res. split.
    - apply list_elem_of_lookup. by exists i.
    - split; [by rewrite Hp|]. rewrite Hart. unfold artistsOf. by rewrite Hdoc. }
  destruct (aggregate_zero z stats Hall Hex) as [(s & Hs & Hname) Hzero].
  split.
  - eexists. split.
    + apply topPerformancesOf_elem. exists s. split; [exact Hs|]. split; [|reflexivity].
      apply Qle_bool_iff. rewrite (Hzero s Hs Hname).
      unfold TOP_PERFORMANCE_PERCENTILE_THRESHOLD. lra.
    + exact Hname.
  - intros e He Hn. apply topPerformancesOf_elem in He as (s' & Hs' & _ & ->).
    simpl in Hn. simpl.
    rewrite (proj2 (Qeq_bool_iff _ _) (Hzero s' Hs' Hn)). reflexivity.
Qed.

Lemma sole_listener_is_shown_top_0_1_witness :
  (exists e, e ∈ topPerformances (wrappedTest zDb userZ) /\ tp_artistName e = "Z")
  /\ (forall e, e ∈ topPerformances (wrappedTest zDb userZ) ->
                tp_artistName e = "Z" -> tp_roundedTopPercent e = (1 # 10)%Q).
Proof.
  apply (sole_listener_is_shown_top_0_1 testCdn asciiEncodeURI utcHours zDb
           JAN_2026 JAN_2027 userZ
           {| la_albumId := "album-c"; la_playCount := 5;
              la_listenHistory := [JAN_2026 + 10 * DAY + 20 * HOUR] |}
           albumC "Z").
  - by left.
  - vm_compute. lia.
  - vm_compute. reflexivity.
  - by left.
Defined.

(** C4 as stated fails: for the only listener of album C by "Z" with five
    plays this year, the one topPerformances entry for "Z" shows 0.1, not a
    value of at least 99.9. *)
Lemma sole_listener_is_not_shown_top_100 :
  topPerformances (wrappedTest zDb userZ)
  = [ {| tp_artistName := "Z"; tp_roundedTopPercent := 1 # 10; tp_totalListens := 5 |} ]
  /\ ~ (exists e,
          e ∈ topPerformances (wrappedTest zDb userZ)
          /\ tp_artistName e = "Z"
          /\ (999 # 10 <= tp_roundedTopPercent e)%Q).
Proof.
  assert (H : topPerformances (wrappedTest zDb userZ)
              = [ {| tp_artistName := "Z"; tp_roundedTopPercent := 1 # 10;
                     tp_totalListens := 5 |} ]).
  { vm_compute. reflexivity. }
  split; [exact H|]. rewrite H. intros (e & He & _ & Hle).
  apply list_elem_of_singleton in He. subst e. simpl in Hle. lra.
Qed.

(* ===================================================================== *)
(** ** The year filter of the wrapped statistics *)
(* ===================================================================== *)

Lemma existsb_inYear startDate endDate history :
  existsb (inYear startDate endDate) history = true
  <-> listenedIn startDate endDate history.
Proof.
  unfold listenedIn. rewrite existsb_exists, Exists_exists. unfold inYear.
  split; intros (date & Hin & Hd); exists date.
  - split; [by apply list_elem_of_In|]. apply andb_true_iff in Hd as [H1 H2].
    apply Z.leb_le in H1. apply Z.ltb_lt in H2. lia.
  - split; [by apply list_elem_of_In|]. apply andb_true_iff.
    split; [apply Z.leb_le|apply Z.ltb_lt]; lia.
Qed.

(** The year filter of the code keeps the entries that have been listened
    to in the year. *)
Lemma year_filter {A} (historyOf : A -> list Z) startDate endDate (l : list A) :
  List.filter (fun x => existsb (inYear startDate endDate) (historyOf x)) l
  = filter (fun x => listenedIn startDate endDate (historyOf x)) l.
Proof.
  induction l as [|x l IH]; [done|]. cbn [List.filter]. rewrite filter_cons.
  destruct (existsb (inYear startDate endDate) (historyOf x)) eqn:E.
  - rewrite decide_True by (by apply existsb_inYear). by rewrite IH.
  - rewrite decide_False; [done|]. intros H. apply existsb_inYear in H. congruence.
Qed.

Lemma year_filter_twice {A} (historyOf : A -> list Z) startDate endDate (l : list A) :
  List.filter (fun x => existsb (inYear startDate endDate) (historyOf x))
    (filter (fun x => listenedIn startDate endDate (historyOf x)) l)
  = List.filter (fun x => existsb (inYear startDate endDate) (historyOf x)) l.
Proof.
  rewrite !year_filter. induction l as [|x l IH]; [done|].
  rewrite !filter_cons. destruct (decide (listenedIn _ _ _)) as [H|H]; [|done].
  rewrite filter_cons, decide_True by done. by rewrite IH.
Qed.

Lemma map_ext_elem {A B} (f g : A -> B) l :
  (forall x, x ∈ l -> f x = g x) -> map f l = map g l.
Proof.
  intros H. apply map_ext_in. intros x Hx. apply H. by apply list_elem_of_In.
Qed.

(** The catalog document found for an id does not depend on which other
    ids the user has listened to. *)
Lemma albumMap_lookup_agree (ids1 ids2 : list string) k docs : forall m1 m2 : gmap string IAlbum,
  m1 !! k = m2 !! k -> k ∈ ids1 -> k ∈ ids2 ->
  fold_left (fun m album => <[_id album := album]> m)
    (List.filter (fun a => bool_decide (_id a ∈ ids1)) docs) m1 !! k
  = fold_left (fun m album => <[_id album := album]> m)
      (List.filter (fun a => bool_decide (_id a ∈ ids2)) docs) m2 !! k.
Proof.
  induction docs as [|a docs IH]; intros m1 m2 Hm H1 H2; simpl; [done|].
  destruct (decide (_id a = k)) as [E|E].
  - rewrite !bool_decide_eq_true_2 by (by rewrite E). simpl.
    apply IH; [|done|done]. by rewrite E, !lookup_insert_eq.
  - destruct (bool_decide (_id a ∈ ids1)), (bool_decide (_id a ∈ ids2)); simpl;
      apply IH; try done; by rewrite ?lookup_insert_ne.
Qed.

Lemma albumMapOf_withoutStaleAlbums db startDate endDate user la :
  la ∈ yearlyAlbums startDate endDate user ->
  albumMapOf db (withoutStaleAlbums startDate endDate user) !! la_albumId la
  = albumMapOf db user !! la_albumId la.
Proof.
  intros Hla. unfold albumMapOf. unfold yearlyAlbums in Hla.
  rewrite (year_filter la_listenHistory) in Hla.
  apply albumMap_lookup_agree; [done| |].
  - cbn [listenedAlbums withoutStaleAlbums]. apply list_elem_of_fmap. by exists la.
  - apply list_elem_of_fmap. exists la. split; [done|].
    by apply list_elem_of_filter in Hla as [_ Hla].
Qed.

Lemma fold_left_ext_elem {A B} (f g : A -> B -> A) l : forall a,
  (forall a x, x ∈ l -> f a x = g a x) -> fold_left f l a = fold_left g l a.
Proof.
  induction l as [|x l IH]; intros a H; simpl; [done|].
  rewrite (H a x) by (by left). apply IH. intros a' y Hy. apply H. by right.
Qed.

(** C6, as the code has it. The year filter keeps the song entries and
    the album entries that have at least one listen event in
    [startDate, endDate). The wrapped result is computed from the song
    entries it keeps: removing the song entries without such an event
    changes nothing. Removing the album entries without such an event
    changes neither the top albums, the language breakdown, the totals, the
    listening-time buckets nor the titles and play counts of the top songs.
    The percentile and topPerformances do not depend on the year. *)
Theorem wrapped_counts_entries_with_a_listen_this_year cdnUrl encodeURI getHours
  db startDate endDate user :
  let wrapped := wrappedStats cdnUrl encodeURI getHours db startDate endDate in
  let whole := wrapped user in
  let fewerAlbums := wrapped (withoutStaleAlbums startDate endDate user) in
  (yearlySongs startDate endDate user
   = filter (fun song => listenedIn startDate endDate (ls_listenHistory song))
       (listenedSongs user)
   /\ yearlyAlbums startDate endDate user
      = filter (fun album => listenedIn startDate endDate (la_listenHistory album))
          (listenedAlbums user))
  /\ wrapped (withoutStaleSongs startDate endDate user) = whole
  /\ (topAlbums fewerAlbums = topAlbums whole
      /\ languageBreakdown fewerAlbums = languageBreakdown whole
      /\ totalListens fewerAlbums = totalListens whole
      /\ totalMinutes fewerAlbums = totalMinutes whole
      /\ listeningTimes fewerAlbums = listeningTimes whole
      /\ map (fun w => (ws_title w, ws_playCount w)) (topSongs fewerAlbums)
         = map (fun w => (ws_title w, ws_playCount w)) (topSongs whole))
  /\ forall startDate' endDate',
       globalPercentile
         (wrappedStats cdnUrl encodeURI getHours db startDate' endDate' user)
       = globalPercentile whole
       /\ topPerformances
            (wrappedStats cdnUrl encodeURI getHours db startDate' endDate' user)
          = topPerformances whole.
Proof.
  intros wrapped whole fewerAlbums. subst wrapped whole fewerAlbums.
  split; [split; apply year_filter|].
  split.
  { unfold wrappedStats.
    assert (Hs : yearlySongs startDate endDate
                   (withoutStaleSongs startDate endDate user)
                 = yearlySongs startDate endDate user).
    { unfold yearlySongs. cbn [listenedSongs withoutStaleSongs].
      apply (year_filter_twice ls_listenHistory). }
    rewrite Hs. reflexivity. }
  split.
  { unfold wrappedStats.
    cbn [totalListens totalMinutes listeningTimes topAlbums languageBreakdown
         topSongs].
    assert (Ha : yearlyAlbums startDate endDate
                   (withoutStaleAlbums startDate endDate user)
                 = yearlyAlbums startDate endDate user).
    { unfold yearlyAlbums. cbn [listenedAlbums withoutStaleAlbums].
      apply (year_filter_twice la_listenHistory). }
    rewrite Ha.
    split; [|split; [|split; [reflexivity|split; [reflexivity|split; [reflexivity|]]]]].
    - unfold calculateTopAlbums, getAlbum. apply map_ext_elem. intros la Hla.
      apply slice0_elem in Hla. rewrite sort_Permutation in Hla.
      by rewrite (albumMapOf_withoutStaleAlbums db startDate endDate user la Hla).
    - unfold calculateLanguageBreakdown, getAlbum. apply fold_left_ext_elem.
      intros acc la Hla.
      by rewrite (albumMapOf_withoutStaleAlbums db startDate endDate user la Hla).
    - unfold calculateTopSongs. rewrite !map_map. reflexivity. }
  intros startDate' endDate'. split; reflexivity.
Qed.

Lemma wrapped_counts_entries_with_a_listen_this_year_witness :
  wrappedTest staleAlbumDb (withoutStaleSongs JAN_2026 JAN_2027 userStaleAlbum)
  = wrappedTest staleAlbumDb userStaleAlbum
  /\ topAlbums
       (wrappedTest staleAlbumDb (withoutStaleAlbums JAN_2026 JAN_2027 userStaleAlbum))
     = topAlbums (wrappedTest staleAlbumDb userStaleAlbum).
Proof.
  destruct (wrapped_counts_entries_with_a_listen_this_year testCdn asciiEncodeURI
              utcHours staleAlbumDb JAN_2026 JAN_2027 userStaleAlbum)
    as (_ & Hsongs & (Halbums & _) & _).
  split; [exact Hsongs|exact Halbums].
Defined.

(** C6 as stated fails. A song listened to on a morning of 2025 and on an
    afternoon of 2026 adds its 2025 listen to the morning bucket, so the
    statistics change when the events outside the year are removed. An
    album listened to only in 2025 still yields a top performance. And the
    entry of an album listened to only in 2025 supplies the artist of a
    top song: without that entry the song is shown with an unknown
    artist. *)
Lemma out_of_year_listens_are_counted :
  inYear JAN_2026 JAN_2027 (JAN_2026 - 100 * DAY + 7 * HOUR) = false
  /\ listeningTimes (wrappedTest twoYearsDb userTwoYears)
     = {| morning := 1; afternoon := 1; evening := 0; night := 0 |}
  /\ listeningTimes
       (wrappedTest twoYearsDb (restrictToYear JAN_2026 JAN_2027 userTwoYears))
     = {| morning := 0; afternoon := 1; evening := 0; night := 0 |}
  /\ wrappedTest twoYearsDb userTwoYears
     <> wrappedTest twoYearsDb (restrictToYear JAN_2026 JAN_2027 userTwoYears)
  /\ yearlyAlbums JAN_2026 JAN_2027 userLastYear = []
  /\ topPerformances (wrappedTest lastYearDb userLastYear)
     = [ {| tp_artistName := "Z"; tp_roundedTopPercent := 1 # 10;
            tp_totalListens := 3 |} ]
  /\ yearlyAlbums JAN_2026 JAN_2027 userStaleAlbum = []
  /\ topSongs (wrappedTest staleAlbumDb userStaleAlbum)
     = [ {| ws_title := codes "Veille"; ws_artist := "Z"; ws_playCount := 2 |} ]
  /\ topSongs
       (wrappedTest staleAlbumDb (withoutStaleAlbums JAN_2026 JAN_2027 userStaleAlbum))
     = [ {| ws_title := codes "Veille"; ws_artist := "Artiste Inconnu";
            ws_playCount := 2 |} ].
Proof.
  split; [reflexivity|]. split; [vm_compute; reflexivity|].
  split; [vm_compute; reflexivity|]. split.
  - intros H. apply (f_equal listeningTimes) in H. vm_compute in H. discriminate H.
  - repeat split; vm_compute; reflexivity.
Qed.

(* ===================================================================== *)
(** ** Further properties of the recency weighting *)
(* ===================================================================== *)

Lemma recencyFactor_antitone d1 d2 :
  d1 <= d2 -> (recencyFactor d2 <= recencyFactor d1)%Q.
Proof.
  intros H. unfold recencyFactor, TIME_RECENT, TIME_MEDIUM, TIME_OLD.
  repeat match goal with
         | |- context [?a <? ?b] => destruct (Z.ltb_spec a b)
         end; try lia; by vm_compute.
Qed.

Lemma recencyFactor_bounds d : (WEIGHT_OLDER <= recencyFactor d <= 1)%Q.
Proof.
  unfold recencyFactor.
  repeat match goal with
         | |- context [?a <? ?b] => destruct (a <? b)
         end; split; by vm_compute.
Qed.

Lemma inject_Z_nonneg z : 0 <= z -> (0 <= inject_Z z)%Q.
Proof. intros H. change 0%Q with (inject_Z 0). by rewrite <- Zle_Qle. Qed.

Lemma weightedPlayCount_mono now w playCount ta tsa tb tsb :
  (0 <= w)%Q -> 0 <= playCount ->
  mostRecentListenOf tb tsb <= mostRecentListenOf ta tsa ->
  weightedPlayCount now w playCount tb tsb <= weightedPlayCount now w playCount ta tsa.
Proof.
  intros Hw Hc Hrec. unfold weightedPlayCount, Math_ceil.
  rewrite !fold_left_max_foldr. unfold mostRecentListenOf in Hrec.
  apply Qceiling_resp_le.
  apply fmul_mono_l; [done|].
  apply fmul_mono_r; [by apply inject_Z_nonneg|].
  apply recencyFactor_antitone. lia.
Qed.

(** X1. Recency monotonicity: of two album entries with the same
    non-negative play count and some listen history, the one whose most
    recent listen is later gets an effective play count at least as large,
    for every non-negative recency weight. *)
Theorem recency_weighting_is_monotone now w a b ta tsa tb tsb :
  (0 <= w)%Q ->
  0 <= la_playCount a ->
  la_playCount a = la_playCount b ->
  la_listenHistory a = ta :: tsa ->
  la_listenHistory b = tb :: tsb ->
  mostRecentListenOf tb tsb <= mostRecentListenOf ta tsa ->
  exists ca cb,
    wd_playCount (weightAlbum now w a) = Some ca
    /\ wd_playCount (weightAlbum now w b) = Some cb
    /\ cb <= ca.
Proof.
  intros Hw Hc Heq Ha Hb Hrec. unfold weightAlbum. rewrite Ha, Hb.
  cbn [wd_playCount]. eexists _, _. split; [reflexivity|]. split; [reflexivity|].
  rewrite <- Heq. by apply weightedPlayCount_mono.
Qed.

Lemma Qceiling_positive x : (0 < x)%Q -> 1 <= Qceiling x.
Proof.
  intros H. destruct (Z_lt_le_dec (Qceiling x) 1) as [Hlt|]; [|done].
  exfalso. pose proof (Qle_ceiling x) as Hc.
  assert (Hz : (inject_Z (Qceiling x) <= 0)%Q).
  { change 0%Q with (inject_Z 0). rewrite <- Zle_Qle. lia. }
  lra.
Qed.

Lemma Qceiling_le_Z x n : (x <= inject_Z n)%Q -> Qceiling x <= n.
Proof. intros H. rewrite <- (Qceiling_Z n). by apply Qceiling_resp_le. Qed.

Lemma inject_Z_pos z : 1 <= z -> (1 <= inject_Z z)%Q.
Proof. intros H. change 1%Q with (inject_Z 1). by rewrite <- Zle_Qle. Qed.

(** The smallest recency weight for which the product of a play count of
    at least 1 with the smallest factor 0.1 is not rounded to zero. *)
Lemma smallest_weight_keeps_counts :
  (0 < roundDouble (WEIGHT_OLDER * MIN_RECENCY_WEIGHT))%Q.
Proof. by vm_compute. Qed.

Lemma weightedPlayCount_bounds now w playCount t ts :
  (MIN_RECENCY_WEIGHT <= w)%Q -> 1 <= playCount < 2 ^ 53 ->
  1 <= weightedPlayCount now w playCount t ts
  /\ ((w <= 1)%Q -> weightedPlayCount now w playCount t ts <= playCount).
Proof.
  intros Hw [Hc Hc53]. unfold weightedPlayCount, Math_ceil.
  pose proof (recencyFactor_bounds (now - fold_left Z.max ts t)) as [Hf1 Hf2].
  pose proof (inject_Z_pos _ Hc) as Hp.
  set (f := recencyFactor (now - fold_left Z.max ts t)) in *.
  set (c := inject_Z playCount) in *.
  assert (Hmin : (0 < MIN_RECENCY_WEIGHT)%Q) by (by vm_compute).
  assert (Hold : (0 < WEIGHT_OLDER)%Q) by (by vm_compute).
  assert (Hold' : (roundDouble WEIGHT_OLDER == WEIGHT_OLDER)%Q) by (by vm_compute).
  assert (H1 : (WEIGHT_OLDER <= fmul c f)%Q).
  { rewrite <- Hold'. apply roundDouble_mono.
    apply Qle_trans with (1 * f)%Q; [lra|].
    apply Qmult_le_compat_r; lra. }
  assert (H2 : (fmul c f <= c)%Q).
  { unfold c at 2. rewrite <- (roundDouble_Z playCount) by lia. fold c.
    apply roundDouble_mono.
    apply Qle_trans with (c * 1)%Q; [|lra].
    rewrite !(Qmult_comm c). apply Qmult_le_compat_r; lra. }
  split.
  - apply Qceiling_positive.
    apply Qlt_le_trans with (roundDouble (WEIGHT_OLDER * MIN_RECENCY_WEIGHT)).
    { apply smallest_weight_keeps_counts. }
    apply roundDouble_mono.
    apply Qle_trans with (WEIGHT_OLDER * w)%Q.
    + rewrite !(Qmult_comm WEIGHT_OLDER). apply Qmult_le_compat_r; lra.
    + apply Qmult_le_compat_r; lra.
  - intros Hw1. apply Qceiling_le_Z. fold c.
    unfold c at 2. rewrite <- (roundDouble_Z playCount) by lia. fold c.
    apply roundDouble_mono.
    apply Qle_trans with (fmul c f * 1)%Q; [|lra].
    rewrite !(Qmult_comm (fmul c f)). apply Qmult_le_compat_r; lra.
Qed.

(** X2. For a recency weight of at least 2^-1070 (below, a product can be
    rounded to zero), the weighting never takes a listened album with some
    listen history and a play count of at least 1 (and below 2^53) down to
    0; for a weight of at most 1 it never raises such a play count. The
    weighted list has one copy per entry, in the order of the entries, and
    no copy carries an album id. *)
Theorem weighted_counts_stay_positive now user w i la :
  (MIN_RECENCY_WEIGHT <= w)%Q ->
  listenedAlbums user !! i = Some la ->
  la_listenHistory la <> [] ->
  1 <= la_playCount la < 2 ^ 53 ->
  exists copy c,
    wu_listenedAlbums (applyRecencyWeighting now user w) !! i = Some copy
    /\ length (wu_listenedAlbums (applyRecencyWeighting now user w))
       = length (listenedAlbums user)
    /\ wd_albumId copy = None
    /\ wd_playCount copy = Some c
    /\ 1 <= c
    /\ ((w <= 1)%Q -> c <= la_playCount la).
Proof.
  intros Hw Hi Hh Hc. unfold applyRecencyWeighting. cbn [wu_listenedAlbums].
  destruct (la_listenHistory la) as [|t ts] eqn:E; [done|].
  exists (weightAlbum now w la),
    (weightedPlayCount now w (la_playCount la) t ts).
  split; [by rewrite list_lookup_fmap, Hi|]. split; [by rewrite length_map|].
  unfold weightAlbum. rewrite E. cbn [wd_albumId wd_playCount].
  split; [reflexivity|]. split; [reflexivity|].
  by apply weightedPlayCount_bounds.
Qed.

Lemma weighted_counts_stay_positive_witness :
  exists copy c,
    wu_listenedAlbums (applyRecencyWeighting NOW userBoth (1 # 2)) !! 0%nat
    = Some copy
    /\ length (wu_listenedAlbums (applyRecencyWeighting NOW userBoth (1 # 2)))
       = 1%nat
    /\ wd_albumId copy = None
    /\ wd_playCount copy = Some c
    /\ 1 <= c
    /\ ((1 # 2 <= 1)%Q -> c <= 10).
Proof.
  apply (weighted_counts_stay_positive NOW userBoth (1 # 2) 0%nat
           {| la_albumId := "album-a"; la_playCount := 10;
              la_listenHistory := [NOW - 2 * DAY] |}).
  - by vm_compute.
  - reflexivity.
  - discriminate.
  - simpl. lia.
Defined.

Lemma recency_weighting_is_monotone_witness :
  exists ca cb,
    wd_playCount
      (weightAlbum NOW (3 # 2)
         {| la_albumId := "new"; la_playCount := 10;
            la_listenHistory := [NOW - 2 * DAY] |}) = Some ca
    /\ wd_playCount
         (weightAlbum NOW (3 # 2)
            {| la_albumId := "old"; la_playCount := 10;
               la_listenHistory := [NOW - 100 * DAY] |}) = Some cb
    /\ cb <= ca.
Proof.
  apply (recency_weighting_is_monotone NOW (3 # 2) _ _ (NOW - 2 * DAY) []
           (NOW - 100 * DAY) []).
  - lra.
  - simpl. lia.
  - reflexivity.
  - reflexivity.
  - reflexivity.
  - vm_compute. discriminate.
Defined.

(* ===================================================================== *)
(** ** Taste profile *)
(* ===================================================================== *)

Lemma sort_sorted_Z {A} (key : A -> Z) l :
  StronglySorted (fun a b => key b <= key a)
    (JS.sort (fun a b => inject_Z (key b - key a)) l).
Proof.
  apply sort_sorted.
  - intros x y z Hxy Hyz. lia.
  - intros x y Hle. apply Qle_bool_iff in Hle.
    change 0%Q with (inject_Z 0) in Hle. rewrite <- Zle_Qle in Hle. lia.
  - intros x y Hgt. destruct (Z_le_gt_dec (key x) (key y)) as [H|H]; [done|].
    assert (Qle_bool (inject_Z (key y - key x)) 0 = true); [|congruence].
    apply Qle_bool_iff. change 0%Q with (inject_Z 0). rewrite <- Zle_Qle. lia.
Qed.

(** X3. On a cache miss, [getTopListenedSongs] returns the titles of the
    user's listened songs ranked by play count, highest first, cut after
    [limit] entries (20 by default); for an unknown user it returns no
    song. *)
Theorem top_listened_songs_are_the_most_played db userId limit :
  0 <= limit ->
  (findById db userId = None -> getTopListenedSongs None db userId limit = [])
  /\ (forall user, findById db userId = Some user ->
        Z.of_nat (length (getTopListenedSongs None db userId limit)) <= limit
        /\ exists ranked,
             Permutation ranked (listenedSongs user)
             /\ StronglySorted (fun a b => ls_playCount b <= ls_playCount a) ranked
             /\ getTopListenedSongs None db userId limit
                = map (fun song => {| ts_songTitle := songTitle song;
                                      ts_album := ls_albumId song |})
                    (take (Z.to_nat limit) ranked)).
Proof.
  intros Hl. unfold getTopListenedSongs. split.
  - by intros ->.
  - intros user ->. split.
    + rewrite length_map. by apply slice0_length_le.
    + eexists. split; [apply sort_Permutation|]. split; [apply sort_sorted_Z|].
      by rewrite slice0_nonneg.
Qed.

Lemma top_listened_songs_are_the_most_played_witness :
  (findById testDb "u1" = None -> getTopListenedSongs None testDb "u1" 20 = [])
  /\ (forall user, findById testDb "u1" = Some user ->
        Z.of_nat (length (getTopListenedSongs None testDb "u1" 20)) <= 20
        /\ exists ranked,
             Permutation ranked (listenedSongs user)
             /\ StronglySorted (fun a b => ls_playCount b <= ls_playCount a) ranked
             /\ getTopListenedSongs None testDb "u1" 20
                = map (fun song => {| ts_songTitle := songTitle song;
                                      ts_album := ls_albumId song |})
                    (take (Z.to_nat 20) ranked)).
Proof.
  apply (top_listened_songs_are_the_most_played testDb "u1" 20). lia.
Defined.

Section Counts.

Context {K : Type} `{EqDecision K}.

Lemma addCount_keys (key : K) n acc :
  map fst (addCount key n acc) = setAdd (map fst acc) key.
Proof.
  unfold setAdd. induction acc as [|[k m] r IH]; simpl; [reflexivity|].
  destruct (decide (k = key)) as [->|Hne]; simpl.
  - rewrite decide_True; [done|]. by left.
  - rewrite IH. destruct (decide (key ∈ map fst r)) as [Hin|Hin].
    + rewrite decide_True; [done|]. by right.
    + rewrite decide_False; [done|]. intros Hc.
      apply elem_of_cons in Hc as [Hc|Hc]; [congruence|done].
Qed.

Lemma setAdd_NoDup (s : list K) x : NoDup s -> NoDup (setAdd s x).
Proof.
  intros Hs. unfold setAdd. destruct (decide (x ∈ s)); [done|].
  apply NoDup_app. split; [done|]. split; [|apply NoDup_singleton].
  intros y Hy Hy'. apply list_elem_of_singleton in Hy'. by subst.
Qed.

Lemma setAdd_elem (s : list K) x y : y ∈ setAdd s x <-> y ∈ s \/ y = x.
Proof.
  unfold setAdd. destruct (decide (x ∈ s)) as [Hin|Hin].
  - split; [by left|]. intros [?| ->]; done.
  - rewrite elem_of_app, list_elem_of_singleton. done.
Qed.

Lemma addCount_countAt (key : K) n acc k :
  countAt (addCount key n acc) k
  = countAt acc k + (if bool_decide (key = k) then n else 0).
Proof.
  unfold countAt. induction acc as [|[k' m] r IH]; simpl.
  - case_bool_decide; simpl; lia.
  - destruct (decide (k' = key)) as [->|Hne]; simpl.
    + case_bool_decide; simpl; lia.
    + destruct (bool_decide (k' = k)) eqn:E; simpl.
      * apply bool_decide_eq_true_1 in E. subst k'.
        rewrite bool_decide_eq_false_2 by congruence. lia.
      * exact IH.
Qed.

Lemma countAt_elem (acc : list (K * Z)) k n :
  NoDup (map fst acc) -> ((k, n) ∈ acc <-> k ∈ map fst acc /\ n = countAt acc k).
Proof.
  unfold countAt. induction acc as [|[k' m] r IH]; intros Hnd; simpl.
  - split; [intros Hc; inversion Hc|intros [Hc _]; inversion Hc].
  - simpl in Hnd. apply NoDup_cons in Hnd as [Hk' Hnd].
    destruct (decide (k' = k)) as [->|Hne].
    + rewrite bool_decide_eq_true_2 by done. simpl. split.
      * intros Hin. apply elem_of_cons in Hin as [Hin|Hin].
        -- inversion Hin. split; [by left|done].
        -- exfalso. apply Hk'. apply list_elem_of_fmap. by exists (k, n).
      * intros [_ ->]. by left.
    + rewrite bool_decide_eq_false_2 by done. rewrite elem_of_cons.
      rewrite (IH Hnd). rewrite elem_of_cons. split.
      * intros [Hc|[? ?]]; [congruence|]. split; [by right|done].
      * intros [[Hc|Hin] Hn]; [congruence|]. right. done.
Qed.

(** The two nested loops over albums and their tags. *)
Lemma tag_loop_inner (tags : list K) pc : forall acc,
  NoDup (map fst acc) ->
  let acc' := fold_left (fun acc t => addCount t pc acc) tags acc in
  NoDup (map fst acc')
  /\ (forall k, k ∈ map fst acc' <-> k ∈ map fst acc \/ k ∈ tags)
  /\ (forall k, countAt acc' k
                = countAt acc k
                  + Z.of_nat (length (List.filter (fun t => bool_decide (t = k)) tags))
                    * pc).
Proof.
  induction tags as [|t tags IH]; intros acc Hnd; simpl.
  - split; [done|]. split; [|intros; lia].
    intros k. split; [by left|]. intros [?|Hc]; [done|inversion Hc].
  - destruct (IH (addCount t pc acc)) as (I1 & I2 & I3).
    { rewrite addCount_keys. by apply setAdd_NoDup. }
    split; [done|]. split.
    + intros k. rewrite I2, addCount_keys, setAdd_elem, elem_of_cons. naive_solver.
    + intros k. rewrite I3, addCount_countAt.
      destruct (bool_decide (t = k)); simpl length; lia.
Qed.

Lemma tag_loop_outer (tagsOf : IAlbum -> list K) (pcOf : IAlbum -> Z) albums_ :
  forall acc,
  NoDup (map fst acc) ->
  let acc' :=
    fold_left (fun acc album =>
                 fold_left (fun acc t => addCount t (pcOf album) acc) (tagsOf album) acc)
      albums_ acc in
  NoDup (map fst acc')
  /\ (forall k, k ∈ map fst acc' <->
                k ∈ map fst acc \/ exists album, album ∈ albums_ /\ k ∈ tagsOf album)
  /\ (forall k, countAt acc' k
                = countAt acc k
                  + fold_right
                      (fun album total =>
                         Z.of_nat (length (List.filter (fun t => bool_decide (t = k))
                                             (tagsOf album)))
                         * pcOf album + total)
                      0 albums_).
Proof.
  induction albums_ as [|a albums_ IH]; intros acc Hnd; simpl.
  - split; [done|]. split; [|intros; lia].
    intros k. split; [by left|]. intros [?|(a & Hc & _)]; [done|inversion Hc].
  - destruct (tag_loop_inner (tagsOf a) (pcOf a) acc Hnd) as (J1 & J2 & J3).
    destruct (IH _ J1) as (I1 & I2 & I3).
    split; [done|]. split.
    + intros k. rewrite I2, J2. split.
      * intros [[?|?]|(b & Hb & Hk)]; [by left| |].
        -- right. exists a. split; [by left|done].
        -- right. exists b. split; [by right|done].
      * intros [?|(b & Hb & Hk)]; [by left; left|].
        apply elem_of_cons in Hb as [->|Hb]; [by left; right|].
        right. by exists b.
    + intros k. rewrite I3, J3. lia.
Qed.

Lemma topKeys_ranks (tagsOf : IAlbum -> list K) db user n :
  0 <= n ->
  let counts :=
    fold_left (fun acc album =>
                 fold_left (fun acc t =>
                              addCount t (playCountOr1 (findListened user album)) acc)
                   (tagsOf album) acc)
      (listenedCatalogAlbums db user) [] in
  exists ranked,
    RanksTags tagsOf db user ranked
    /\ topKeys n counts = map fst (take (Z.to_nat n) ranked).
Proof.
  intros Hn counts.
  destruct (tag_loop_outer tagsOf (fun album => playCountOr1 (findListened user album))
              (listenedCatalogAlbums db user) [] (NoDup_nil_2)) as (I1 & I2 & I3).
  fold counts in I1, I2, I3.
  exists (JS.sort (fun a b => inject_Z (snd b - snd a)) counts).
  split; [|unfold topKeys; rewrite slice0_nonneg by done; by rewrite firstn_map].
  split; [apply sort_sorted_Z|]. split.
  - by rewrite sort_Permutation.
  - intros k m. rewrite sort_Permutation. rewrite (countAt_elem counts k m I1).
    rewrite I2, I3. unfold attributedCount. simpl. split.
    + intros [[Hc|Hex] ->]; [inversion Hc|]. split; [done|]. unfold countAt. simpl. lia.
    + intros [Hex ->]. split; [by right|]. unfold countAt. simpl. lia.
Qed.

End Counts.

(** X4. [calculateFavoriteGenres] returns the first three tags, and
    [calculateTopArtists] the first five, of a ranking that has one entry
    per genre (per artist) of the catalog albums the user has listened to,
    each with the play count attributed to it, highest first; the returned
    lists have no duplicates. *)
Theorem favorite_genres_and_artists_rank_attributed_counts db user :
  (exists ranked,
      RanksTags genre db user ranked
      /\ calculateFavoriteGenres db user = map fst (take 3 ranked)
      /\ NoDup (calculateFavoriteGenres db user)
      /\ (length (calculateFavoriteGenres db user) <= 3)%nat)
  /\ (exists ranked,
         RanksTags artist db user ranked
         /\ calculateTopArtists db user = map fst (take 5 ranked)
         /\ NoDup (calculateTopArtists db user)
         /\ (length (calculateTopArtists db user) <= 5)%nat).
Proof.
  split.
  - destruct (topKeys_ranks genre db user 3) as (ranked & Hr & Heq); [lia|].
    exists ranked. unfold calculateFavoriteGenres. rewrite Heq.
    split; [done|]. split; [done|]. split.
    + rewrite <- firstn_map. destruct Hr as (_ & Hnd & _).
      eapply sublist_NoDup; [exact Hnd|]. apply sublist_take.
    + rewrite length_map, length_take. lia.
  - destruct (topKeys_ranks artist db user 5) as (ranked & Hr & Heq); [lia|].
    exists ranked. unfold calculateTopArtists. rewrite Heq.
    split; [done|]. split; [done|]. split.
    + rewrite <- firstn_map. destruct Hr as (_ & Hnd & _).
      eapply sublist_NoDup; [exact Hnd|]. apply sublist_take.
    + rewrite length_map, length_take. lia.
Qed.

(* ===================================================================== *)
(** ** Popularity and scores *)
(* ===================================================================== *)

Lemma addPopularity_addCount id n acc :
  map (fun e => (pop_albumId e, pop_playCount e)) (addPopularity id n acc)
  = addCount id n (map (fun e => (pop_albumId e, pop_playCount e)) acc).
Proof.
  induction acc as [|e r IH]; simpl; [reflexivity|].
  destruct (decide (pop_albumId e = id)) as [->|Hne]; simpl; [reflexivity|].
  by rewrite IH.
Qed.

Lemma popularity_fold_addCount entries : forall acc,
  map (fun e => (pop_albumId e, pop_playCount e))
    (fold_left (fun acc la => addPopularity (la_albumId la) (la_playCount la) acc)
       entries acc)
  = fold_left (fun acc la => addCount (la_albumId la) (la_playCount la) acc)
      entries (map (fun e => (pop_albumId e, pop_playCount e)) acc).
Proof.
  induction entries as [|la entries IH]; intros acc; simpl; [reflexivity|].
  by rewrite IH, addPopularity_addCount.
Qed.

Lemma count_loop (entries : list ListenedAlbumStats) : forall acc : list (string * Z),
  NoDup (map fst acc) ->
  let acc' :=
    fold_left (fun acc la => addCount (la_albumId la) (la_playCount la) acc)
      entries acc in
  NoDup (map fst acc')
  /\ (forall k, k ∈ map fst acc' <->
                k ∈ map fst acc \/ exists la, la ∈ entries /\ la_albumId la = k)
  /\ (forall k, countAt acc' k
                = countAt acc k
                  + fold_right
                      (fun la total =>
                         (if bool_decide (la_albumId la = k) then la_playCount la else 0)
                         + total)
                      0 entries).
Proof.
  induction entries as [|la entries IH]; intros acc Hnd; simpl.
  - split; [done|]. split; [|intros; lia].
    intros k. split; [by left|]. intros [?|(a & Hc & _)]; [done|inversion Hc].
  - destruct (IH (addCount (la_albumId la) (la_playCount la) acc)) as (I1 & I2 & I3).
    { rewrite addCount_keys. by apply setAdd_NoDup. }
    split; [done|]. split.
    + intros k. rewrite I2, addCount_keys, setAdd_elem. split.
      * intros [[?| ->]|(b & Hb & Hk)]; [by left| |].
        -- right. exists la. split; [by left|done].
        -- right. exists b. split; [by right|done].
      * intros [?|(b & Hb & Hk)]; [by left; left|].
        apply elem_of_cons in Hb as [->|Hb]; [by left; right|].
        right. by exists b.
    + intros k. rewrite I3, addCount_countAt. lia.
Qed.

Lemma popularity_pairs db :
  let pairs := map (fun e => (pop_albumId e, pop_playCount e))
                 (getAlbumPopularityData None db) in
  NoDup (map fst pairs)
  /\ forall id n,
       (id, n) ∈ pairs <->
       (exists la, la ∈ flat_map listenedAlbums (users db) /\ la_albumId la = id)
       /\ n = totalPlayCount db id.
Proof.
  intros pairs.
  destruct (count_loop (flat_map listenedAlbums (users db)) [] (NoDup_nil_2))
    as (I1 & I2 & I3).
  assert (Hperm : Permutation pairs
                    (fold_left (fun acc la => addCount (la_albumId la) (la_playCount la) acc)
                       (flat_map listenedAlbums (users db)) [])).
  { subst pairs. unfold getAlbumPopularityData.
    rewrite sort_Permutation. by rewrite popularity_fold_addCount. }
  split; [by rewrite Hperm|].
  intros id n. rewrite Hperm, (countAt_elem _ id n I1), I2, I3.
  unfold totalPlayCount, countAt. simpl. split.
  - intros [[Hc|Hex] ->]; [inversion Hc|]. split; [done|lia].
  - intros [Hex ->]. split; [by right|lia].
Qed.

Lemma sorted_head_is_max (data : list PopularityEntry) e :
  StronglySorted (fun a b => pop_playCount b <= pop_playCount a) data ->
  e ∈ data -> pop_playCount e <= maxPopularityOf data.
Proof.
  intros Hs He. destruct data as [|d data]; [inversion He|]. simpl.
  apply elem_of_cons in He as [->|He]; [lia|].
  apply StronglySorted_inv in Hs as [_ Hall].
  rewrite Forall_forall in Hall. by apply Hall.
Qed.

Lemma popularity_data_sums_play_counts_aux db :
  StronglySorted (fun a b => pop_playCount b <= pop_playCount a)
    (getAlbumPopularityData None db)
  /\ (forall e, e ∈ getAlbumPopularityData None db ->
        pop_playCount e = totalPlayCount db (pop_albumId e)
        /\ exists la, la ∈ flat_map listenedAlbums (users db)
                      /\ la_albumId la = pop_albumId e).
Proof.
  destruct (popularity_pairs db) as [Hnd Hiff].
  split; [apply sort_sorted_Z|].
  intros e He.
  assert (Hp : (pop_albumId e, pop_playCount e)
               ∈ map (fun e => (pop_albumId e, pop_playCount e))
                   (getAlbumPopularityData None db)).
  { apply list_elem_of_fmap. by exists e. }
  apply Hiff in Hp as [Hex Hn]. done.
Qed.

(** X5. On a cache miss, [getAlbumPopularityData] has exactly one entry
    per album that some user has listened to, holding the sum of that
    album's play counts over all users; the entries are in descending
    order of play count, so [maxPopularity], the count of the first entry,
    bounds every entry. *)
Theorem popularity_data_sums_play_counts db :
  NoDup (map pop_albumId (getAlbumPopularityData None db))
  /\ StronglySorted (fun a b => pop_playCount b <= pop_playCount a)
       (getAlbumPopularityData None db)
  /\ (forall e, e ∈ getAlbumPopularityData None db ->
        pop_playCount e = totalPlayCount db (pop_albumId e)
        /\ pop_playCount e <= maxPopularityOf (getAlbumPopularityData None db)
        /\ exists la, la ∈ flat_map listenedAlbums (users db)
                      /\ la_albumId la = pop_albumId e)
  /\ (forall la, la ∈ flat_map listenedAlbums (users db) ->
        exists e, e ∈ getAlbumPopularityData None db
                  /\ pop_albumId e = la_albumId la).
Proof.
  destruct (popularity_pairs db) as [Hnd Hiff].
  assert (Hs : StronglySorted (fun a b => pop_playCount b <= pop_playCount a)
                 (getAlbumPopularityData None db)).
  { apply sort_sorted_Z. }
  split; [|split; [exact Hs|split]].
  - by rewrite map_map in Hnd.
  - intros e He.
    assert (Hp : (pop_albumId e, pop_playCount e)
                 ∈ map (fun e => (pop_albumId e, pop_playCount e))
                     (getAlbumPopularityData None db)).
    { apply list_elem_of_fmap. by exists e. }
    apply Hiff in Hp as [Hex Hn].
    split; [done|]. split; [by apply sorted_head_is_max|done].
  - intros la Hla.
    assert (Hp : (la_albumId la, totalPlayCount db (la_albumId la))
                 ∈ map (fun e => (pop_albumId e, pop_playCount e))
                     (getAlbumPopularityData None db)).
    { apply Hiff. split; [by exists la|done]. }
    apply list_elem_of_fmap in Hp as (e & Heq & He). inversion Heq.
    by exists e.
Qed.

Lemma popularityMap_lookup (data : list PopularityEntry) id : forall m : gmap string Z,
  let m' := fold_left (fun m item => <[pop_albumId item := pop_playCount item]> m)
              data m in
  m' !! id = m !! id
  \/ exists e, e ∈ data /\ m' !! id = Some (pop_playCount e).
Proof.
  induction data as [|d data IH]; intros m; simpl; [by left|].
  destruct (IH (<[pop_albumId d := pop_playCount d]> m)) as [Heq|(e & He & Heq)].
  - destruct (decide (pop_albumId d = id)) as [<-|Hne].
    + right. exists d. split; [by left|]. by rewrite Heq, lookup_insert_eq.
    + left. by rewrite Heq, lookup_insert_ne.
  - right. exists e. split; [by right|done].
Qed.

Lemma scoreOf_bounds (popularityMap : gmap string Z) maxPopularity pw r album :
  1 <= maxPopularity ->
  0 <= default 0 (popularityMap !! _id album) <= maxPopularity ->
  (0 <= pw <= 1)%Q -> (0 <= r <= 1)%Q ->
  (0 <= scoreOf popularityMap maxPopularity pw r album <= 1)%Q.
Proof.
  intros Hmax [Hp0 Hp1] [Hw0 Hw1] [Hr0 Hr1]. unfold scoreOf.
  set (ps := default 0 (popularityMap !! _id album)) in *.
  assert (Hm : (0 < inject_Z maxPopularity)%Q).
  { change 0%Q with (inject_Z 0). rewrite <- Zlt_Qlt. lia. }
  assert (Hq0 : (0 <= inject_Z ps / inject_Z maxPopularity)%Q).
  { apply Qle_shift_div_l; [done|]. rewrite Qmult_0_l. by apply inject_Z_nonneg. }
  assert (Hq1 : (inject_Z ps / inject_Z maxPopularity <= 1)%Q).
  { apply Qle_shift_div_r; [done|]. rewrite Qmult_1_l. by rewrite <- Zle_Qle. }
  set (q := (inject_Z ps / inject_Z maxPopularity)%Q) in *.
  assert (H1 : (0 <= r * (1 - pw))%Q) by (apply Qmult_le_0_compat; lra).
  assert (H2 : (0 <= q * pw)%Q) by (apply Qmult_le_0_compat; lra).
  assert (H3 : (r * (1 - pw) <= 1 * (1 - pw))%Q)
    by (apply Qmult_le_compat_r; lra).
  assert (H4 : (q * pw <= 1 * pw)%Q) by (apply Qmult_le_compat_r; lra).
  lra.
Qed.

(** X6. When every stored play count is at least 1, the popularity weight
    lies in [0, 1] and [Math.random()] yields values in [0, 1], every
    candidate score computed from uncached popularity data lies in
    [0, 1]. *)
Theorem scores_lie_between_0_and_1 db pw random matching album score :
  (forall la, la ∈ flat_map listenedAlbums (users db) -> 1 <= la_playCount la) ->
  (0 <= pw <= 1)%Q ->
  (forall i, 0 <= random i <= 1)%Q ->
  (album, score) ∈ scoreAlbums (getAlbumPopularityData None db) pw random matching ->
  (0 <= score <= 1)%Q.
Proof.
  intros Hcounts Hpw Hrand Hin.
  destruct (popularity_data_sums_play_counts_aux db) as (Hsorted & Hentry).
  remember (getAlbumPopularityData None db) as data eqn:Hdata. clear Hdata.
  unfold scoreAlbums in Hin.
  apply elem_of_lookup_imap in Hin as (i & a & Heq & _). inversion Heq; subst.
  assert (Hpos : forall e, e ∈ data -> 1 <= pop_playCount e).
  { intros e He. destruct (Hentry e He) as (Htot & (la & Hla & Hid)).
    rewrite Htot. unfold totalPlayCount. clear -Hcounts Hla Hid.
    induction (flat_map listenedAlbums (users db)) as [|x l IH]; [inversion Hla|].
    simpl. assert (Hl : forall y, y ∈ l -> 1 <= la_playCount y)
      by (intros y Hy; apply Hcounts; by right).
    assert (Hnn : 0 <= fold_right
                         (fun la total =>
                            (if bool_decide (la_albumId la = pop_albumId e)
                             then la_playCount la else 0) + total) 0 l).
    { clear -Hl. induction l as [|y l IH]; simpl; [lia|].
      assert (0 <= la_playCount y) by (specialize (Hl y ltac:(by left)); lia).
      assert (IH' := IH ltac:(intros z Hz; apply Hl; by right)).
      case_bool_decide; lia. }
    apply elem_of_cons in Hla as [->|Hla].
    - rewrite bool_decide_eq_true_2 by done.
      specialize (Hcounts x ltac:(by left)). lia.
    - specialize (IH Hl Hla). case_bool_decide; [|lia].
      specialize (Hcounts x ltac:(by left)). lia. }
  apply scoreOf_bounds; try done.
  - destruct data as [|d data'] eqn:E; simpl; [lia|]. apply Hpos. by left.
  - unfold popularityMapOf.
    destruct (popularityMap_lookup data (_id a) ∅) as [Heq'|(e & He & Heq')];
      simpl in Heq'; rewrite Heq'.
    + rewrite lookup_empty. simpl.
      destruct data as [|d data'] eqn:E; simpl; [lia|].
      specialize (Hpos d ltac:(by left)). lia.
    + simpl. split; [specialize (Hpos e He); lia|].
      by apply sorted_head_is_max.
Qed.

Lemma scores_lie_between_0_and_1_witness :
  Forall (fun scored => (0 <= snd scored <= 1)%Q)
    (scoreAlbums (getAlbumPopularityData None zDb) (1 # 2) (fun _ => 1 # 3)
       (albums zDb)).
Proof.
  apply Forall_forall. intros [album score].
  apply (scores_lie_between_0_and_1 zDb (1 # 2) (fun _ => 1 # 3) (albums zDb)).
  - intros la Hla. simpl in Hla.
    repeat (apply elem_of_cons in Hla as [->|Hla]; [simpl; lia|]).
    inversion Hla.
  - lra.
  - intros i. simpl. lra.
Defined.

Lemma Qle_bool_Qeq a b c d :
  (a == c)%Q -> (b == d)%Q -> Qle_bool a b = Qle_bool c d.
Proof.
  intros Hac Hbd. destruct (Qle_bool c d) eqn:E.
  - apply Qle_bool_iff. apply Qle_bool_iff in E. lra.
  - destruct (Qle_bool a b) eqn:E'; [|done].
    apply Qle_bool_iff in E'. assert (Qle_bool c d = true); [|congruence].
    apply Qle_bool_iff. lra.
Qed.

Lemma insertBy_sameScores x1 x2 l1 l2 :
  fst x1 = fst x2 -> (snd x1 == snd x2)%Q -> sameScores l1 l2 ->
  sameScores (insertBy (fun a b => (snd b - snd a)%Q) x1 l1)
    (insertBy (fun a b => (snd b - snd a)%Q) x2 l2).
Proof.
  intros Hf Hs. unfold sameScores. induction 1 as [|y1 y2 l1 l2 [Hyf Hys] Hl IH]; simpl.
  - by repeat constructor.
  - rewrite (Qle_bool_Qeq (snd y1 - snd x1) 0 (snd y2 - snd x2) 0) by lra.
    destruct (Qle_bool (snd y2 - snd x2) 0); by repeat constructor.
Qed.

Lemma sort_sameScores l1 l2 :
  sameScores l1 l2 ->
  sameScores (JS.sort (fun a b => (snd b - snd a)%Q) l1)
    (JS.sort (fun a b => (snd b - snd a)%Q) l2).
Proof.
  induction 1 as [|x1 x2 l1 l2 [Hf Hs] Hl IH]; simpl; [constructor|].
  by apply insertBy_sameScores.
Qed.

Lemma sameScores_albums l1 l2 : sameScores l1 l2 -> map fst l1 = map fst l2.
Proof. induction 1 as [|x1 x2 l1 l2 [Hf _] _ IH]; simpl; congruence. Qed.

Lemma slice0_sameScores n l1 l2 :
  sameScores l1 l2 -> sameScores (slice0 n l1) (slice0 n l2).
Proof.
  intros H. unfold slice0. rewrite (Forall2_length _ _ _ H).
  destruct (n <? 0); by apply Forall2_take.
Qed.

Lemma scoreAlbums_sameScores data pw random1 random2 matching :
  (pw == 1)%Q ->
  sameScores (scoreAlbums data pw random1 matching)
    (scoreAlbums data pw random2 matching).
Proof.
  intros Hpw. unfold scoreAlbums, sameScores.
  revert random1 random2. induction matching as [|a l IH]; intros r1 r2; simpl.
  - constructor.
  - constructor; [|apply (IH (r1 ∘ S) (r2 ∘ S))]. split; [reflexivity|].
    simpl. unfold scoreOf. rewrite Hpw. ring.
Qed.

Lemma selectAlbums_random_free data pw random1 random2 matching maxSize :
  (pw == 1)%Q ->
  selectAlbums maxSize (scoreAlbums data pw random1 matching)
  = selectAlbums maxSize (scoreAlbums data pw random2 matching).
Proof.
  intros Hpw. unfold selectAlbums. apply sameScores_albums, slice0_sameScores,
    sort_sameScores. by apply scoreAlbums_sameScores.
Qed.

(** X7. With a popularity weight of 1, the default, the random term of the
    score has weight 0: the artist-, genre- and listened-album-based
    categories, and with them the whole result of
    [generateRecommendations], do not depend on the values of
    [Math.random()] in the scoring loops. *)
Theorem popularity_weight_1_makes_scoring_deterministic cdnUrl encodeURI normalizeNFD
  toLowerCase localeCompare isValidObjectId cache oracle1 oracle2 db now userId
  weights forceRefresh :
  (popularity (mergeWeights weights) == 1)%Q ->
  shuffleSongs oracle1 = shuffleSongs oracle2 ->
  sample oracle1 = sample oracle2 ->
  generateRecommendations cdnUrl encodeURI normalizeNFD toLowerCase localeCompare
    isValidObjectId cache oracle1 db now userId weights forceRefresh
  = generateRecommendations cdnUrl encodeURI normalizeNFD toLowerCase localeCompare
      isValidObjectId cache oracle2 db now userId weights forceRefresh.
Proof.
  intros Hpw Hsh Hsa. unfold generateRecommendations.
  destruct (if forceRefresh then None else cachedRecommendations cache); [done|].
  destruct (match cachedUser cache with
            | Some u => Some u
            | None => findById db userId
            end) as [user|]; [|done].
  destruct (_ && _); [done|].
  rewrite Hsh, Hsa.
  unfold getArtistBasedRecommendations, getGenreBasedRecommendations,
    getListenedAlbumsRecommendations.
  rewrite (selectAlbums_random_free _ _ (randomArtists oracle1) (randomArtists oracle2))
    by done.
  rewrite (selectAlbums_random_free _ _ (randomGenres oracle1) (randomGenres oracle2))
    by done.
  rewrite (selectAlbums_random_free _ _ (randomListened oracle1) (randomListened oracle2))
    by done.
  reflexivity.
Qed.

Lemma popularity_weight_1_makes_scoring_deterministic_witness :
  generateRecommendations testCdn asciiEncodeURI sampleNFD asciiToLowerCase
    codeUnitCompare noObjectIds noCacheReads constantOracle testDb NOW "u2" None
    false
  = generateRecommendations testCdn asciiEncodeURI sampleNFD asciiToLowerCase
      codeUnitCompare noObjectIds noCacheReads
      {| randomArtists := fun i => 1 # Pos.of_nat (S i);
         randomGenres := fun i => 1 # 7;
         randomListened := fun i => 9 # 10;
         shuffleSongs := shuffleSongs constantOracle;
         sample := sample constantOracle |}
      testDb NOW "u2" None false.
Proof.
  apply popularity_weight_1_makes_scoring_deterministic; reflexivity.
Defined.

(* ===================================================================== *)
(** ** Filtering and deduplication *)
(* ===================================================================== *)

Lemma filter_sublist {A} (f : A -> bool) l : List.filter f l `sublist_of` l.
Proof.
  induction l as [|x l IH]; simpl; [constructor|].
  destruct (f x); by constructor.
Qed.

Lemma filter_elem {A} (f : A -> bool) l x :
  x ∈ List.filter f l <-> x ∈ l /\ f x = true.
Proof. rewrite !list_elem_of_In. apply filter_In. Qed.

(** X8. [filterAlreadyListened] only ever removes candidates and keeps
    their order; it never answers a non-empty candidate list with an empty
    one; and as soon as one candidate has not been listened to, its result
    is exactly the candidates that have not been listened to. *)
Theorem filter_already_listened_keeps_the_unheard recommendations user :
  filterAlreadyListened recommendations user `sublist_of` recommendations
  /\ (recommendations <> [] -> filterAlreadyListened recommendations user <> [])
  /\ ((exists a, a ∈ recommendations
                 /\ _id a ∉ map la_albumId (listenedAlbums user)) ->
      forall a, a ∈ filterAlreadyListened recommendations user <->
                a ∈ recommendations
                /\ _id a ∉ map la_albumId (listenedAlbums user)).
Proof.
  unfold filterAlreadyListened.
  destruct recommendations as [|r0 recs] eqn:E.
  { simpl. split; [constructor|]. split; [done|]. intros (a & Ha & _). inversion Ha. }
  rewrite bool_decide_eq_false_2 by done. rewrite <- E.
  set (keep := fun album : IAlbum =>
                 negb (bool_decide
                         (_id album ∈ (list_to_set (map la_albumId (listenedAlbums user))
                                       : gset string)))).
  assert (Hkeep : forall a, keep a = true
                            <-> _id a ∉ map la_albumId (listenedAlbums user)).
  { intros a. unfold keep. rewrite negb_true_iff, bool_decide_eq_false.
    by rewrite elem_of_list_to_set. }
  destruct (List.filter keep recommendations) as [|f0 fs] eqn:Hf.
  - rewrite bool_decide_eq_true_2 by done.
    assert (Hlen : (0 <? Z.of_nat (length recommendations)) = true).
    { apply Z.ltb_lt. rewrite E. cbn [length]. lia. }
    rewrite Hlen. simpl. rewrite slice0_nonneg by lia.
    split; [apply sublist_take|]. split.
    + intros _. rewrite E. discriminate.
    + intros (a & Ha & Hn). exfalso.
      assert (Hin : a ∈ List.filter keep recommendations).
      { apply filter_elem. split; [done|]. by apply Hkeep. }
      rewrite Hf in Hin. inversion Hin.
  - rewrite bool_decide_eq_false_2 by done. simpl. rewrite <- Hf.
    split; [apply filter_sublist|]. split.
    + intros _. rewrite Hf. discriminate.
    + intros _ a. rewrite filter_elem. by rewrite Hkeep.
Qed.

Section DedupMore.

Variable toLowerCase : jsstring -> jsstring.

Lemma dedupeAlbums_kept arr : forall seen kept seen',
  dedupeAlbums seen arr = (kept, seen') ->
  kept `sublist_of` arr
  /\ (forall a, a ∈ kept -> _id a <> "")
  /\ (forall a, a ∈ arr -> _id a <> "" -> _id a ∈ seen')
  /\ seen ⊆ seen'.
Proof.
  induction arr as [|item rest IH]; intros seen kept seen' Hd; simpl in Hd.
  - inversion Hd; subst. split; [constructor|]. split; [intros a Ha; inversion Ha|].
    split; [intros a Ha; inversion Ha|done].
  - unfold albumKey in Hd. destruct (decide (_id item = "")) as [He|He].
    + rewrite bool_decide_eq_true_2 in Hd by done.
      destruct (IH _ _ _ Hd) as (I1 & I2 & I3 & I4).
      split; [by constructor|]. split; [done|]. split; [|done].
      intros a Ha Hne. apply elem_of_cons in Ha as [->|Ha]; [done|by apply I3].
    + rewrite bool_decide_eq_false_2 in Hd by done.
      destruct (decide (_id item ∈ seen)) as [Hin|Hin].
      * rewrite bool_decide_eq_true_2 in Hd by done.
        destruct (IH _ _ _ Hd) as (I1 & I2 & I3 & I4).
        split; [by constructor|]. split; [done|]. split; [|done].
        intros a Ha Hne. apply elem_of_cons in Ha as [->|Ha]; [set_solver|by apply I3].
      * rewrite bool_decide_eq_false_2 in Hd by done.
        destruct (dedupeAlbums ({[_id item]} ∪ seen) rest) as [kept0 seen0] eqn:Hrec.
        inversion Hd; subst. destruct (IH _ _ _ Hrec) as (I1 & I2 & I3 & I4).
        split; [by constructor|]. split.
        -- intros a Ha. apply elem_of_cons in Ha as [->|Ha]; [done|by apply I2].
        -- split; [|set_solver].
           intros a Ha Hne. apply elem_of_cons in Ha as [->|Ha]; [set_solver|by apply I3].
Qed.

Lemma dedupeAlbums_fixed l : forall seen,
  NoDup (map _id l) ->
  (forall a, a ∈ l -> _id a <> "" /\ _id a ∉ seen) ->
  dedupeAlbums seen l = (l, seen ∪ list_to_set (map _id l)).
Proof.
  induction l as [|a l IH]; intros seen Hnd Hall; simpl.
  - f_equal. set_solver.
  - destruct (Hall a ltac:(by left)) as [Hne Hns].
    unfold albumKey. rewrite bool_decide_eq_false_2 by done.
    rewrite bool_decide_eq_false_2 by done.
    simpl in Hnd. apply NoDup_cons in Hnd as [Ha Hnd].
    rewrite (IH ({[_id a]} ∪ seen) Hnd).
    + f_equal. set_solver.
    + intros b Hb. destruct (Hall b ltac:(by right)) as [Hbn Hbs].
      split; [done|]. intros Hc. apply elem_of_union in Hc as [Hc|Hc]; [|done].
      apply elem_of_singleton in Hc. apply Ha. rewrite <- Hc.
      apply list_elem_of_fmap. by exists b.
Qed.

Lemma dedupeSongs_kept arr : forall seen kept seen',
  dedupeSongs toLowerCase seen arr = (kept, seen') ->
  kept `sublist_of` arr
  /\ seen' = seen ∪ list_to_set (map (songKey toLowerCase) kept)
  /\ (forall s, s ∈ arr -> songKey toLowerCase s ∈ seen').
Proof.
  induction arr as [|song rest IH]; intros seen kept seen' Hd; simpl in Hd.
  - inversion Hd; subst. split; [constructor|]. split; [set_solver|].
    intros s Hs. inversion Hs.
  - destruct (decide (songKey toLowerCase song ∈ seen)) as [Hin|Hin].
    + rewrite bool_decide_eq_true_2 in Hd by done.
      destruct (IH _ _ _ Hd) as (I1 & I2 & I3).
      split; [by constructor|]. split; [done|].
      intros s Hs. apply elem_of_cons in Hs as [->|Hs]; [set_solver|by apply I3].
    + rewrite bool_decide_eq_false_2 in Hd by done.
      destruct (dedupeSongs toLowerCase ({[songKey toLowerCase song]} ∪ seen) rest)
        as [kept0 seen0] eqn:Hrec.
      inversion Hd; subst. destruct (IH _ _ _ Hrec) as (I1 & I2 & I3).
      split; [by constructor|]. split; [rewrite I2; simpl; set_solver|].
      intros s Hs. apply elem_of_cons in Hs as [->|Hs]; [|by apply I3].
      rewrite I2. set_solver.
Qed.

Lemma dedupeSongs_fixed l : forall seen,
  NoDup (map (songKey toLowerCase) l) ->
  (forall s, s ∈ l -> songKey toLowerCase s ∉ seen) ->
  fst (dedupeSongs toLowerCase seen l) = l.
Proof.
  induction l as [|s l IH]; intros seen Hnd Hall; simpl; [done|].
  rewrite bool_decide_eq_false_2 by (apply Hall; by left).
  simpl in Hnd. apply NoDup_cons in Hnd as [Hs Hnd].
  specialize (IH ({[songKey toLowerCase s]} ∪ seen) Hnd).
  destruct (dedupeSongs toLowerCase ({[songKey toLowerCase s]} ∪ seen) l)
    as [kept seen'] eqn:E.
  simpl in *. f_equal. apply IH.
  intros b Hb Hc. apply elem_of_union in Hc as [Hc|Hc].
  - apply elem_of_singleton in Hc. apply Hs. rewrite <- Hc.
    apply list_elem_of_fmap. by exists b.
  - by apply (Hall b ltac:(by right)).
Qed.

(** X9. [removeDuplicates] is idempotent: a result that has been through
    the dedup pass is left unchanged by another pass. *)
Theorem removeDuplicates_is_idempotent recs :
  removeDuplicates toLowerCase (removeDuplicates toLowerCase recs)
  = removeDuplicates toLowerCase recs.
Proof.
  unfold removeDuplicates at 2.
  destruct (dedupeAlbums ∅ (basedOnArtists recs)) as [la s1] eqn:H1.
  destruct (dedupeAlbums s1 (basedOnGenres recs)) as [lg s2] eqn:H2.
  destruct (dedupeAlbums s2 (favoriteAlbums recs)) as [lf s3] eqn:H3.
  destruct (dedupeSongs toLowerCase ∅ (similarToLikedSongs recs)) as [ls s4] eqn:H4.
  destruct (dedupeAlbums_spec _ _ _ _ H1) as (N1 & K1 & E1).
  destruct (dedupeAlbums_spec _ _ _ _ H2) as (N2 & K2 & E2).
  destruct (dedupeAlbums_spec _ _ _ _ H3) as (N3 & K3 & E3).
  destruct (dedupeSongs_spec toLowerCase _ _ _ _ H4) as (N4 & K4).
  destruct (dedupeAlbums_kept _ _ _ _ H1) as (_ & M1 & _).
  destruct (dedupeAlbums_kept _ _ _ _ H2) as (_ & M2 & _).
  destruct (dedupeAlbums_kept _ _ _ _ H3) as (_ & M3 & _).
  unfold removeDuplicates. rewrite H1, H2, H3, H4.
  cbn [basedOnArtists basedOnGenres favoriteAlbums
    similarToLikedSongs basedOnListenedAlbums].
  rewrite (dedupeAlbums_fixed la ∅ N1)
    by (intros a Ha; split; [by apply M1|by apply K1]).
  rewrite <- E1.
  rewrite (dedupeAlbums_fixed lg s1 N2)
    by (intros a Ha; split; [by apply M2|by apply K2]).
  rewrite <- E2.
  rewrite (dedupeAlbums_fixed lf s2 N3)
    by (intros a Ha; split; [by apply M3|by apply K3]).
  rewrite <- E3.
  pose proof (dedupeSongs_fixed ls ∅ N4 K4) as Hs.
  destruct (dedupeSongs toLowerCase ∅ ls) as [ls' s4']. simpl in Hs. subst ls'.
  f_equal.
  destruct (basedOnListenedAlbums recs) as [listened|]; [|done].
  destruct (dedupeAlbums s3 listened) as [l4 s5] eqn:H5.
  destruct (dedupeAlbums_spec _ _ _ _ H5) as (N5 & K5 & E5).
  destruct (dedupeAlbums_kept _ _ _ _ H5) as (_ & M5 & _).
  cbn [fst]. rewrite (dedupeAlbums_fixed l4 s3 N5)
    by (intros a Ha; split; [by apply M5|by apply K5]).
  reflexivity.
Qed.

(** X10. [removeDuplicates] loses no album and no song: each of its lists
    is a sublist of the list it was given, every album with a non-empty id
    of any input list has its id in the result, every album id of the
    artists input stays in basedOnArtists (the first category wins), and
    every song key of the input stays among the returned songs. *)
Theorem removeDuplicates_loses_nothing recs :
  let out := removeDuplicates toLowerCase recs in
  basedOnArtists out `sublist_of` basedOnArtists recs
  /\ basedOnGenres out `sublist_of` basedOnGenres recs
  /\ favoriteAlbums out `sublist_of` favoriteAlbums recs
  /\ default [] (basedOnListenedAlbums out)
     `sublist_of` default [] (basedOnListenedAlbums recs)
  /\ similarToLikedSongs out `sublist_of` similarToLikedSongs recs
  /\ (forall a,
        a ∈ basedOnArtists recs ++ basedOnGenres recs ++ favoriteAlbums recs
            ++ default [] (basedOnListenedAlbums recs) ->
        _id a <> "" -> _id a ∈ albumIdsOf out)
  /\ (forall a, a ∈ basedOnArtists recs -> _id a <> "" ->
                _id a ∈ map _id (basedOnArtists out))
  /\ (forall s, s ∈ similarToLikedSongs recs ->
                songKey toLowerCase s
                ∈ map (songKey toLowerCase) (similarToLikedSongs out)).
Proof.
  intros out. subst out. unfold removeDuplicates, albumIdsOf.
  destruct (dedupeAlbums ∅ (basedOnArtists recs)) as [la s1] eqn:H1.
  destruct (dedupeAlbums s1 (basedOnGenres recs)) as [lg s2] eqn:H2.
  destruct (dedupeAlbums s2 (favoriteAlbums recs)) as [lf s3] eqn:H3.
  destruct (dedupeSongs toLowerCase ∅ (similarToLikedSongs recs)) as [ls s4] eqn:H4.
  destruct (dedupeAlbums_spec _ _ _ _ H1) as (_ & _ & E1).
  destruct (dedupeAlbums_spec _ _ _ _ H2) as (_ & _ & E2).
  destruct (dedupeAlbums_spec _ _ _ _ H3) as (_ & _ & E3).
  destruct (dedupeAlbums_kept _ _ _ _ H1) as (S1 & _ & C1 & _).
  destruct (dedupeAlbums_kept _ _ _ _ H2) as (S2 & _ & C2 & I2).
  destruct (dedupeAlbums_kept _ _ _ _ H3) as (S3 & _ & C3 & I3).
  destruct (dedupeSongs_kept _ _ _ _ H4) as (S4 & E4 & C4).
  cbn [basedOnArtists basedOnGenres favoriteAlbums similarToLikedSongs
       basedOnListenedAlbums].
  assert (Hids : forall x, x ∈ s3 ->
                   x ∈ map _id la ++ map _id lg ++ map _id lf).
  { intros x Hx. rewrite E3, E2, E1 in Hx. rewrite !elem_of_app. set_solver. }
  split; [done|]. split; [done|]. split; [done|].
  destruct (basedOnListenedAlbums recs) as [listened|]; cbn [default from_option id].
  - destruct (dedupeAlbums s3 listened) as [l4 s5] eqn:H5. cbn [fst].
    destruct (dedupeAlbums_spec _ _ _ _ H5) as (_ & _ & E5).
    destruct (dedupeAlbums_kept _ _ _ _ H5) as (S5 & _ & C5 & I5).
    split; [done|]. split; [done|]. split; [|split].
    + intros a Ha Hne.
      assert (Hx : _id a ∈ s5).
      { rewrite !elem_of_app in Ha. destruct Ha as [Ha|[Ha|[Ha|Ha]]].
        - apply I5, I3, I2. by apply C1.
        - apply I5, I3. by apply C2.
        - apply I5. by apply C3.
        - by apply C5. }
      rewrite E5 in Hx. apply elem_of_union in Hx as [Hx|Hx].
      * specialize (Hids _ Hx). rewrite !elem_of_app in *. tauto.
      * apply elem_of_list_to_set in Hx. rewrite !elem_of_app. tauto.
    + intros a Ha Hne. specialize (C1 a Ha Hne). rewrite E1 in C1. set_solver.
    + intros s Hs. specialize (C4 s Hs). rewrite E4 in C4. set_solver.
  - split; [constructor|]. split; [done|]. split; [|split].
    + intros a Ha Hne. rewrite app_nil_r in *.
      assert (Hx : _id a ∈ s3).
      { rewrite !elem_of_app in Ha. destruct Ha as [Ha|[Ha|Ha]].
        - apply I3, I2. by apply C1.
        - apply I3. by apply C2.
        - by apply C3. }
      by apply Hids.
    + intros a Ha Hne. specialize (C1 a Ha Hne). rewrite E1 in C1. set_solver.
    + intros s Hs. specialize (C4 s Hs). rewrite E4 in C4. set_solver.
Qed.

End DedupMore.

(* ===================================================================== *)
(** ** Errors of the recommendation service and its controller *)
(* ===================================================================== *)

Lemma bindT_inl {A B} (m : throws A) (k : A -> throws B) e :
  bindT m k = inl e -> m = inl e \/ exists a, m = inr a /\ k a = inl e.
Proof. destruct m as [e'|a]; simpl; [intros [= ->]; by left|eauto]. Qed.

Lemma mapT_inl {A B} (f : A -> throws B) l e :
  mapT f l = inl e -> exists x, x ∈ l /\ f x = inl e.
Proof.
  induction l as [|x r IH]; simpl; [discriminate|].
  intros H. apply bindT_inl in H as [H|(y & _ & H)].
  - exists x. split; [by left|done].
  - apply bindT_inl in H as [H|(ys & _ & H)]; [|discriminate].
    destruct (IH H) as (x' & Hx & Hf). exists x'. split; [by right|done].
Qed.

Section ErrorFacts.

Variable cdnUrl : option string.
Variable encodeURI : string -> string.
Variable normalizeNFD : jsstring -> jsstring.
Variable toLowerCase : jsstring -> jsstring.
Variable localeCompare : jsstring -> jsstring -> Q.
Variable isValidObjectId : option string -> bool.
Variable verifyToken : string -> throws string.

Lemma formatCoverUrl_error c e :
  formatCoverUrl cdnUrl encodeURI c = inl e -> CdnMissing cdnUrl e.
Proof.
  unfold formatCoverUrl, CdnMissing.
  destruct (bool_decide (trim (codes c) = [])); [discriminate|].
  destruct (_ && _); [|discriminate].
  destruct cdnUrl as [url|].
  - destruct (decide (url = "")) as [->|Hu].
    + intros [= <-]. split; [done|by right].
    + rewrite bool_decide_eq_false_2 by done. discriminate.
  - intros [= <-]. split; [done|by left].
Qed.

Lemma formatAlbum_error a e :
  formatAlbum cdnUrl encodeURI normalizeNFD a = inl e -> CdnMissing cdnUrl e.
Proof.
  unfold formatAlbum. intros H.
  apply bindT_inl in H as [H|(? & _ & H)]; [|discriminate].
  by apply formatCoverUrl_error in H.
Qed.

Lemma formatFavorite_error a e :
  formatFavorite cdnUrl encodeURI normalizeNFD a = inl e -> CdnMissing cdnUrl e.
Proof.
  unfold formatFavorite. intros H.
  apply bindT_inl in H as [H|(? & _ & H)]; [|discriminate].
  by apply formatCoverUrl_error in H.
Qed.

Lemma formatSong_error s e :
  formatSong cdnUrl encodeURI normalizeNFD s = inl e -> CdnMissing cdnUrl e.
Proof.
  unfold formatSong. intros H.
  apply bindT_inl in H as [H|(? & _ & H)]; [|discriminate].
  by apply formatCoverUrl_error in H.
Qed.

Lemma getFavoriteAlbums_error cached db sample_ userId e :
  getFavoriteAlbums cdnUrl encodeURI normalizeNFD localeCompare cached db sample_
    userId = inl e ->
  CdnMissing cdnUrl e.
Proof.
  unfold getFavoriteAlbums. destruct cached; [discriminate|].
  destruct (bool_decide (_ = [])); [discriminate|].
  destruct (bool_decide (_ = [])); [discriminate|].
  intros H. apply bindT_inl in H as [H|(? & _ & H)]; [|discriminate].
  apply mapT_inl in H as (x & _ & H). by apply formatFavorite_error in H.
Qed.

Lemma getArtistBasedRecommendations_error cr cp db random artists w pw e :
  getArtistBasedRecommendations cdnUrl encodeURI normalizeNFD cr cp db random
    artists w pw = inl e ->
  CdnMissing cdnUrl e.
Proof.
  unfold getArtistBasedRecommendations.
  destruct (bool_decide (_ = [])); [discriminate|].
  destruct cr; [discriminate|].
  intros H. apply mapT_inl in H as (x & _ & H). by apply formatAlbum_error in H.
Qed.

Lemma getGenreBasedRecommendations_error cr cp db random genres w pw e :
  getGenreBasedRecommendations cdnUrl encodeURI normalizeNFD cr cp db random
    genres w pw = inl e ->
  CdnMissing cdnUrl e.
Proof.
  unfold getGenreBasedRecommendations.
  destruct (bool_decide (_ = [])); [discriminate|].
  destruct cr; [discriminate|].
  intros H. apply mapT_inl in H as (x & _ & H). by apply formatAlbum_error in H.
Qed.

Lemma getSongBasedRecommendations_error cr db shuffle songs_ w pw e :
  getSongBasedRecommendations cdnUrl encodeURI normalizeNFD cr db shuffle songs_
    w pw = inl e ->
  CdnMissing cdnUrl e.
Proof.
  unfold getSongBasedRecommendations.
  destruct (bool_decide (_ = [])); [discriminate|].
  destruct cr; [discriminate|].
  intros H. apply mapT_inl in H as (x & _ & H). by apply formatSong_error in H.
Qed.

Lemma getListenedAlbumsRecommendations_error cr cp db random user w pw e :
  getListenedAlbumsRecommendations cdnUrl encodeURI normalizeNFD isValidObjectId
    cr cp db random user w pw = inl e ->
  CdnMissing cdnUrl e.
Proof.
  unfold getListenedAlbumsRecommendations.
  destruct (bool_decide (_ = [])); [discriminate|].
  destruct cr; [discriminate|].
  intros H. apply bindT_inl in H as [H|(? & _ & H)]; [|discriminate].
  apply mapT_inl in H as (x & _ & H). by apply formatAlbum_error in H.
Qed.

Lemma generateRecommendations_errors cache oracle db now userId weights
  (forceRefresh : bool) e :
  generateRecommendations cdnUrl encodeURI normalizeNFD toLowerCase localeCompare
    isValidObjectId cache oracle db now userId weights forceRefresh = inl e ->
  (if forceRefresh then None else cachedRecommendations cache) = None
  /\ ((e = Error "User not found" /\ userRead cache db userId = None)
      \/ (e = Error "No listening history available for recommendations"
          /\ exists user, userRead cache db userId = Some user
                          /\ listenedAlbums user = []
                          /\ listenedSongs user = [])
      \/ (CdnMissing cdnUrl e
          /\ exists user, userRead cache db userId = Some user
                          /\ ~ (listenedAlbums user = []
                                /\ listenedSongs user = []))).
Proof.
  unfold generateRecommendations. fold (userRead cache db userId).
  destruct (if forceRefresh then None else cachedRecommendations cache);
    [discriminate|].
  intros H. split; [done|].
  destruct (userRead cache db userId) as [user|].
  2:{ left. by inversion H. }
  right.
  destruct (decide (length (listenedAlbums user) = 0%nat)) as [Ha|Ha];
    [rewrite bool_decide_eq_true_2 in H by done
    |rewrite bool_decide_eq_false_2 in H by done];
    (destruct (decide (length (listenedSongs user) = 0%nat)) as [Hs|Hs];
     [rewrite bool_decide_eq_true_2 in H by done
     |rewrite bool_decide_eq_false_2 in H by done]);
    cbn [andb] in H.
  1:{ left. split; [by inversion H|]. exists user.
      apply length_zero_iff_nil in Ha. apply length_zero_iff_nil in Hs. done. }
  all: right; split;
    [|exists user; split; [done|]; intros [Ha' Hs'];
      first [apply Ha; by rewrite Ha'|apply Hs; by rewrite Hs']].
  all: apply bindT_inl in H as [H|(? & _ & H)];
    [by apply getFavoriteAlbums_error in H|];
    apply bindT_inl in H as [H|(? & _ & H)];
    [by apply getArtistBasedRecommendations_error in H|];
    apply bindT_inl in H as [H|(? & _ & H)];
    [by apply getGenreBasedRecommendations_error in H|];
    apply bindT_inl in H as [H|(? & _ & H)];
    [by apply getSongBasedRecommendations_error in H|];
    apply bindT_inl in H as [H|(? & _ & H)];
    [by apply getListenedAlbumsRecommendations_error in H|discriminate].
Qed.

(** X11. [generateRecommendations] fails in exactly three ways, and only
    when it does not serve a cached result: "User not found" when there is
    no user document; "No listening history available for recommendations"
    when the user has neither listened songs nor listened albums; and, for
    a user with history, "CDN_URL environment variable is not set." when
    [CDN_URL] is unset or empty. *)
Theorem generateRecommendations_fails_in_three_ways cache oracle db now userId
  weights (forceRefresh : bool) e :
  generateRecommendations cdnUrl encodeURI normalizeNFD toLowerCase localeCompare
    isValidObjectId cache oracle db now userId weights forceRefresh = inl e ->
  (if forceRefresh then None else cachedRecommendations cache) = None
  /\ ((e = Error "User not found" /\ userRead cache db userId = None)
      \/ (e = Error "No listening history available for recommendations"
          /\ exists user, userRead cache db userId = Some user
                          /\ listenedAlbums user = []
                          /\ listenedSongs user = [])
      \/ (e = Error "CDN_URL environment variable is not set."
          /\ (cdnUrl = None \/ cdnUrl = Some "")
          /\ exists user, userRead cache db userId = Some user
                          /\ ~ (listenedAlbums user = []
                                /\ listenedSongs user = []))).
Proof.
  intros H. apply generateRecommendations_errors in H as [Hc H].
  split; [done|]. destruct H as [H|[H|[[He Hu] H]]].
  - by left.
  - right. by left.
  - right. right. done.
Qed.

(** X12. The recommendations controller answers 401 exactly when the
    request carries no token (an empty bearer token counts as none and is
    not a value of [token]), 200 exactly when the token verifies and the
    service returns a result (which is then the body), and otherwise 404 or
    500; every 500 carries the fixed message "Failed to generate
    recommendations", and that is the answer for a verified token whose
    user does not exist. *)
Theorem controller_status_codes cache oracle db now token :
  token <> Some "" ->
  let response :=
    getPersonalizedRecommendations cdnUrl encodeURI normalizeNFD toLowerCase localeCompare
      isValidObjectId verifyToken cache oracle db now token in
  (status response = 401 <-> token = None)
  /\ (status response = 200 <->
      exists t userId r,
        token = Some t /\ verifyToken t = inr userId
        /\ generateRecommendations cdnUrl encodeURI normalizeNFD toLowerCase localeCompare
             isValidObjectId cache oracle db now userId None false = inr r
        /\ body response = BodyRecommendations r)
  /\ status response ∈ [200; 401; 404; 500]
  /\ (status response = 500 ->
      body response = BodyError "Failed to generate recommendations")
  /\ (forall t userId,
        token = Some t -> verifyToken t = inr userId ->
        cachedRecommendations cache = None ->
        userRead cache db userId = None ->
        response = handleError 500 "Failed to generate recommendations").
Proof.
  intros _ response. subst response. unfold getPersonalizedRecommendations.
  destruct token as [t|].
  2:{ simpl. split; [done|]. split.
      - split; [discriminate|]. intros (? & ? & ? & ? & _). discriminate.
      - split; [set_solver|]. split; [discriminate|]. intros; discriminate. }
  destruct (verifyToken t) as [[m]|userId] eqn:Hv; cbn [bindT].
  - destruct (includes _ _); simpl.
    + split; [split; discriminate|]. split.
      * split; [discriminate|]. intros (? & ? & ? & [= <-] & ? & _). congruence.
      * split; [set_solver|]. split; [discriminate|]. intros ? ? [= <-]. congruence.
    + split; [split; discriminate|]. split.
      * split; [discriminate|]. intros (? & ? & ? & [= <-] & ? & _). congruence.
      * split; [set_solver|]. split; [done|]. intros ? ? [= <-]. congruence.
  - destruct (generateRecommendations _ _ _ _ _ _ _ _ _ _ _ _) as [[m]|r] eqn:Hg.
    + assert (Hnot200 : ~ exists t0 userId0 r0,
                 Some t = Some t0 /\ verifyToken t0 = inr userId0
                 /\ generateRecommendations cdnUrl encodeURI normalizeNFD toLowerCase
                      localeCompare isValidObjectId cache oracle db now userId0
                      None false = inr r0
                 /\ body (if includes (codes "No listening history") (codes m)
                          then handleError 404 m
                          else handleError 500 "Failed to generate recommendations")
                    = BodyRecommendations r0).
      { intros (t0 & u0 & r0 & [= <-] & Hv0 & Hg0 & _).
        rewrite Hv in Hv0. inversion Hv0; subst. congruence. }
      assert (Hunknown : forall t0 userId0,
                 Some t = Some t0 -> verifyToken t0 = inr userId0 ->
                 cachedRecommendations cache = None ->
                 userRead cache db userId0 = None ->
                 m = "User not found").
      { intros t0 u0 [= <-] Hv0 Hc Hu. rewrite Hv in Hv0. inversion Hv0; subst.
        apply generateRecommendations_errors in Hg as [_ Hg].
        destruct Hg as [[He _]|[(_ & user & Hu' & _)|(_ & user & Hu' & _)]];
          [by inversion He|congruence|congruence]. }
      destruct (includes (codes "No listening history") (codes m)) eqn:Hi; simpl.
      * split; [split; discriminate|]. split; [split; [discriminate|done]|].
        split; [set_solver|]. split; [discriminate|].
        intros t0 u0 Ht Hv0 Hc Hu. rewrite (Hunknown t0 u0 Ht Hv0 Hc Hu) in Hi.
        vm_compute in Hi. discriminate.
      * split; [split; discriminate|]. split; [split; [discriminate|done]|].
        split; [set_solver|]. split; [done|]. done.
    + simpl. split; [split; discriminate|]. split.
      * split; [|done]. intros _. by exists t, userId, r.
      * split; [set_solver|]. split; [discriminate|].
        intros t0 u0 [= <-] Hv0 Hc Hu. rewrite Hv in Hv0. inversion Hv0; subst.
        exfalso. unfold generateRecommendations in Hg. rewrite Hc in Hg.
        fold (userRead cache db u0) in Hg. rewrite Hu in Hg. discriminate.
Qed.

End ErrorFacts.

Lemma controller_status_codes_witness :
  let response :=
    getPersonalizedRecommendations testCdn asciiEncodeURI sampleNFD asciiToLowerCase
      codeUnitCompare noObjectIds acceptToken noCacheReads constantOracle testDb
      NOW (Some "u2") in
  (status response = 401 <-> Some "u2" = None)
  /\ (status response = 200 <->
      exists t userId r,
        Some "u2" = Some t /\ acceptToken t = inr userId
        /\ generateRecommendations testCdn asciiEncodeURI sampleNFD asciiToLowerCase
             codeUnitCompare noObjectIds noCacheReads constantOracle testDb NOW
             userId None false = inr r
        /\ body response = BodyRecommendations r)
  /\ status response ∈ [200; 401; 404; 500]
  /\ (status response = 500 ->
      body response = BodyError "Failed to generate recommendations")
  /\ (forall t userId,
        Some "u2" = Some t -> acceptToken t = inr userId ->
        cachedRecommendations noCacheReads = None ->
        userRead noCacheReads testDb userId = None ->
        response = handleError 500 "Failed to generate recommendations").
Proof.
  apply (controller_status_codes testCdn asciiEncodeURI sampleNFD asciiToLowerCase
           codeUnitCompare noObjectIds acceptToken noCacheReads constantOracle
           testDb NOW (Some "u2")).
  discriminate.
Defined.

Lemma generateRecommendations_fails_in_three_ways_witness :
  (if false then None else cachedRecommendations noCacheReads) = None
  /\ ((Error "CDN_URL environment variable is not set." = Error "User not found"
       /\ userRead noCacheReads testDb "u2" = None)
      \/ (Error "CDN_URL environment variable is not set."
          = Error "No listening history available for recommendations"
          /\ exists user, userRead noCacheReads testDb "u2" = Some user
                          /\ listenedAlbums user = []
                          /\ listenedSongs user = [])
      \/ (Error "CDN_URL environment variable is not set."
          = Error "CDN_URL environment variable is not set."
          /\ ((None : option string) = None \/ (None : option string) = Some "")
          /\ exists user, userRead noCacheReads testDb "u2" = Some user
                          /\ ~ (listenedAlbums user = []
                                /\ listenedSongs user = []))).
Proof.
  apply (generateRecommendations_fails_in_three_ways None asciiEncodeURI
           sampleNFD asciiToLowerCase codeUnitCompare noObjectIds noCacheReads
           constantOracle testDb NOW "u2" None false).
  vm_compute. reflexivity.
Defined.

(* ===================================================================== *)
(** ** The wrapped controller: percentiles *)
(* ===================================================================== *)

Lemma Math_max_bounds a b u :
  (a <= u)%Q -> (b <= u)%Q -> (a <= Math_max a b)%Q /\ (Math_max a b <= u)%Q.
Proof.
  intros Ha Hb. unfold Math_max. destruct (Qle_bool a b) eqn:E.
  - apply Qle_bool_iff in E. split; [done|lra].
  - split; [lra|done].
Qed.

Lemma round1_bounds x :
  (1 # 10 <= x)%Q -> (x <= 100)%Q ->
  (1 # 10 <= round1 x)%Q /\ (round1 x <= 100)%Q.
Proof.
  intros Hl Hu. unfold round1, Math_round.
  assert (H1 : 1 <= Qfloor (x * 10 + (1 # 2))).
  { apply Z.le_trans with (Qfloor (3 # 2)); [done|]. apply Qfloor_resp_le. lra. }
  assert (H2 : Qfloor (x * 10 + (1 # 2)) <= 1000).
  { apply Z.le_trans with (Qfloor (2001 # 2)); [|done]. apply Qfloor_resp_le. lra. }
  rewrite Zle_Qle in H1, H2.
  change (inject_Z 1) with 1%Q in H1. change (inject_Z 1000) with 1000%Q in H2.
  unfold Qdiv. change (/ 10)%Q with (1 # 10)%Q.
  split; lra.
Qed.

Lemma percentileOf_bounds albumMap counts userStat :
  let r := percentileOf albumMap counts userStat in
  (0 <= percentile r)%Q /\ (percentile r <= 100)%Q
  /\ (1 # 10 <= topPercent r)%Q /\ (topPercent r <= 100)%Q.
Proof.
  intros r. split; [apply percentileOf_nonneg|].
  pose proof (percentileOf_nonneg albumMap counts userStat) as Hnn.
  subst r. revert Hnn. unfold percentileOf.
  set (plays := default [] (counts !! userStat.1)).
  destruct (Z.of_nat (length plays) <=? 1); cbn [percentile topPercent].
  { intros _. unfold MIN_TOP_PERCENT. split; [lra|]. split; lra. }
  set (better := List.filter (fun count => count <? userStat.2) plays).
  intros Hnn.
  assert (Hp : ((if 0 <? Z.of_nat (length plays)
                 then inject_Z (Z.of_nat (length better))
                      / inject_Z (Z.of_nat (length plays)) * 100
                 else 0) <= 100)%Q).
  { destruct (Z.ltb_spec 0 (Z.of_nat (length plays))) as [Hpos|Hpos]; [|lra].
    assert (Hle : (inject_Z (Z.of_nat (length better))
                   / inject_Z (Z.of_nat (length plays)) <= 1)%Q).
    { apply Qle_shift_div_r.
      - change 0%Q with (inject_Z 0). rewrite <- Zlt_Qlt. lia.
      - rewrite Qmult_1_l. rewrite <- Zle_Qle. apply inj_le.
        apply List.filter_length_le. }
    lra. }
  split; [done|].
  apply round1_bounds.
  - apply Math_max_bounds with (u := 100%Q); unfold MIN_TOP_PERCENT; lra.
  - apply Math_max_bounds with (u := 100%Q); unfold MIN_TOP_PERCENT; lra.
Qed.

(** X13. [calculateListeningPercentiles] returns one result per listened
    album of the user, in order, carrying that album's id and play count;
    every percentile lies between 0 and 100 and every topPercent between
    0.1 and 100. *)
Theorem listening_percentiles_stay_in_range allUsers currentUser albumMap :
  let results := calculateListeningPercentiles allUsers currentUser albumMap in
  map pr_albumId results = map la_albumId (listenedAlbums currentUser)
  /\ map pr_totalListens results = map la_playCount (listenedAlbums currentUser)
  /\ Forall (fun r => (0 <= percentile r)%Q /\ (percentile r <= 100)%Q
                      /\ (1 # 10 <= topPercent r)%Q /\ (topPercent r <= 100)%Q)
       results.
Proof.
  intros results. subst results. unfold calculateListeningPercentiles.
  split; [|split].
  - rewrite !map_map. apply map_ext. intros la. unfold percentileOf. simpl.
    by destruct (_ <=? 1).
  - rewrite !map_map. apply map_ext. intros la. unfold percentileOf. simpl.
    by destruct (_ <=? 1).
  - apply List.Forall_forall. intros r Hr.
    apply in_map_iff in Hr as (st & <- & _). apply percentileOf_bounds.
Qed.

(* ===================================================================== *)
(** ** The wrapped controller: aggregation by artist *)
(* ===================================================================== *)

Lemma artistStatsMapOf_visits ps : forall m,
  fold_left
    (fun m albumStat =>
       fold_left (fun m name => updateArtist albumStat name m)
         (pr_artist albumStat) m)
    ps m
  = fold_left (fun m v => updateArtist (snd v) (fst v) m) (artistVisits ps) m.
Proof.
  induction ps as [|p ps IH]; intros m; [done|].
  unfold artistVisits. cbn [fold_left flat_map]. rewrite fold_left_app.
  fold (artistVisits ps). rewrite IH. f_equal.
  generalize m. induction (pr_artist p) as [|n names IHn]; intros m0; [done|].
  cbn [fold_left map]. by rewrite IHn.
Qed.

Lemma visits_NoDup vs : forall m,
  NoDup (map fst m) ->
  NoDup (map fst (fold_left (fun m v => updateArtist (snd v) (fst v) m) vs m)).
Proof.
  induction vs as [|v vs IH]; intros m Hm; [done|].
  cbn [fold_left]. apply IH. by apply updateArtist_NoDup.
Qed.

Lemma visits_keys vs : forall m k,
  k ∈ map fst (fold_left (fun m v => updateArtist (snd v) (fst v) m) vs m)
  <-> k ∈ map fst m \/ k ∈ map fst vs.
Proof.
  induction vs as [|v vs IH]; intros m k.
  - simpl. split; [by left|]. intros [H|H]; [done|inversion H].
  - cbn [fold_left map]. rewrite IH, updateArtist_keys, setAdd_elem, elem_of_cons.
    tauto.
Qed.

Lemma lookupAcc_updateArtist k p n m :
  lookupAcc k (updateArtist p n m)
  = if decide (n = k) then Some (accStep p (default accInit (lookupAcc k m)))
    else lookupAcc k m.
Proof.
  induction m as [|[k' a] r IH]; simpl.
  - destruct (decide (n = k)); [done|]. done.
  - destruct (decide (k' = n)) as [->|Hne]; simpl.
    + destruct (decide (n = k)); [done|done].
    + destruct (decide (k' = k)) as [->|Hk].
      * destruct (decide (n = k)); [congruence|done].
      * exact IH.
Qed.

Lemma lookupAcc_visits k vs : forall m,
  let mine := map snd (List.filter (fun v => bool_decide (fst v = k)) vs) in
  lookupAcc k (fold_left (fun m v => updateArtist (snd v) (fst v) m) vs m)
  = match mine with
    | [] => lookupAcc k m
    | _ => Some (fold_left (fun a p => accStep p a) mine
                   (default accInit (lookupAcc k m)))
    end.
Proof.
  induction vs as [|[n p] vs IH]; intros m; [done|].
  cbn [fold_left List.filter fst snd]. cbv zeta in IH. rewrite IH.
  rewrite lookupAcc_updateArtist.
  destruct (decide (n = k)) as [->|Hne].
  - rewrite bool_decide_eq_true_2 by done. cbn [map fold_left snd].
    by destruct (map snd _).
  - rewrite bool_decide_eq_false_2 by done. done.
Qed.

Lemma lookupAcc_elem k a m :
  NoDup (map fst m) -> ((k, a) ∈ m <-> lookupAcc k m = Some a).
Proof.
  induction m as [|[k' a'] r IH]; intros Hnd; simpl.
  - split; [intros H; inversion H|discriminate].
  - simpl in Hnd. apply NoDup_cons in Hnd as [Hk' Hnd].
    rewrite elem_of_cons. destruct (decide (k' = k)) as [->|Hne].
    + split.
      * intros [[= ->]|Hin]; [done|]. exfalso. apply Hk'.
        apply list_elem_of_fmap. by exists (k, a).
      * intros [= ->]. by left.
    + rewrite <- (IH Hnd). split; [intros [[= ? ?]|?]; [congruence|done]|by right].
Qed.

Lemma accSteps_total l : forall a0,
  acc_totalListens (fold_left (fun a p => accStep p a) l a0)
  = acc_totalListens a0 + sumZ (map pr_totalListens l).
Proof.
  induction l as [|p l IH]; intros a0; simpl; [lia|]. rewrite IH. simpl. lia.
Qed.

Lemma accSteps_best l : forall a0,
  let best := acc_bestPercentile (fold_left (fun a p => accStep p a) l a0) in
  (best <= acc_bestPercentile a0)%Q
  /\ Forall (fun p => (best <= percentile p)%Q) l
  /\ (best = acc_bestPercentile a0 \/ exists p, p ∈ l /\ best = percentile p).
Proof.
  induction l as [|p l IH]; intros a0; simpl.
  - split; [lra|]. split; [constructor|by left].
  - destruct (IH (accStep p a0)) as (I1 & I2 & I3). cbn [accStep acc_bestPercentile] in *.
    assert (Hmin : (Math_min (acc_bestPercentile a0) (percentile p)
                    <= acc_bestPercentile a0)%Q
                   /\ (Math_min (acc_bestPercentile a0) (percentile p)
                       <= percentile p)%Q).
    { unfold Math_min. destruct (Qle_bool _ _) eqn:E.
      - apply Qle_bool_iff in E. split; lra.
      - assert (~ (acc_bestPercentile a0 <= percentile p)%Q).
        { intros H. apply Qle_bool_iff in H. congruence. }
        split; lra. }
    split; [lra|]. split.
    + constructor; [lra|done].
    + destruct I3 as [I3|(q & Hq & I3)].
      * rewrite I3. unfold Math_min. destruct (Qle_bool _ _); [by left|].
        right. exists p. split; [by left|done].
      * right. exists q. split; [by right|done].
Qed.

Lemma accSteps_albumIds l : forall a0,
  let ids := acc_albumIds (fold_left (fun a p => accStep p a) l a0) in
  (NoDup (acc_albumIds a0) -> NoDup ids)
  /\ forall id, id ∈ ids <-> id ∈ acc_albumIds a0 \/ id ∈ map pr_albumId l.
Proof.
  induction l as [|p l IH]; intros a0; simpl.
  - split; [done|]. intros id. split; [by left|]. intros [H|H]; [done|inversion H].
  - destruct (IH (accStep p a0)) as (I1 & I2). cbn [accStep acc_albumIds] in *.
    split.
    + intros Hnd. apply I1. by apply setAdd_NoDup.
    + intros id. rewrite I2, setAdd_elem, elem_of_cons. tauto.
Qed.

Lemma visitsOf_elem name ps p :
  p ∈ visitsOf name ps <-> p ∈ ps /\ name ∈ pr_artist p.
Proof.
  unfold visitsOf, artistVisits. rewrite list_elem_of_fmap. split.
  - intros ([n q] & -> & Hin). apply list_elem_of_In, filter_In in Hin as [Hin Hf].
    apply bool_decide_eq_true in Hf. simpl in Hf. subst n.
    apply in_flat_map in Hin as (st & Hst & Hin).
    apply in_map_iff in Hin as (n & [= <- <-] & Hn).
    split; by apply list_elem_of_In.
  - intros [Hp Hn]. exists (name, p). split; [done|].
    apply list_elem_of_In, filter_In. split.
    + apply in_flat_map. exists p. split; [by apply list_elem_of_In|].
      apply in_map_iff. exists name. split; [done|by apply list_elem_of_In].
    + by apply bool_decide_eq_true.
Qed.

(** X14. [aggregateArtistStats] lists every artist of the album statistics
    exactly once. For each artist, totalListens is the sum of the listens
    of the statistics visited for that artist (one visit per occurrence of
    the name in an album's artist array), bestPercentile is at most 100 and
    at most the percentile of each of these statistics, and is 100 or the
    percentile of one of them, and albumIds are their album ids without
    repetition. *)
Theorem artist_stats_aggregate_every_visit ps :
  let agg := aggregateArtistStats ps in
  NoDup (map artistName agg)
  /\ (forall name, name ∈ map artistName agg <->
                   exists p, p ∈ ps /\ name ∈ pr_artist p)
  /\ (forall name p, p ∈ visitsOf name ps <-> p ∈ ps /\ name ∈ pr_artist p)
  /\ Forall
       (fun s =>
          let visited := visitsOf (artistName s) ps in
          as_totalListens s = sumZ (map pr_totalListens visited)
          /\ (bestPercentile s <= 100)%Q
          /\ Forall (fun p => (bestPercentile s <= percentile p)%Q) visited
          /\ (bestPercentile s = 100%Q
              \/ exists p, p ∈ visited /\ bestPercentile s = percentile p)
          /\ NoDup (albumIds s)
          /\ forall id, id ∈ albumIds s <-> id ∈ map pr_albumId visited)
       agg.
Proof.
  intros agg. subst agg. unfold aggregateArtistStats, artistStatsMapOf.
  rewrite artistStatsMapOf_visits.
  set (m := fold_left (fun m v => updateArtist (snd v) (fst v) m)
              (artistVisits ps) []).
  assert (Hnd : NoDup (map fst m)) by (apply visits_NoDup; constructor).
  assert (Hnames : map artistName
                     (map (fun '(name, stats) =>
                             {| artistName := name;
                                as_totalListens := acc_totalListens stats;
                                bestPercentile :=
                                  if Qle_bool (acc_bestPercentile stats) 100
                                  then acc_bestPercentile stats else 100;
                                albumIds := acc_albumIds stats |}) m)
                   = map fst m).
  { rewrite map_map. apply map_ext. by intros [k a]. }
  split; [by rewrite Hnames|]. split.
  { intros name. rewrite Hnames. subst m. rewrite visits_keys. split.
    - intros [H|H]; [inversion H|].
      apply list_elem_of_fmap in H as ([n p] & -> & Hin).
      apply list_elem_of_In, in_flat_map in Hin as (st & Hst & Hin).
      apply in_map_iff in Hin as (n' & [= <- <-] & Hn).
      exists st. split; by apply list_elem_of_In.
    - intros (p & Hp & Hn). right. apply list_elem_of_fmap. exists (name, p).
      split; [done|]. apply list_elem_of_In, in_flat_map. exists p.
      split; [by apply list_elem_of_In|]. apply in_map_iff. exists name.
      split; [done|by apply list_elem_of_In]. }
  split; [intros name p; apply visitsOf_elem|].
  apply List.Forall_forall. intros s Hs.
  apply in_map_iff in Hs as ([k a] & <- & Hka). cbn [artistName as_totalListens
    bestPercentile albumIds]. cbv zeta.
  apply list_elem_of_In, (lookupAcc_elem k a m Hnd) in Hka.
  subst m. rewrite lookupAcc_visits in Hka. cbv zeta in Hka.
  fold (visitsOf k ps) in Hka. simpl in Hka.
  destruct (visitsOf k ps) as [|p0 visited] eqn:Hv; [discriminate|].
  inversion Hka as [Ha]. clear Hka.
  pose proof (accSteps_total (p0 :: visited) accInit) as Ht.
  pose proof (accSteps_best (p0 :: visited) accInit) as (B1 & B2 & B3).
  pose proof (accSteps_albumIds (p0 :: visited) accInit) as (D1 & D2).
  cbv zeta in *. cbn [fold_left] in Ht, B1, B2, B3, D1, D2. rewrite Ha in *.
  change (acc_totalListens accInit) with 0 in Ht.
  change (acc_bestPercentile accInit) with 101%Q in B1, B3.
  change (acc_albumIds accInit) with (@nil string) in D1, D2.
  split; [lia|].
  destruct (Qle_bool (acc_bestPercentile a) 100) eqn:E.
  - apply Qle_bool_iff in E. split; [done|]. split; [done|]. split.
    + destruct B3 as [B3|B3]; [rewrite B3 in E; lra|by right].
    + split; [apply D1; constructor|].
      intros id. rewrite D2. split; [intros [H|H]; [inversion H|done]|by right].
  - assert (Hgt : ~ (acc_bestPercentile a <= 100)%Q).
    { intros H. apply Qle_bool_iff in H. congruence. }
    split; [lra|]. split.
    + eapply Forall_impl; [exact B2|]. intros p Hp. simpl in Hp. lra.
    + split; [by left|]. split; [apply D1; constructor|].
      intros id. rewrite D2. split; [intros [H|H]; [inversion H|done]|by right].
Qed.

Lemma Math_max_ge_r a b : (b <= Math_max a b)%Q.
Proof.
  unfold Math_max. destruct (Qle_bool a b) eqn:E; [lra|].
  assert (~ (a <= b)%Q) by (intros H; apply Qle_bool_iff in H; congruence). lra.
Qed.

Lemma round1_ge_90 x :
  (90 <= x)%Q -> (x <= 100)%Q -> (90 <= round1 x)%Q /\ (round1 x <= 100)%Q.
Proof.
  intros Hl Hu. unfold round1, Math_round.
  assert (H1 : 900 <= Qfloor (x * 10 + (1 # 2))).
  { apply Z.le_trans with (Qfloor (1801 # 2)); [done|]. apply Qfloor_resp_le. lra. }
  assert (H2 : Qfloor (x * 10 + (1 # 2)) <= 1000).
  { apply Z.le_trans with (Qfloor (2001 # 2)); [|done]. apply Qfloor_resp_le. lra. }
  rewrite Zle_Qle in H1, H2.
  change (inject_Z 900) with 900%Q in H1. change (inject_Z 1000) with 1000%Q in H2.
  unfold Qdiv. change (/ 10)%Q with (1 # 10)%Q.
  split; lra.
Qed.

Lemma fold_left_Math_min_bounds ps : forall p,
  (0 <= p)%Q /\ (p <= 100)%Q ->
  Forall (fun q => (0 <= q)%Q /\ (q <= 100)%Q) ps ->
  (0 <= fold_left Math_min ps p)%Q /\ (fold_left Math_min ps p <= 100)%Q.
Proof.
  induction ps as [|q ps IH]; intros p Hp Hall; [done|].
  apply Forall_cons_1 in Hall as [Hq Hall]. cbn [fold_left]. apply IH; [|done].
  unfold Math_min. by destruct (Qle_bool p q).
Qed.

Lemma aggregate_names ps :
  map artistName (aggregateArtistStats ps) = map fst (artistStatsMapOf ps).
Proof.
  unfold aggregateArtistStats. rewrite map_map. apply map_ext. by intros [k a].
Qed.

Lemma aggregate_names_NoDup ps : NoDup (map artistName (aggregateArtistStats ps)).
Proof.
  rewrite aggregate_names. unfold artistStatsMapOf. rewrite artistStatsMapOf_visits.
  apply visits_NoDup. constructor.
Qed.

Lemma aggregate_best_range ps :
  Forall (fun stat => (0 <= percentile stat)%Q) ps ->
  Forall (fun s => (0 <= bestPercentile s)%Q /\ (bestPercentile s <= 100)%Q)
    (aggregateArtistStats ps).
Proof.
  intros Hall.
  destruct (outer_loop_invariants "" ps [] Hall) as (Hnn & _); [constructor..|].
  fold (artistStatsMapOf ps) in Hnn. unfold aggregateArtistStats.
  apply List.Forall_forall. intros s Hs.
  apply in_map_iff in Hs as ([k a] & <- & Hka). cbn [bestPercentile].
  unfold accNonNegative in Hnn. rewrite List.Forall_forall in Hnn.
  specialize (Hnn _ Hka). simpl in Hnn.
  destruct (Qle_bool (acc_bestPercentile a) 100) eqn:E.
  - apply Qle_bool_iff in E. done.
  - split; lra.
Qed.

Section WrappedValues.

Variable cdnUrl : option string.
Variable encodeURI : string -> string.
Variable getHours : Z -> Z.

(** X15. In every wrapped result, globalPercentile lies between 0.1 and
    100; every topPerformances entry shows either 0.1 or a value between
    90 and 100; and no artist appears twice in topPerformances. *)
Theorem wrapped_percent_values_are_in_range db startDate endDate user :
  let w := wrappedStats cdnUrl encodeURI getHours db startDate endDate user in
  ((1 # 10 <= globalPercentile w)%Q /\ (globalPercentile w <= 100)%Q)
  /\ Forall (fun tp => tp_roundedTopPercent tp = (1 # 10)%Q
                       \/ ((90 <= tp_roundedTopPercent tp)%Q
                           /\ (tp_roundedTopPercent tp <= 100)%Q))
       (topPerformances w)
  /\ NoDup (map tp_artistName (topPerformances w)).
Proof.
  intros w. subst w. unfold wrappedStats. cbn [globalPercentile topPerformances].
  set (stats := calculateListeningPercentiles (users db) user (albumMapOf db user)).
  assert (Hall : Forall (fun stat => (0 <= percentile stat)%Q) stats).
  { apply List.Forall_forall. intros stat Hs. subst stats.
    unfold calculateListeningPercentiles in Hs.
    apply in_map_iff in Hs as (us & <- & _). apply percentileOf_nonneg. }
  pose proof (aggregate_best_range stats Hall) as Hagg.
  pose proof (aggregate_names_NoDup stats) as Hnd.
  set (agg := aggregateArtistStats stats) in *.
  split; [|split].
  - unfold calculateGlobalPercentile.
    assert (Hmap : Forall (fun q => (0 <= q)%Q /\ (q <= 100)%Q)
                     (map bestPercentile agg)).
    { apply List.Forall_forall. intros q Hq. apply in_map_iff in Hq as (s & <- & Hs).
      rewrite List.Forall_forall in Hagg. by apply Hagg. }
    destruct (map bestPercentile agg) as [|p ps]; [split; lra|].
    apply Forall_cons_1 in Hmap as [Hp Hps].
    destruct (fold_left_Math_min_bounds ps p Hp Hps) as [Hb0 Hb1].
    destruct (Qeq_bool _ 0); [unfold MIN_TOP_PERCENT; split; lra|].
    apply round1_bounds.
    + apply Math_max_bounds with (u := 100%Q); unfold MIN_TOP_PERCENT; lra.
    + apply Math_max_bounds with (u := 100%Q); unfold MIN_TOP_PERCENT; lra.
  - apply List.Forall_forall. intros tp Htp.
    apply list_elem_of_In, topPerformancesOf_elem in Htp as (s & Hs & Hle & ->).
    cbn [tp_roundedTopPercent].
    destruct (Qeq_bool (bestPercentile s) 0); [by left|]. right.
    apply Qle_bool_iff in Hle. unfold TOP_PERFORMANCE_PERCENTILE_THRESHOLD in Hle.
    rewrite List.Forall_forall in Hagg.
    destruct (Hagg s ltac:(by apply list_elem_of_In)) as [H0 H1].
    apply round1_ge_90.
    + pose proof (Math_max_ge_r MIN_TOP_PERCENT (100 - bestPercentile s)). lra.
    + apply Math_max_bounds with (u := 100%Q); unfold MIN_TOP_PERCENT; lra.
  - unfold topPerformancesOf. rewrite map_map. cbn [tp_artistName].
    change (map (fun x => artistName x)) with (map artistName).
    apply NoDup_ListNoDup. eapply Permutation_NoDup.
    + apply Permutation_map. symmetry. apply sort_Permutation.
    + apply NoDup_ListNoDup.
      eapply sublist_NoDup; [exact Hnd|]. apply (fmap_sublist artistName), filter_sublist.
Qed.

End WrappedValues.

(* ===================================================================== *)
(** ** The wrapped controller: listening times, totals and top lists *)
(* ===================================================================== *)

Lemma fold_left_flat_map {A B C} (f : A -> C -> A) (g : B -> list C) l : forall a,
  fold_left (fun a x => fold_left f (g x) a) l a = fold_left f (flat_map g l) a.
Proof.
  induction l as [|x l IH]; intros a; [done|].
  cbn [fold_left flat_map]. by rewrite fold_left_app, IH.
Qed.

(** X16. [calculateListeningTimes] counts every stored listen of the songs
    it is given by the hour of its date: morning counts the hours 6 to 11,
    afternoon 12 to 17, evening 18 to 23 and night 0 to 5. The four buckets
    together hold the listens with an hour between 0 and 23, which are all
    listens when [getHours] only returns such hours. *)
Theorem listening_times_count_every_listen (getHours : Z -> Z) listened :
  let times := calculateListeningTimes getHours listened in
  let hours := map getHours (flat_map ls_listenHistory listened) in
  morning times = countHours (fun h => (6 <=? h) && (h <? 12)) hours
  /\ afternoon times = countHours (fun h => (12 <=? h) && (h <? 18)) hours
  /\ evening times = countHours (fun h => (18 <=? h) && (h <? 24)) hours
  /\ night times = countHours (fun h => (0 <=? h) && (h <? 6)) hours
  /\ bucketTotal times = countHours validHour hours
  /\ ((forall d, validHour (getHours d) = true) ->
      bucketTotal times
      = Z.of_nat (length (flat_map ls_listenHistory listened))).
Proof.
  intros times hours. subst times hours. unfold calculateListeningTimes.
  rewrite (fold_left_flat_map _ ls_listenHistory listened).
  set (dates := flat_map ls_listenHistory listened).
  set (step := fun times date => _).
  assert (H : forall t0,
    let t := fold_left step dates t0 in
    morning t = morning t0
                + countHours (fun h => (6 <=? h) && (h <? 12)) (map getHours dates)
    /\ afternoon t = afternoon t0
                     + countHours (fun h => (12 <=? h) && (h <? 18)) (map getHours dates)
    /\ evening t = evening t0
                   + countHours (fun h => (18 <=? h) && (h <? 24)) (map getHours dates)
    /\ night t = night t0
                 + countHours (fun h => (0 <=? h) && (h <? 6)) (map getHours dates)
    /\ bucketTotal t = bucketTotal t0 + countHours validHour (map getHours dates)).
  { unfold countHours, bucketTotal, validHour.
    induction dates as [|d dates IH]; intros t0; cbn [fold_left map List.filter].
    - cbn [length]. lia.
    - destruct (IH (step t0 d)) as (I1 & I2 & I3 & I4 & I5).
      rewrite I1, I2, I3, I4 in I5. rewrite I1, I2, I3, I4.
      clear I1 I2 I3 I4 IH. revert I5. subst step. cbv beta.
      destruct (Z.leb_spec 6 (getHours d)), (Z.ltb_spec (getHours d) 12),
        (Z.leb_spec 12 (getHours d)), (Z.ltb_spec (getHours d) 18),
        (Z.leb_spec 18 (getHours d)), (Z.ltb_spec (getHours d) 24),
        (Z.leb_spec 0 (getHours d)), (Z.ltb_spec (getHours d) 6);
        cbn [andb morning afternoon evening night length]; lia. }
  destruct (H {| morning := 0; afternoon := 0; evening := 0; night := 0 |})
    as (H1 & H2 & H3 & H4 & H5).
  unfold bucketTotal in H5 at 2. cbn [morning afternoon evening night] in *.
  split; [lia|]. split; [lia|]. split; [lia|]. split; [lia|]. split; [lia|].
  intros Hvalid. rewrite H5. unfold countHours.
  rewrite (forallb_filter_id validHour (map getHours dates)).
  - rewrite length_map. lia.
  - apply forallb_forall. intros h Hh. apply in_map_iff in Hh as (d & <- & _).
    apply Hvalid.
Qed.

Lemma fold_left_sumZ {A} (f : A -> Z) (c : Z) l : forall a,
  fold_left (fun total x => total + f x * c) l a = a + c * sumZ (map f l).
Proof.
  induction l as [|x l IH]; intros a; simpl; [lia|]. rewrite IH. lia.
Qed.

Lemma fold_left_sumZ_1 {A} (f : A -> Z) l : forall a,
  fold_left (fun total x => total + f x) l a = a + sumZ (map f l).
Proof.
  induction l as [|x l IH]; intros a; simpl; [lia|]. rewrite IH. lia.
Qed.

Lemma orElse_nonempty s : orElse s "Artiste Inconnu" <> "".
Proof.
  unfold orElse. destruct (decide (s = "")) as [E|E].
  - rewrite bool_decide_eq_true_2 by done. discriminate.
  - by rewrite bool_decide_eq_false_2.
Qed.

Section WrappedTotals.

Variable cdnUrl : option string.
Variable encodeURI : string -> string.
Variable getHours : Z -> Z.

Lemma calculateTopSongs_shown albumMap song :
  ShownSong albumMap song
    {| ws_title :=
         match songTitle song with
         | [] => codes "Titre Inconnu"
         | t => t
         end;
       ws_artist :=
         orElse (from_option (fun a => joinAmp (artist a)) ""
                   (getAlbum albumMap (ls_albumId song)))
           "Artiste Inconnu";
       ws_playCount := ls_playCount song |}.
Proof.
  unfold ShownSong. cbn [ws_playCount ws_title ws_artist].
  split; [reflexivity|]. split.
  - by destruct (songTitle song).
  - destruct (getAlbum albumMap (ls_albumId song)) as [album|]; [|reflexivity].
    cbn [from_option]. unfold orElse.
    destruct (decide (joinAmp (artist album) = "")) as [E|E].
    + by rewrite bool_decide_eq_true_2.
    + by rewrite bool_decide_eq_false_2.
Qed.

(** X17. In a wrapped result, totalListens is the sum of the play counts
    of the songs with a listen in the year and totalMinutes is three times
    that; topSongs shows the first five of these songs ranked by play
    count, highest first, each with its title, the artists of its album
    and its play count, and topAlbums shows the first six of the year's
    albums ranked the same way, each with the title, the artists and the
    cover of its catalog document and its play count; no top song has an
    empty title or artist, and no top album an empty title. *)
Theorem wrapped_totals_and_top_lists db startDate endDate user :
  let w := wrappedStats cdnUrl encodeURI getHours db startDate endDate user in
  let yearSongs := yearlySongs startDate endDate user in
  let yearAlbums := yearlyAlbums startDate endDate user in
  totalListens w = sumZ (map ls_playCount yearSongs)
  /\ totalMinutes w = 3 * totalListens w
  /\ (exists ranked,
        Permutation ranked yearSongs
        /\ StronglySorted (fun a b => ls_playCount b <= ls_playCount a) ranked
        /\ Forall2 (ShownSong (albumMapOf db user)) (take 5 ranked) (topSongs w))
  /\ (exists ranked,
        Permutation ranked yearAlbums
        /\ StronglySorted (fun a b => la_playCount b <= la_playCount a) ranked
        /\ Forall2 (ShownAlbum cdnUrl encodeURI (albumMapOf db user))
             (take 6 ranked) (topAlbums w))
  /\ Forall (fun s => ws_title s <> [] /\ ws_artist s <> "") (topSongs w)
  /\ Forall (fun a => wa_title a <> []) (topAlbums w).
Proof.
  intros w yearSongs yearAlbums. subst w. unfold wrappedStats.
  cbn [totalListens totalMinutes topSongs topAlbums].
  fold yearSongs. fold yearAlbums.
  split; [by rewrite (fold_left_sumZ_1 ls_playCount)|].
  split.
  { rewrite (fold_left_sumZ ls_playCount DEFAULT_SONG_DURATION_MINUTES).
    rewrite (fold_left_sumZ_1 ls_playCount).
    unfold DEFAULT_SONG_DURATION_MINUTES. lia. }
  split.
  { eexists. split; [apply sort_Permutation|]. split; [apply sort_sorted_Z|].
    unfold calculateTopSongs. rewrite slice0_nonneg by lia.
    apply Forall2_fmap_r, Forall_Forall2_diag, Forall_true. intros song.
    apply calculateTopSongs_shown. }
  split.
  { eexists. split; [apply sort_Permutation|]. split; [apply sort_sorted_Z|].
    unfold calculateTopAlbums. rewrite slice0_nonneg by lia.
    apply Forall2_fmap_r, Forall_Forall2_diag, Forall_true. intros la.
    unfold compose, ShownAlbum. cbn [wa_playCount wa_title wa_artist wa_coverUrl].
    split; [reflexivity|].
    destruct (getAlbum (albumMapOf db user) (la_albumId la)) as [album|];
      cbn [from_option]; [|by repeat split].
    split; [by destruct (title album)|]. split; [reflexivity|].
    unfold coverUrlOf.
    destruct (decide (cover album = "")) as [E|E].
    - by rewrite bool_decide_eq_true_2.
    - rewrite bool_decide_eq_false_2 by done.
      destruct (String.prefix "http" (cover album)); [reflexivity|].
      destruct cdnUrl as [cdn|]; cbn [default].
      + destruct (decide (cdn = "")) as [Ec|Ec].
        * by rewrite bool_decide_eq_true_2.
        * rewrite bool_decide_eq_false_2 by done.
          by destruct (String.prefix "/" (cover album)).
      + reflexivity. }
  split.
  - unfold calculateTopSongs. apply List.Forall_forall. intros s Hs.
    apply in_map_iff in Hs as (song & <- & _). cbn [ws_title ws_artist].
    split; [by destruct (songTitle song)|apply orElse_nonempty].
  - unfold calculateTopAlbums. apply List.Forall_forall. intros a Ha.
    apply in_map_iff in Ha as (la & <- & _). cbn [wa_title].
    by destruct (from_option title [] _).
Qed.

(** X18. A user without any listen in the year gets an empty wrapped
    result for every field of the year: no top song, no top album, no
    language, zero listens, zero minutes and zero listening times. If the
    user has no listened album at all, globalPercentile is the neutral 50
    and topPerformances is empty. *)
Theorem silent_year_gives_empty_wrapped db startDate endDate user :
  silentYear startDate endDate user ->
  let w := wrappedStats cdnUrl encodeURI getHours db startDate endDate user in
  topSongs w = [] /\ topAlbums w = [] /\ languageBreakdown w = []
  /\ totalListens w = 0 /\ totalMinutes w = 0
  /\ listeningTimes w
     = {| morning := 0; afternoon := 0; evening := 0; night := 0 |}
  /\ (listenedAlbums user = [] ->
      globalPercentile w = 50%Q /\ topPerformances w = []).
Proof.
  intros [Hsongs Halbums] w. subst w. unfold wrappedStats.
  cbn [topSongs topAlbums languageBreakdown totalListens totalMinutes
       listeningTimes globalPercentile topPerformances].
  assert (Hs : yearlySongs startDate endDate user = []).
  { unfold yearlySongs. apply filter_all_false. intros song Hin.
    rewrite Forall_forall in Hsongs. specialize (Hsongs song Hin).
    induction Hsongs as [|d ds Hd _ IH]; simpl; [done|]. by rewrite Hd. }
  assert (Ha : yearlyAlbums startDate endDate user = []).
  { unfold yearlyAlbums. apply filter_all_false. intros album Hin.
    rewrite Forall_forall in Halbums. specialize (Halbums album Hin).
    induction Halbums as [|d ds Hd _ IH]; simpl; [done|]. by rewrite Hd. }
  rewrite Hs, Ha.
  split; [done|]. split; [done|]. split; [done|]. split; [done|].
  split; [done|]. split; [done|].
  intros Hnone. unfold calculateListeningPercentiles. rewrite Hnone. done.
Qed.

End WrappedTotals.

Lemma silent_year_gives_empty_wrapped_witness :
  let w := wrappedStats testCdn asciiEncodeURI utcHours lastYearDb JAN_2026
             JAN_2027 userLastYear in
  topSongs w = [] /\ topAlbums w = [] /\ languageBreakdown w = []
  /\ totalListens w = 0 /\ totalMinutes w = 0
  /\ listeningTimes w
     = {| morning := 0; afternoon := 0; evening := 0; night := 0 |}
  /\ (listenedAlbums userLastYear = [] ->
      globalPercentile w = 50%Q /\ topPerformances w = []).
Proof.
  apply (silent_year_gives_empty_wrapped testCdn asciiEncodeURI utcHours
           lastYearDb JAN_2026 JAN_2027 userLastYear).
  split; repeat constructor.
Defined.

(* ===================================================================== *)
(** ** The wrapped controller: language breakdown *)
(* ===================================================================== *)

Lemma language_loop albumMap (listened : list ListenedAlbumStats) :
  forall acc : list (string * Z),
  NoDup (map fst acc) ->
  let acc' :=
    fold_left
      (fun langCounts listenedAlbum =>
         match getAlbum albumMap (la_albumId listenedAlbum) with
         | Some albumData =>
             if bool_decide (lang albumData = "") then langCounts
             else addCount (lang albumData) (la_playCount listenedAlbum) langCounts
         | None => langCounts
         end)
      listened acc in
  NoDup (map fst acc')
  /\ (forall l, l ∈ map fst acc' <->
                l ∈ map fst acc
                \/ exists la, la ∈ listened /\ countedLang albumMap la = Some l)
  /\ (forall l, countAt acc' l = countAt acc l + playsInLang albumMap listened l).
Proof.
  unfold playsInLang.
  induction listened as [|la listened IH]; intros acc Hnd; cbn [fold_left].
  - split; [done|]. split.
    + intros l. split; [by left|]. intros [H|(la & Hla & _)]; [done|inversion Hla].
    + intros l. simpl. lia.
  - set (acc1 := match getAlbum albumMap (la_albumId la) with
                 | Some albumData =>
                     if bool_decide (lang albumData = "") then acc
                     else addCount (lang albumData) (la_playCount la) acc
                 | None => acc
                 end).
    assert (H1 : NoDup (map fst acc1)
                 /\ (forall l, l ∈ map fst acc1 <->
                               l ∈ map fst acc \/ countedLang albumMap la = Some l)
                 /\ (forall l, countAt acc1 l
                               = countAt acc l
                                 + (if bool_decide (countedLang albumMap la = Some l)
                                    then la_playCount la else 0))).
    { subst acc1. unfold countedLang.
      destruct (getAlbum albumMap (la_albumId la)) as [doc|].
      - destruct (bool_decide (lang doc = "")).
        + split; [done|]. split.
          * intros l. split; [by left|]. intros [H|H]; [done|discriminate].
          * intros l. rewrite bool_decide_eq_false_2 by discriminate. lia.
        + split; [rewrite addCount_keys; by apply setAdd_NoDup|]. split.
          * intros l. rewrite addCount_keys, setAdd_elem. split.
            -- intros [H|H]; [by left|right; by rewrite H].
            -- intros [H|[= H]]; [by left|by right].
          * intros l. rewrite addCount_countAt.
            destruct (decide (lang doc = l)) as [E|E].
            -- rewrite !bool_decide_eq_true_2; [done|by rewrite E|done].
            -- rewrite !bool_decide_eq_false_2; [done|congruence|done].
      - split; [done|]. split.
        + intros l. split; [by left|]. intros [H|H]; [done|discriminate].
        + intros l. rewrite bool_decide_eq_false_2 by discriminate. lia. }
    destruct H1 as (N1 & K1 & C1).
    destruct (IH acc1 N1) as (N2 & K2 & C2).
    split; [done|]. split.
    + intros l. rewrite K2, K1. split.
      * intros [[H|H]|(la' & Hin & H)].
        -- by left.
        -- right. exists la. split; [by left|done].
        -- right. exists la'. split; [by right|done].
      * intros [H|(la' & Hin & H)]; [left; by left|].
        apply elem_of_cons in Hin as [->|Hin]; [left; by right|].
        right. by exists la'.
    + intros l. rewrite C2, C1. cbn [List.filter].
      destruct (bool_decide (countedLang albumMap la = Some l)); simpl; lia.
Qed.

(** X19. [calculateLanguageBreakdown] lists each language once; a language
    is listed exactly when some listened album has a catalog document with
    that (non-empty) language, and its count is the sum of the play counts
    of these albums. Albums without a catalog document or without a
    language are not counted. *)
Theorem language_breakdown_sums_play_counts listened albumMap :
  let counts := calculateLanguageBreakdown listened albumMap in
  NoDup (map fst counts)
  /\ forall l n,
       (l, n) ∈ counts <->
       (exists la, la ∈ listened /\ countedLang albumMap la = Some l)
       /\ n = playsInLang albumMap listened l.
Proof.
  intros counts. subst counts. unfold calculateLanguageBreakdown.
  destruct (language_loop albumMap listened [] ltac:(constructor))
    as (Hnd & Hkeys & Hcount).
  cbv zeta in *. split; [exact Hnd|].
  intros l n. rewrite (countAt_elem _ l n Hnd), Hkeys, Hcount.
  change (countAt [] l) with 0. split.
  - intros [[H|H] ->]; [inversion H|]. split; [done|lia].
  - intros [H ->]. split; [by right|lia].
Qed.

(* ===================================================================== *)
(** ** [sanitize] *)
(* ===================================================================== *)

Lemma sanitize_array items : sanitize (JArray items) = JArray (map sanitize items).
Proof. reflexivity. Qed.

Lemma sanitize_object entries :
  sanitize (JObject entries)
  = JObject
      (fold_left
         (fun acc kv =>
            if String.prefix "$" (fst kv) then acc
            else if String.eqb (fst kv) "__proto__" then acc
            else objSet acc (fst kv) (sanitize (snd kv)))
         entries []).
Proof. reflexivity. Qed.

Lemma cleanValue_array items : cleanValue (JArray items) <-> Forall cleanValue items.
Proof.
  unfold cleanValue. induction items as [|x r IH].
  - split; [constructor|done].
  - change (hasOperatorKey (JArray (x :: r)))
      with (hasOperatorKey x || hasOperatorKey (JArray r)).
    change (hasProtoKey (JArray (x :: r)))
      with (hasProtoKey x || hasProtoKey (JArray r)).
    change (uniqueKeys (JArray (x :: r)))
      with (uniqueKeys x /\ uniqueKeys (JArray r)).
    rewrite !orb_false_iff, Forall_cons. tauto.
Qed.

Lemma cleanValue_object entries :
  cleanValue (JObject entries) <->
  NoDup (map fst entries)
  /\ Forall (fun kv => String.prefix "$" (fst kv) = false
                       /\ String.eqb (fst kv) "__proto__" = false
                       /\ cleanValue (snd kv))
       entries.
Proof.
  unfold cleanValue.
  change (uniqueKeys (JObject entries))
    with (NoDup (map fst entries)
          /\ fold_right (fun kv P => uniqueKeys (snd kv) /\ P) True entries).
  enough (H : (hasOperatorKey (JObject entries) = false
               /\ hasProtoKey (JObject entries) = false
               /\ fold_right (fun kv P => uniqueKeys (snd kv) /\ P) True entries)
              <-> Forall (fun kv => String.prefix "$" (fst kv) = false
                                    /\ String.eqb (fst kv) "__proto__" = false
                                    /\ hasOperatorKey (snd kv) = false
                                       /\ hasProtoKey (snd kv) = false
                                       /\ uniqueKeys (snd kv))
                    entries) by tauto.
  induction entries as [|kv r IH].
  - split; [constructor|done].
  - change (hasOperatorKey (JObject (kv :: r)))
      with (String.prefix "$" (fst kv) || hasOperatorKey (snd kv)
            || hasOperatorKey (JObject r)).
    change (hasProtoKey (JObject (kv :: r)))
      with (String.eqb (fst kv) "__proto__" || hasProtoKey (snd kv)
            || hasProtoKey (JObject r)).
    cbn [fold_right]. rewrite !orb_false_iff, Forall_cons. tauto.
Qed.

Lemma objSet_keys acc key v : map fst (objSet acc key v) = setAdd (map fst acc) key.
Proof.
  unfold setAdd. induction acc as [|[k old] r IH]; simpl; [reflexivity|].
  destruct (decide (k = key)) as [->|Hne]; simpl.
  - rewrite decide_True; [done|]. by left.
  - rewrite IH. destruct (decide (key ∈ map fst r)) as [Hin|Hin].
    + rewrite decide_True; [done|]. by right.
    + rewrite decide_False; [done|]. intros H.
      apply elem_of_cons in H as [H|H]; [congruence|done].
Qed.

Lemma objSet_Forall (Q : string * JsValue -> Prop) acc key v :
  Forall Q acc -> Q (key, v) -> Forall Q (objSet acc key v).
Proof.
  intros Hall Hq. induction Hall as [|[k old] r Hk Hr IH]; simpl.
  - by constructor.
  - destruct (decide (k = key)) as [->|Hne]; by constructor.
Qed.

Lemma objSet_fresh acc key v :
  key ∉ map fst acc -> objSet acc key v = acc ++ [(key, v)].
Proof.
  induction acc as [|[k old] r IH]; intros Hk; simpl; [done|].
  simpl in Hk. apply not_elem_of_cons in Hk as [Hne Hk].
  rewrite decide_False by congruence. by rewrite IH.
Qed.

Lemma sanitize_clean v : cleanValue (sanitize v).
Proof.
  induction v as [p|items IH|entries IH] using JsValue_induction.
  - done.
  - rewrite sanitize_array. apply cleanValue_array.
    induction IH as [|x r Hx _ IHr]; simpl; by constructor.
  - rewrite sanitize_object. apply cleanValue_object.
    set (Q := fun kv : string * JsValue =>
                String.prefix "$" (fst kv) = false
                /\ String.eqb (fst kv) "__proto__" = false
                /\ cleanValue (snd kv)).
    enough (H : forall acc, NoDup (map fst acc) -> Forall Q acc ->
              let acc' :=
                fold_left
                  (fun acc kv =>
                     if String.prefix "$" (fst kv) then acc
                     else if String.eqb (fst kv) "__proto__" then acc
                     else objSet acc (fst kv) (sanitize (snd kv)))
                  entries acc in
              NoDup (map fst acc') /\ Forall Q acc').
    { apply H; constructor. }
    induction IH as [|kv r Hkv _ IHr]; intros acc Hnd Hall; cbn [fold_left].
    + done.
    + destruct (String.prefix "$" (fst kv)) eqn:E1; [by apply IHr|].
      destruct (String.eqb (fst kv) "__proto__") eqn:E2; [by apply IHr|].
      apply IHr.
      * rewrite objSet_keys. by apply setAdd_NoDup.
      * apply objSet_Forall; [done|]. by split.
Qed.

Lemma sanitize_fixes_clean v : cleanValue v -> sanitize v = v.
Proof.
  induction v as [p|items IH|entries IH] using JsValue_induction; intros Hc.
  - done.
  - rewrite sanitize_array. f_equal. apply cleanValue_array in Hc.
    induction IH as [|x r Hx _ IHr]; [done|].
    apply Forall_cons_1 in Hc as [Hcx Hcr]. cbn [map].
    by rewrite (Hx Hcx), (IHr Hcr).
  - rewrite sanitize_object. f_equal. apply cleanValue_object in Hc as [Hnd Hall].
    enough (H : forall acc, NoDup (map fst acc ++ map fst entries) ->
              fold_left
                (fun acc kv =>
                   if String.prefix "$" (fst kv) then acc
                   else if String.eqb (fst kv) "__proto__" then acc
                   else objSet acc (fst kv) (sanitize (snd kv)))
                entries acc
              = acc ++ entries).
    { apply (H []). exact Hnd. }
    clear Hnd.
    induction IH as [|kv r Hkv _ IHr]; intros acc Hnd; cbn [fold_left].
    + by rewrite app_nil_r.
    + apply Forall_cons_1 in Hall as [(E1 & E2 & Hckv) Hall].
      rewrite E1, E2, (Hkv Hckv).
      cbn [map] in Hnd. apply NoDup_app in Hnd as (Hacc & Hdisj & Hr).
      rewrite objSet_fresh.
      * rewrite (IHr Hall).
        -- rewrite <- app_assoc. by destruct kv.
        -- rewrite map_app. cbn [map]. rewrite <- app_assoc. cbn [app].
           apply NoDup_app. split; [done|]. split; [|done].
           exact Hdisj.
      * intros Hin. apply (Hdisj _ Hin). by left.
Qed.

(** X20. Whatever the input, the result of [sanitize] has no key that
    starts with [$] at any depth, in objects nested in objects or in
    arrays alike, and each of its objects lists every key once. *)
Theorem sanitize_removes_every_operator_key v :
  hasOperatorKey (sanitize v) = false /\ uniqueKeys (sanitize v).
Proof.
  destruct (sanitize_clean v) as (H1 & _ & H3). by split.
Qed.

(** X21. [sanitize] returns a value without [$] keys and without a
    [__proto__] key unchanged, including the order of its keys. *)
Theorem sanitize_keeps_clean_values v :
  hasOperatorKey v = false -> hasProtoKey v = false -> uniqueKeys v ->
  sanitize v = v.
Proof.
  intros H1 H2 H3. apply sanitize_fixes_clean. by split.
Qed.

(** X22. [sanitize] is idempotent: sanitizing a sanitized value changes
    nothing. *)
Theorem sanitize_is_idempotent v : sanitize (sanitize v) = sanitize v.
Proof. apply sanitize_fixes_clean, sanitize_clean. Qed.

Lemma sanitize_keeps_clean_values_witness :
  sanitize (JObject [("name", JPrim (PString "John"));
                     ("tags", JArray [JPrim (PNumber 30); JObject []])])
  = JObject [("name", JPrim (PString "John"));
             ("tags", JArray [JPrim (PNumber 30); JObject []])].
Proof.
  apply (sanitize_keeps_clean_values
           (JObject [("name", JPrim (PString "John"));
                     ("tags", JArray [JPrim (PNumber 30); JObject []])])).
  - reflexivity.
  - reflexivity.
  - simpl. split; [|split; [done|split; [|done]]].
    + apply NoDup_cons. split; [|apply NoDup_singleton].
      intros H. apply list_elem_of_singleton in H. discriminate.
    + split; [done|]. split; [|done]. split; [constructor|done].
Defined.

(* ===================================================================== *)
(** ** [AlbumsFormatUtils.generateCoverAvif] *)
(* ===================================================================== *)

Lemma substring_all s : String.substring 0 (String.length s) s = s.
Proof. induction s as [|c s IH]; simpl; [done|]. by rewrite IH. Qed.

Lemma substring_suffix s suffix :
  String.substring (String.length s) (String.length suffix) (s +:+ suffix) = suffix.
Proof. induction s as [|c s IH]; simpl; [apply substring_all|exact IH]. Qed.

Lemma length_append s t :
  String.length (s +:+ t) = (String.length s + String.length t)%nat.
Proof. induction s as [|c s IH]; simpl; [done|]. by rewrite IH. Qed.

Lemma append_assoc s t u : (s +:+ t) +:+ u = s +:+ t +:+ u.
Proof.
  induction s as [|c s IH]; [done|].
  change (String c ((s +:+ t) +:+ u) = String c (s +:+ t +:+ u)). by rewrite IH.
Qed.

Lemma endsWith_append s suffix : endsWith suffix (s +:+ suffix) = true.
Proof.
  unfold endsWith. rewrite length_append.
  replace (String.length s + String.length suffix - String.length suffix)%nat
    with (String.length s) by lia.
  rewrite substring_suffix, String.eqb_refl, andb_true_r.
  apply Nat.leb_le. lia.
Qed.

Lemma replaceFirst_after_stem stem rest :
  dotFree stem ->
  replaceFirst ".jpg" ".avif" (stem +:+ ".jpg" +:+ rest) = stem +:+ ".avif" +:+ rest.
Proof.
  unfold dotFree. induction stem as [|c stem IH]; intros Hd.
  - cbv [String.append].
    cbn [replaceFirst String.prefix String.append]. simpl Ascii.ascii_dec. cbv iota.
    cbn [String.length Nat.sub String.substring String.append].
    replace (String.prefix "" rest) with true by (by destruct rest).
    by rewrite Nat.sub_0_r, substring_all.
  - simpl in Hd. apply andb_true_iff in Hd as [Hc Hd].
    apply negb_true_iff, Ascii.eqb_neq in Hc.
    change ((String c stem) +:+ ".jpg" +:+ rest)
      with (String c (stem +:+ ".jpg" +:+ rest)).
    cbn [replaceFirst String.prefix].
    unfold FULL_STOP in Hc.
    destruct (Ascii.ascii_dec _ c) as [E|_]; [congruence|].
    by rewrite (IH Hd).
Qed.

(** X23. [generateCoverAvif] leaves a cover that does not end with ".jpg"
    unchanged and turns [stem.jpg] into [stem.avif] when the stem has no
    full stop. It replaces the first ".jpg" only: a cover [stem.jpg...jpg]
    keeps its last extension and still ends with ".jpg". *)
Theorem generateCoverAvif_replaces_the_first_extension :
  (forall cover, endsWith ".jpg" cover = false -> generateCoverAvif cover = cover)
  /\ (forall stem, dotFree stem ->
        generateCoverAvif (stem +:+ ".jpg") = stem +:+ ".avif")
  /\ (forall stem rest, dotFree stem ->
        generateCoverAvif (stem +:+ ".jpg" +:+ rest +:+ ".jpg")
        = stem +:+ ".avif" +:+ rest +:+ ".jpg"
        /\ endsWith ".jpg" (generateCoverAvif (stem +:+ ".jpg" +:+ rest +:+ ".jpg"))
           = true).
Proof.
  split; [|split].
  - intros cover H. unfold generateCoverAvif. by rewrite H.
  - intros stem Hd. unfold generateCoverAvif. rewrite endsWith_append.
    exact (replaceFirst_after_stem stem "" Hd).
  - intros stem rest Hd.
    assert (E : generateCoverAvif (stem +:+ ".jpg" +:+ rest +:+ ".jpg")
                = stem +:+ ".avif" +:+ rest +:+ ".jpg").
    { unfold generateCoverAvif.
      replace (stem +:+ ".jpg" +:+ rest +:+ ".jpg")
        with ((stem +:+ ".jpg" +:+ rest) +:+ ".jpg") at 1.
      - rewrite endsWith_append. by apply replaceFirst_after_stem.
      - by rewrite !append_assoc. }
    split; [exact E|]. rewrite E.
    replace (stem +:+ ".avif" +:+ rest +:+ ".jpg")
      with ((stem +:+ ".avif" +:+ rest) +:+ ".jpg").
    + apply endsWith_append.
    + by rewrite !append_assoc.
Qed.

(* ===================================================================== *)
(** ** The title prefix [/^[^-]+ - /] *)
(* ===================================================================== *)

Lemma matchSeparator_Some s rest :
  matchSeparator s = Some rest <-> s = SEPARATOR ++ rest.
Proof.
  unfold SEPARATOR. destruct s as [|a [|b [|c r]]]; simpl; try (split; discriminate).
  destruct (N.eqb_spec a SPACE) as [->|Ha]; simpl.
  - destruct (N.eqb_spec b HYPHEN) as [->|Hb]; simpl.
    + destruct (N.eqb_spec c SPACE) as [->|Hc]; simpl.
      * split; [by intros [= ->]|by intros [= ->]].
      * split; [discriminate|intros [= ? ?]; congruence].
    + split; [discriminate|intros [= ? ?]; congruence].
  - split; [discriminate|intros [= ? ?]; congruence].
Qed.

Lemma matchRun_Some s rest :
  matchRun s = Some rest <->
  exists run, (HYPHEN ∉ run) /\ s = run ++ SEPARATOR ++ rest.
Proof.
  split.
  - revert rest. induction s as [|c r IH]; intros rest; [discriminate|].
    cbn [matchRun]. destruct (N.eqb_spec c HYPHEN) as [->|Hc].
    + intros H. apply matchSeparator_Some in H. discriminate.
    + destruct (matchRun r) as [rest'|] eqn:Hr.
      * intros [= <-]. destruct (IH rest' eq_refl) as (run & Hrun & ->).
        exists (c :: run). split; [|done].
        intros Hin. apply elem_of_cons in Hin as [Hin|Hin]; [congruence|done].
      * intros H. apply matchSeparator_Some in H. exists []. split; [|done].
        intros Hin. inversion Hin.
  - intros (run & Hrun & ->). induction run as [|c run IH].
    + by destruct rest.
    + apply not_elem_of_cons in Hrun as [Hc Hrun].
      cbn [app matchRun]. destruct (N.eqb_spec c HYPHEN) as [E|_]; [congruence|].
      by rewrite (IH Hrun).
Qed.

(** X24. The title prefix that [formatTitle] removes: the expression
    [/^[^-]+ - /] matches exactly the titles that start with a non-empty,
    hyphen-free run followed by [" - "], and the replacement keeps what
    follows. A title whose first hyphen is not such a separator, or that
    starts with the separator, is left as it is. *)
Theorem title_prefix_is_a_hyphen_free_run (normalizeNFD : jsstring -> jsstring)
  s :
  (forall rest,
     matchPrefix s = Some rest <->
     exists run, run <> [] /\ (HYPHEN ∉ run) /\ s = run ++ SEPARATOR ++ rest)
  /\ (forall run rest,
        run <> [] -> HYPHEN ∉ run -> s = run ++ SEPARATOR ++ rest ->
        replacePrefix s = rest
        /\ formatTitle normalizeNFD s
           = removeCombiningMarks (normalizeNFD (trim rest)))
  /\ ((forall run rest,
         run <> [] -> HYPHEN ∉ run -> s <> run ++ SEPARATOR ++ rest) ->
      replacePrefix s = s).
Proof.
  assert (Hiff : forall rest,
     matchPrefix s = Some rest <->
     exists run, run <> [] /\ (HYPHEN ∉ run) /\ s = run ++ SEPARATOR ++ rest).
  { intros rest. unfold matchPrefix. destruct s as [|c r].
    - split; [discriminate|]. intros (run & Hne & _ & H). by destruct run.
    - destruct (N.eqb_spec c HYPHEN) as [->|Hc].
      + split; [discriminate|]. intros (run & Hne & Hrun & H).
        destruct run as [|c' run]; [done|]. inversion H; subst.
        exfalso. apply Hrun. by left.
      + rewrite matchRun_Some. split.
        * intros (run & Hrun & ->). exists (c :: run). split; [done|].
          split; [|done]. intros Hin.
          apply elem_of_cons in Hin as [Hin|Hin]; [congruence|done].
        * intros (run & Hne & Hrun & H). destruct run as [|c' run]; [done|].
          inversion H; subst. apply not_elem_of_cons in Hrun as [_ Hrun].
          by exists run. }
  split; [exact Hiff|]. split.
  - intros run rest Hne Hrun Hs.
    assert (Hm : matchPrefix s = Some rest) by (apply Hiff; by exists run).
    unfold formatTitle, replacePrefix. by rewrite Hm.
  - intros Hnone. unfold replacePrefix.
    destruct (matchPrefix s) as [rest|] eqn:Hm; [|done].
    destruct (proj1 (Hiff rest) eq_refl) as (run & Hne & Hrun & Hs).
    by destruct (Hnone run rest).
Qed.

(* ===================================================================== *)
(** ** [UserService.listenSong] *)
(* ===================================================================== *)

Lemma saveUser_find docs userId user user' :
  List.find (fun u => bool_decide (user_id u = userId)) docs = Some user ->
  user_id user' = userId ->
  List.find (fun u => bool_decide (user_id u = userId)) (saveUser user' docs)
  = Some user'
  /\ (forall other, other <> userId ->
        List.find (fun u => bool_decide (user_id u = other)) (saveUser user' docs)
        = List.find (fun u => bool_decide (user_id u = other)) docs)
  /\ map user_id (saveUser user' docs) = map user_id docs.
Proof.
  intros Hfind Hid. induction docs as [|u docs IH]; [discriminate|].
  cbn [List.find saveUser] in *. rewrite Hid.
  destruct (decide (user_id u = userId)) as [E|E].
  - rewrite bool_decide_eq_true_2 in * by done. cbn [List.find map].
    rewrite bool_decide_eq_true_2 by done. split; [done|]. split.
    + intros other Ho. rewrite !bool_decide_eq_false_2 by congruence. done.
    + by rewrite Hid, E.
  - rewrite bool_decide_eq_false_2 in * by done. cbn [List.find map].
    rewrite bool_decide_eq_false_2 by done.
    destruct (IH Hfind) as (I1 & I2 & I3). split; [done|]. split.
    + intros other Ho. by rewrite (I2 other Ho).
    + by rewrite I3.
Qed.

Lemma listenSongStats_consistent now t f a stats :
  Forall (fun s => ls_playCount s = Z.of_nat (length (ls_listenHistory s))) stats ->
  Forall (fun s => ls_playCount s = Z.of_nat (length (ls_listenHistory s)))
    (listenSongStats now t f a stats).
Proof.
  induction 1 as [|s r Hs Hr IH]; cbn [listenSongStats].
  - by repeat constructor.
  - destruct (bool_decide (songTitle s = t)); constructor; try done.
    cbn [ls_playCount ls_listenHistory]. rewrite length_app. simpl. lia.
Qed.

Lemma listenAlbumStats_consistent now a stats :
  Forall (fun s => la_playCount s = Z.of_nat (length (la_listenHistory s))) stats ->
  Forall (fun s => la_playCount s = Z.of_nat (length (la_listenHistory s)))
    (listenAlbumStats now a stats).
Proof.
  induction 1 as [|s r Hs Hr IH]; cbn [listenAlbumStats].
  - by repeat constructor.
  - destruct (bool_decide (la_albumId s = a)); constructor; try done.
    cbn [la_playCount la_listenHistory]. rewrite length_app. simpl. lia.
Qed.

Lemma listenSongStats_titles now t f a stats :
  map songTitle (listenSongStats now t f a stats) = setAdd (map songTitle stats) t.
Proof.
  unfold setAdd. induction stats as [|s r IH]; cbn [listenSongStats map]; [done|].
  destruct (decide (songTitle s = t)) as [<-|E].
  - rewrite bool_decide_eq_true_2 by done. rewrite decide_True by (by left).
    done.
  - rewrite bool_decide_eq_false_2 by done. cbn [map]. rewrite IH.
    destruct (decide (t ∈ map songTitle r)) as [Hin|Hin].
    + rewrite decide_True; [done|]. by right.
    + rewrite decide_False; [done|]. intros H.
      apply elem_of_cons in H as [H|H]; [congruence|done].
Qed.

Lemma listenAlbumStats_ids now a stats :
  map la_albumId (listenAlbumStats now a stats) = setAdd (map la_albumId stats) a.
Proof.
  unfold setAdd. induction stats as [|s r IH]; cbn [listenAlbumStats map]; [done|].
  destruct (decide (la_albumId s = a)) as [<-|E].
  - rewrite bool_decide_eq_true_2 by done. rewrite decide_True by (by left).
    done.
  - rewrite bool_decide_eq_false_2 by done. cbn [map]. rewrite IH.
    destruct (decide (a ∈ map la_albumId r)) as [Hin|Hin].
    + rewrite decide_True; [done|]. by right.
    + rewrite decide_False; [done|]. intros H.
      apply elem_of_cons in H as [H|H]; [congruence|done].
Qed.

Lemma listenSong_inv verifyToken db nowSong nowAlbum token t f a db' st :
  listenSong verifyToken db nowSong nowAlbum token t f a = inr (db', st) ->
  exists userId user,
    validateTokenOrThrow verifyToken token = inr userId
    /\ findById db userId = Some user
    /\ user_id user = userId
    /\ st = 201
    /\ db' = {| users := saveUser (listened nowSong nowAlbum t f a user) (users db);
                albums := albums db;
                favorites := favorites db |}.
Proof.
  unfold listenSong.
  destruct (validateTokenOrThrow verifyToken token) as [e|userId]; [discriminate|].
  destruct (findById db userId) as [user|] eqn:Hf; [|discriminate].
  intros [= <- <-]. exists userId, user. split; [done|]. split; [done|].
  split; [|done]. unfold findById in Hf. apply find_some in Hf as [_ Hf].
  by apply bool_decide_eq_true in Hf.
Qed.

(** X25. A successful [listenSong] answers 201 and saves exactly one user
    document, that of the token's user: the catalog, the favorites, the
    other users and the ids of the stored users are unchanged. The saved
    document still has as many plays as recorded listens in every entry,
    and still one entry per song title and per album, if it had before. *)
Theorem listenSong_saves_one_consistent_document verifyToken db nowSong nowAlbum
  token t f a db' st :
  listenSong verifyToken db nowSong nowAlbum token t f a = inr (db', st) ->
  st = 201
  /\ albums db' = albums db /\ favorites db' = favorites db
  /\ map user_id (users db') = map user_id (users db)
  /\ exists userId user,
       validateTokenOrThrow verifyToken token = inr userId
       /\ findById db userId = Some user
       /\ findById db' userId = Some (listened nowSong nowAlbum t f a user)
       /\ (forall other, other <> userId -> findById db' other = findById db other)
       /\ (countsMatchHistory user ->
           countsMatchHistory (listened nowSong nowAlbum t f a user))
       /\ (oneEntryPerKey user ->
           oneEntryPerKey (listened nowSong nowAlbum t f a user)).
Proof.
  intros H. apply listenSong_inv in H as (userId & user & Hv & Hf & Hid & -> & ->).
  destruct (saveUser_find (users db) userId user
              (listened nowSong nowAlbum t f a user) Hf Hid) as (S1 & S2 & S3).
  split; [done|]. split; [done|]. split; [done|]. split; [exact S3|].
  exists userId, user. split; [done|]. split; [done|]. split; [exact S1|].
  split; [exact S2|]. split.
  - intros [Hs Ha]. split.
    + by apply listenSongStats_consistent.
    + by apply listenAlbumStats_consistent.
  - intros [Hs Ha]. split; cbn [listened listenedSongs listenedAlbums].
    + rewrite listenSongStats_titles. by apply setAdd_NoDup.
    + rewrite listenAlbumStats_ids. by apply setAdd_NoDup.
Qed.

Lemma listenSong_saves_one_consistent_document_witness :
  exists db',
    listenSong acceptToken testDb NOW NOW (Some "u1") (codes "Marche")
      "Marche.mp3" "album-a" = inr (db', 201)
    /\ albums db' = albums testDb /\ favorites db' = favorites testDb
    /\ map user_id (users db') = map user_id (users testDb).
Proof.
  eexists. split; [vm_compute; reflexivity|].
  match goal with
  | |- albums ?d = _ /\ _ =>
      destruct (listenSong_saves_one_consistent_document acceptToken testDb NOW
                  NOW (Some "u1") (codes "Marche") "Marche.mp3" "album-a" d 201
                  ltac:(vm_compute; reflexivity))
        as (_ & Ha & Hf & Hu & _)
  end.
  split; [exact Ha|]. split; [exact Hf|exact Hu].
Defined.

Lemma listenSongStats_effect now t f a stats :
  (forall s, s ∈ stats -> songTitle s <> t -> s ∈ listenSongStats now t f a stats)
  /\ length (listenSongStats now t f a stats)
     = match List.find (fun s => bool_decide (songTitle s = t)) stats with
       | Some _ => length stats
       | None => S (length stats)
       end
  /\ exists s',
       s' ∈ listenSongStats now t f a stats
       /\ songTitle s' = t
       /\ match List.find (fun s => bool_decide (songTitle s = t)) stats with
          | Some s =>
              s' = {| songTitle := songTitle s; songFile := songFile s;
                      ls_albumId := ls_albumId s;
                      ls_playCount := ls_playCount s + 1;
                      ls_listenHistory := ls_listenHistory s ++ [now] |}
          | None =>
              s' = {| songTitle := t; songFile := f; ls_albumId := a;
                      ls_playCount := 1; ls_listenHistory := [now] |}
          end.
Proof.
  induction stats as [|s r (I1 & I2 & s' & I3 & I4 & I5)];
    cbn [listenSongStats List.find].
  - split; [intros s Hs; inversion Hs|]. split; [done|].
    eexists. split; [by left|]. by split.
  - destruct (decide (songTitle s = t)) as [E|E].
    + rewrite !bool_decide_eq_true_2 by done. split.
      * intros x Hx Hne. apply elem_of_cons in Hx as [->|Hx]; [done|by right].
      * split; [done|]. eexists. split; [by left|]. by split.
    + rewrite !bool_decide_eq_false_2 by done. split.
      * intros x Hx Hne. apply elem_of_cons in Hx as [->|Hx]; [by left|].
        right. by apply I1.
      * split.
        -- cbn [length]. rewrite I2. by destruct (List.find _ r).
        -- exists s'. split; [by right|]. by split.
Qed.

(** X26. What [listenSong] does to the user's song entries: the entry is
    looked up by title alone. An existing entry of that title gets one
    more play and the date appended, and keeps its file and album id even
    when the request names another album; without such an entry one is
    added with one play. Entries of other titles stay as they are. *)
Theorem listenSong_counts_the_song_by_title nowSong nowAlbum t f a user :
  let user' := listened nowSong nowAlbum t f a user in
  (forall s, s ∈ listenedSongs user -> songTitle s <> t ->
             s ∈ listenedSongs user')
  /\ length (listenedSongs user')
     = match findSongStats t user with
       | Some _ => length (listenedSongs user)
       | None => S (length (listenedSongs user))
       end
  /\ exists s',
       s' ∈ listenedSongs user'
       /\ songTitle s' = t
       /\ match findSongStats t user with
          | Some s =>
              s' = {| songTitle := songTitle s; songFile := songFile s;
                      ls_albumId := ls_albumId s;
                      ls_playCount := ls_playCount s + 1;
                      ls_listenHistory := ls_listenHistory s ++ [nowSong] |}
          | None =>
              s' = {| songTitle := t; songFile := f; ls_albumId := a;
                      ls_playCount := 1; ls_listenHistory := [nowSong] |}
          end.
Proof.
  intros user'. subst user'. unfold findSongStats. cbn [listened listenedSongs].
  apply listenSongStats_effect.
Qed.

Lemma listenSongStats_nonempty now t f a stats :
  listenSongStats now t f a stats <> [].
Proof.
  destruct stats as [|s r]; cbn [listenSongStats]; [discriminate|].
  by destruct (bool_decide (songTitle s = t)).
Qed.

Lemma yearly_plays_after_listen startDate endDate now t f a stats :
  inYear startDate endDate now = true ->
  sumZ (map ls_playCount
          (List.filter (fun song => existsb (inYear startDate endDate)
                                      (ls_listenHistory song))
             (listenSongStats now t f a stats)))
  = sumZ (map ls_playCount
            (List.filter (fun song => existsb (inYear startDate endDate)
                                        (ls_listenHistory song))
               stats))
    + 1
    + match List.find (fun s => bool_decide (songTitle s = t)) stats with
      | Some s =>
          if existsb (inYear startDate endDate) (ls_listenHistory s) then 0
          else ls_playCount s
      | None => 0
      end.
Proof.
  intros Hnow. induction stats as [|s r IH];
    cbn [listenSongStats List.find].
  - cbn [List.filter ls_listenHistory existsb]. rewrite Hnow. simpl. lia.
  - destruct (decide (songTitle s = t)) as [E|E].
    + rewrite !bool_decide_eq_true_2 by done.
      cbn [List.filter ls_listenHistory]. rewrite existsb_app.
      cbn [existsb]. rewrite Hnow. cbn [orb]. rewrite orb_true_r.
      destruct (existsb (inYear startDate endDate) (ls_listenHistory s));
        simpl; lia.
    + rewrite !bool_decide_eq_false_2 by done. cbn [List.filter].
      destruct (existsb (inYear startDate endDate) (ls_listenHistory s));
        simpl; simpl in IH; rewrite ?IH; lia.
Qed.

Section AfterListening.

Variable cdnUrl : option string.
Variable encodeURI : string -> string.
Variable normalizeNFD : jsstring -> jsstring.
Variable toLowerCase : jsstring -> jsstring.
Variable localeCompare : jsstring -> jsstring -> Q.
Variable isValidObjectId : option string -> bool.
Variable getHours : Z -> Z.
Variable verifyToken : string -> throws string.

(** X27. After a successful [listenSong], and with [CDN_URL] set, a call
    of [generateRecommendations] for the same user that reads the user
    document from the store returns a result: it cannot fail with "User
    not found" or "No listening history available for recommendations". *)
Theorem recommendations_are_available_after_a_listen db nowSong nowAlbum token
  t f a db' st userId url cache oracle now weights (forceRefresh : bool) :
  listenSong verifyToken db nowSong nowAlbum token t f a = inr (db', st) ->
  validateTokenOrThrow verifyToken token = inr userId ->
  cdnUrl = Some url -> url <> "" ->
  cachedUser cache = None ->
  exists r,
    generateRecommendations cdnUrl encodeURI normalizeNFD toLowerCase localeCompare
      isValidObjectId cache oracle db' now userId weights forceRefresh = inr r.
Proof.
  intros H Hv Hc Hu Hcache.
  apply listenSong_inv in H as (userId' & user & Hv' & Hf & Hid & -> & ->).
  assert (E : userId = userId') by congruence. rewrite E. clear E Hv.
  destruct (saveUser_find (users db) userId' user
              (listened nowSong nowAlbum t f a user) Hf Hid) as (S1 & _ & _).
  eapply generateRecommendations_total; [exact Hc|exact Hu| |].
  - unfold userRead. rewrite Hcache. exact S1.
  - intros [_ Hs]. by apply listenSongStats_nonempty in Hs.
Qed.

(** X28. A listen in the current year raises the wrapped totalListens by
    one, plus the whole play count of the song's entry when that entry had
    no listen in the year before: the total adds up the all-time play
    counts of the songs with a listen in the year. totalMinutes follows
    with three minutes per listen. *)
Theorem a_listen_in_the_year_raises_the_wrapped_total db db' startDate endDate
  nowSong nowAlbum t f a user :
  inYear startDate endDate nowSong = true ->
  let before := wrappedStats cdnUrl encodeURI getHours db startDate endDate user in
  let after :=
    wrappedStats cdnUrl encodeURI getHours db' startDate endDate
      (listened nowSong nowAlbum t f a user) in
  totalListens after
  = totalListens before + 1 + carriedPlays startDate endDate t user
  /\ totalMinutes after
     = totalMinutes before + 3 * (1 + carriedPlays startDate endDate t user).
Proof.
  intros Hnow before after. subst before after. unfold wrappedStats.
  cbn [totalListens totalMinutes].
  rewrite !(fold_left_sumZ ls_playCount DEFAULT_SONG_DURATION_MINUTES).
  rewrite !(fold_left_sumZ_1 ls_playCount).
  unfold yearlySongs, carriedPlays, findSongStats, DEFAULT_SONG_DURATION_MINUTES.
  cbn [listened listenedSongs].
  rewrite (yearly_plays_after_listen startDate endDate nowSong t f a _ Hnow).
  lia.
Qed.

End AfterListening.

Lemma recommendations_are_available_after_a_listen_witness :
  exists db' r,
    listenSong acceptToken testDb NOW NOW (Some "u0") (codes "Marche")
      "Marche.mp3" "album-a" = inr (db', 201)
    /\ generateRecommendations testCdn asciiEncodeURI sampleNFD asciiToLowerCase
         codeUnitCompare noObjectIds noCacheReads constantOracle db' NOW "u0"
         None false = inr r.
Proof.
  eexists.
  assert (H : forall (P : Prop) (A : Type) (Q : A -> Prop), P -> (P -> exists r, Q r)
              -> exists r, P /\ Q r).
  { intros P A Q Hp Hq. destruct (Hq Hp) as [r Hr]. by exists r. }
  apply H; [vm_compute; reflexivity|]. intros Hl.
  apply (recommendations_are_available_after_a_listen testCdn asciiEncodeURI sampleNFD
           asciiToLowerCase codeUnitCompare noObjectIds acceptToken testDb NOW NOW
           (Some "u0") (codes "Marche") "Marche.mp3" "album-a" _ 201 "u0"
           "https://cdn.test" noCacheReads constantOracle NOW None false Hl).
  - reflexivity.
  - reflexivity.
  - discriminate.
  - reflexivity.
Defined.

Lemma a_listen_in_the_year_raises_the_wrapped_total_witness :
  totalListens (wrappedStats testCdn asciiEncodeURI utcHours lastYearDb JAN_2026
                  JAN_2027
                  (listened (JAN_2026 + DAY) (JAN_2026 + DAY) (codes "Marche")
                     "Marche.mp3" "album-a" userSongsOnly))
  = totalListens (wrappedStats testCdn asciiEncodeURI utcHours lastYearDb
                    JAN_2026 JAN_2027 userSongsOnly)
    + 1 + carriedPlays JAN_2026 JAN_2027 (codes "Marche") userSongsOnly
  /\ totalMinutes (wrappedStats testCdn asciiEncodeURI utcHours lastYearDb JAN_2026
                    JAN_2027
                    (listened (JAN_2026 + DAY) (JAN_2026 + DAY) (codes "Marche")
                       "Marche.mp3" "album-a" userSongsOnly))
     = totalMinutes (wrappedStats testCdn asciiEncodeURI utcHours lastYearDb
                       JAN_2026 JAN_2027 userSongsOnly)
       + 3 * (1 + carriedPlays JAN_2026 JAN_2027 (codes "Marche") userSongsOnly).
Proof.
  apply (a_listen_in_the_year_raises_the_wrapped_total testCdn asciiEncodeURI
           utcHours lastYearDb lastYearDb JAN_2026 JAN_2027 (JAN_2026 + DAY)
           (JAN_2026 + DAY) (codes "Marche") "Marche.mp3" "album-a" userSongsOnly).
  reflexivity.
Defined.

(* ===================================================================== *)
(** ** Where the recommended albums come from *)
(* ===================================================================== *)

Lemma mapT_elem {A B} (f : A -> throws B) l : forall l' y,
  mapT f l = inr l' -> y ∈ l' -> exists x, x ∈ l /\ f x = inr y.
Proof.
  induction l as [|x r IH]; intros l' y H Hy; simpl in H.
  - inversion H; subst. inversion Hy.
  - apply bindT_inr in H as (y0 & Hy0 & H). apply bindT_inr in H as (ys & Hys & H).
    inversion H; subst. apply elem_of_cons in Hy as [->|Hy].
    + exists x. split; [by left|done].
    + destruct (IH ys y Hys Hy) as (x' & Hx' & Hf). exists x'. split; [by right|done].
Qed.

Lemma selectAlbums_elem maxSize data pw random matching a :
  a ∈ selectAlbums maxSize (scoreAlbums data pw random matching) -> a ∈ matching.
Proof.
  unfold selectAlbums, scoreAlbums. intros H.
  apply list_elem_of_fmap in H as ([a' q] & -> & H). apply slice0_elem in H.
  rewrite sort_Permutation in H.
  apply elem_of_lookup_imap in H as (i & x & Heq & Hx). inversion Heq; subst.
  apply list_elem_of_lookup. by exists i.
Qed.

Section Origins.

Variable cdnUrl : option string.
Variable encodeURI : string -> string.
Variable normalizeNFD : jsstring -> jsstring.
Variable localeCompare : jsstring -> jsstring -> Q.
Variable isValidObjectId : option string -> bool.

Lemma formatAlbum_from doc a :
  formatAlbum cdnUrl encodeURI normalizeNFD doc = inr a ->
  FormattedFrom normalizeNFD doc a.
Proof.
  unfold formatAlbum. intros H. apply bindT_inr in H as (c & _ & H).
  inversion H. by repeat split.
Qed.

Lemma formatFavorite_from doc a :
  formatFavorite cdnUrl encodeURI normalizeNFD doc = inr a ->
  FormattedFrom normalizeNFD doc a.
Proof.
  unfold formatFavorite. intros H. apply bindT_inr in H as (c & _ & H).
  inversion H. by repeat split.
Qed.

(** X29. On a cache miss every recommended album is the formatted copy of
    a catalog album that matches its category: an artist-based album has
    one of the given artists, a genre-based album one of the given genres;
    a favorite-based album is never one the user has already marked as
    favorite (for a [$sample] that only returns documents it was given),
    and a listened-albums result never contains one of the albums it was
    derived from; computed from the copies that [applyRecencyWeighting]
    makes, it is empty. *)
Theorem recommended_albums_come_from_matching_catalog_albums
  cp db random (sample_ : nat -> list IAlbum -> list IAlbum) :
  (forall artists w pw r,
     getArtistBasedRecommendations cdnUrl encodeURI normalizeNFD None cp db random
       artists w pw = inr r ->
     Forall (fun a => exists doc, doc ∈ albums db
                                  /\ FormattedFrom normalizeNFD doc a
                                  /\ hasCommon (artist doc) artists = true) r)
  /\ (forall genres w pw r,
        getGenreBasedRecommendations cdnUrl encodeURI normalizeNFD None cp db
          random genres w pw = inr r ->
        Forall (fun a => exists doc, doc ∈ albums db
                                     /\ FormattedFrom normalizeNFD doc a
                                     /\ hasCommon (genre doc) genres = true) r)
  /\ (forall user w pw r,
        getListenedAlbumsRecommendations cdnUrl encodeURI normalizeNFD
          isValidObjectId None cp db random user w pw = inr (Some r) ->
        Forall (fun a =>
                  exists doc, doc ∈ albums db /\ FormattedFrom normalizeNFD doc a
                    /\ (Some (_id doc) ∉ topListenedIds isValidObjectId user)) r
        /\ forall now user0 recencyWeight,
             user = applyRecencyWeighting now user0 recencyWeight -> r = [])
  /\ (forall userId r,
        (forall n l x, x ∈ sample_ n l -> x ∈ l) ->
        getFavoriteAlbums cdnUrl encodeURI normalizeNFD localeCompare None db
          sample_ userId = inr r ->
        Forall (fun a => exists doc, doc ∈ albums db
                                     /\ FormattedFrom normalizeNFD doc a
                                     /\ (_id a ∉ favoriteIdsOf db userId)) r).
Proof.
  split; [|split; [|split]].
  - intros artists w pw r. unfold getArtistBasedRecommendations.
    destruct (bool_decide (artists = [])).
    { intros [= <-]. constructor. }
    intros H. apply Forall_forall. intros a Ha.
    destruct (mapT_elem _ _ _ _ H Ha) as (doc & Hdoc & Hfmt).
    apply selectAlbums_elem, list_elem_of_In, filter_In in Hdoc as [Hdoc Hm].
    exists doc. split; [by apply list_elem_of_In|].
    split; [by apply formatAlbum_from|done].
  - intros genres w pw r. unfold getGenreBasedRecommendations.
    destruct (bool_decide (genres = [])).
    { intros [= <-]. constructor. }
    intros H. apply Forall_forall. intros a Ha.
    destruct (mapT_elem _ _ _ _ H Ha) as (doc & Hdoc & Hfmt).
    apply selectAlbums_elem, list_elem_of_In, filter_In in Hdoc as [Hdoc Hm].
    exists doc. split; [by apply list_elem_of_In|].
    split; [by apply formatAlbum_from|done].
  - intros user w pw r. unfold getListenedAlbumsRecommendations.
    destruct (bool_decide (wu_listenedAlbums user = [])); [discriminate|].
    intros H. apply bindT_inr in H as (l & H & [= <-]).
    assert (Hall : Forall (fun a =>
                     exists doc, doc ∈ albums db /\ FormattedFrom normalizeNFD doc a
                       /\ (Some (_id doc) ∉ topListenedIds isValidObjectId user)) l).
    { apply Forall_forall. intros a Ha.
      destruct (mapT_elem _ _ _ _ H Ha) as (doc & Hdoc & Hfmt).
      apply selectAlbums_elem, list_elem_of_In, filter_In in Hdoc as [Hdoc Hm].
      apply andb_true_iff in Hm as [_ Hm].
      apply negb_true_iff, bool_decide_eq_false in Hm.
      exists doc. split; [by apply list_elem_of_In|].
      split; [by apply formatAlbum_from|done]. }
    split; [exact Hall|].
    intros now user0 recencyWeight ->.
    pose proof (listenedCandidates_empty isValidObjectId cp db random _ pw
                  (weighted_albums_have_no_id now user0 recencyWeight)) as Hnil.
    unfold listenedCandidates, topListenedIds in Hnil. rewrite Hnil in H.
    unfold selectAlbums in H.
    assert (Hs : forall n, @slice0 (IAlbum * Q) n [] = []).
    { intros n. unfold slice0. destruct (n <? 0); apply take_nil. }
    cbn [JS.sort] in H. rewrite Hs in H. by inversion H.
  - intros userId r Hsample. unfold getFavoriteAlbums. fold (favoriteIdsOf db userId).
    destruct (bool_decide (favoriteIdsOf db userId = [])).
    { intros [= <-]. constructor. }
    destruct (bool_decide (_ = [])).
    { intros [= <-]. constructor. }
    intros H. apply bindT_inr in H as (l & H & [= <-]).
    apply Forall_forall. intros a Ha. rewrite sort_Permutation in Ha.
    destruct (mapT_elem _ _ _ _ H Ha) as (doc & Hdoc & Hfmt).
    apply Hsample, list_elem_of_In, filter_In in Hdoc as [Hdoc Hm].
    apply andb_true_iff in Hm as [_ Hm].
    apply negb_true_iff, bool_decide_eq_false in Hm.
    pose proof (formatFavorite_from _ _ Hfmt) as Hfrom.
    exists doc. split; [by apply list_elem_of_In|]. split; [done|].
    destruct Hfrom as (-> & _). done.
Qed.

End Origins.
